(** * Session-summary API route: a shallow embedding and its properties

    The development follows the streaming revision of the route
    [pages/api/session-summary.ts]: the helpers [extensionFromFilename],
    [extensionFromMime], [ensureExtensionOnPath], [parseSummaries] and the
    request [handler] with its emitter closures.

    JavaScript strings are sequences of UTF-16 code units; they are
    modelled as [list N].  ASCII literals of the source are written
    [u "..."].

    The handler is embedded as a state-passing computation with
    exceptions.  Its state holds the response object, the close guard
    [responseEnded], the temp files on disk and two logs (storage
    operations that took effect, calls sent to the AI provider).  What the
    surroundings answer (the decoded body, the credential, the replies of
    the provider, whether the storage lets a rename or a copy through) is
    data of the request and of its environment.  Console logging is left
    out.  The completion call is recorded with the roster and the
    transcript its prompt is built from; [buildPrompt] gives the text of
    that prompt, and [requests] what the provider receives.

    The page that calls the route ([pages/index.tsx]) is embedded from
    its list of player fields to [handleSubmit]: the form checks, the
    [players] field it sends, the loop that reads the streamed body and
    the fallback on what is left in the buffer.  [JSON.stringify] is
    modelled on the values the two sides serialise.  The PDF export and
    the markup are left out.

    The revision of the route that answers with one JSON body
    ([NonStreaming]) is embedded beside the streaming one, on the same
    storage and provider. *)

From Stdlib Require Import String Ascii NArith.
From Stdlib Require DecimalFacts DecimalNat.
From stdpp Require Import gmap list.

Local Open Scope N_scope.

(** ** Strings *)

Abbreviation jsstring := (list N).

Definition u (s : string) : jsstring :=
  map N_of_ascii (list_ascii_of_string s).

(** A literal in which the apostrophe stands for the double quote, used to
    write JSON texts. *)
Definition uq (s : string) : jsstring :=
  map (fun c => if c =? 39 then 34 else c) (u s).

(** [WhiteSpace] and [LineTerminator] code points of ECMAScript, the ones
    [String.prototype.trim] strips (all of them are single code units). *)
Definition isWhiteSpace (c : N) : bool :=
  (c =? 9) || (c =? 10) || (c =? 11) || (c =? 12) || (c =? 13) ||
  (c =? 32) || (c =? 160) || (c =? 5760) ||
  ((8192 <=? c) && (c <=? 8202)) ||
  (c =? 8232) || (c =? 8233) || (c =? 8239) || (c =? 8287) ||
  (c =? 12288) || (c =? 65279).

Fixpoint trimStart (s : jsstring) : jsstring :=
  match s with
  | c :: s' => if isWhiteSpace c then trimStart s' else s
  | [] => []
  end.

Definition trimEnd (s : jsstring) : jsstring := rev (trimStart (rev s)).

Definition trim (s : jsstring) : jsstring := trimEnd (trimStart s).

Definition isUpperAscii (c : N) : bool := (65 <=? c) && (c <=? 90).
Definition isLowerAscii (c : N) : bool := (97 <=? c) && (c <=? 122).
Definition isDigit (c : N) : bool := (48 <=? c) && (c <=? 57).

(** Case mapping is modelled on the ASCII range, which is the range of the
    extension alphabet and of the MIME table keys; other code units are
    left as they are. *)
Definition lowerUnit (c : N) : N := if isUpperAscii c then c + 32 else c.

Definition toLowerCase (s : jsstring) : jsstring := map lowerUnit s.

Fixpoint startsWith (s p : jsstring) : bool :=
  match p, s with
  | [], _ => true
  | a :: p', b :: s' => (a =? b) && startsWith s' p'
  | _ :: _, [] => false
  end.

Definition endsWith (s p : jsstring) : bool := startsWith (rev s) (rev p).

(** ** Completions: a value or a thrown exception *)

Inductive error_kind := PlainError | TypeError | SyntaxError | SystemError.

(** A thrown value: an [Error] instance with its message, or some other
    value (for which [instanceof Error] is false). *)
Inductive exn :=
| ErrorObj (kind : error_kind) (message : jsstring)
| NonError.

Inductive completion (A : Type) :=
| Normal (a : A)
| Throw (e : exn).
Arguments Normal {A} a.
Arguments Throw {A} e.

#[global] Instance completion_ret : MRet completion := fun _ a => Normal a.
#[global] Instance completion_bind : MBind completion := fun _ _ f c =>
  match c with
  | Normal a => f a
  | Throw e => Throw e
  end.

(** [try { body } catch (error) { handler error }] *)
Definition try_catch {A} (body : completion A) (handler : exn -> completion A)
  : completion A :=
  match body with
  | Normal a => Normal a
  | Throw e => handler e
  end.

(** ** JSON values and [JSON.parse] *)

#[warnings="-register-all"]
Inductive JValue :=
| JNull
| JBool (b : bool)
| JNumber (lexeme : jsstring)
| JString (s : jsstring)
| JArray (elems : list JValue)
| JObject (members : list (jsstring * JValue)).

Module Json.

(** The parser is a pushdown automaton reading one code unit at a time.
    The stack holds the containers that are still open. *)
Inductive frame :=
| FArr (rev_elems : list JValue)
| FObj (rev_members : list (jsstring * JValue))
| FKey (key : jsstring).

Inductive num_state :=
| NMinus | NZero | NInt | NDot | NFrac | NExp | NExpSign | NExpDigits.

Inductive mode :=
| MValue
| MArrStart
| MObjStart
| MKey
| MColon
| MAfter
| MDone (v : JValue)
| MString (is_key : bool) (rev_acc : jsstring)
| MEscape (is_key : bool) (rev_acc : jsstring)
| MUnicode (is_key : bool) (rev_acc : jsstring) (digits : list N)
| MNumber (st : num_state) (rev_lexeme : jsstring)
| MLiteral (rest : jsstring) (v : JValue).

Definition pstate : Type := list frame * mode.

(** JSON white space: tab, line feed, carriage return, space. *)
Definition isJsonSpace (c : N) : bool :=
  (c =? 9) || (c =? 10) || (c =? 13) || (c =? 32).

Definition hexValue (c : N) : option N :=
  if isDigit c then Some (c - 48)
  else if (97 <=? c) && (c <=? 102) then Some (c - 87)
  else if (65 <=? c) && (c <=? 70) then Some (c - 55)
  else None.

Definition num_step (st : num_state) (c : N) : option num_state :=
  match st with
  | NMinus => if c =? 48 then Some NZero
              else if isDigit c then Some NInt else None
  | NZero => if c =? 46 then Some NDot
             else if (c =? 101) || (c =? 69) then Some NExp else None
  | NInt => if isDigit c then Some NInt
            else if c =? 46 then Some NDot
            else if (c =? 101) || (c =? 69) then Some NExp else None
  | NDot => if isDigit c then Some NFrac else None
  | NFrac => if isDigit c then Some NFrac
             else if (c =? 101) || (c =? 69) then Some NExp else None
  | NExp => if (c =? 43) || (c =? 45) then Some NExpSign
            else if isDigit c then Some NExpDigits else None
  | NExpSign => if isDigit c then Some NExpDigits else None
  | NExpDigits => if isDigit c then Some NExpDigits else None
  end.

Definition num_accepting (st : num_state) : bool :=
  match st with
  | NZero | NInt | NFrac | NExpDigits => true
  | _ => false
  end.

(** A value has been read completely: attach it to the open container. *)
Definition complete (v : JValue) (stk : list frame) : option pstate :=
  match stk with
  | [] => Some ([], MDone v)
  | FArr es :: stk' => Some (FArr (v :: es) :: stk', MAfter)
  | FKey k :: FObj ms :: stk' => Some (FObj ((k, v) :: ms) :: stk', MAfter)
  | _ => None
  end.

Definition step_value (stk : list frame) (c : N) : option pstate :=
  if isJsonSpace c then Some (stk, MValue)
  else if c =? 34 then Some (stk, MString false [])
  else if c =? 123 then Some (FObj [] :: stk, MObjStart)
  else if c =? 91 then Some (FArr [] :: stk, MArrStart)
  else if c =? 45 then Some (stk, MNumber NMinus [c])
  else if c =? 48 then Some (stk, MNumber NZero [c])
  else if isDigit c then Some (stk, MNumber NInt [c])
  else if c =? 116 then Some (stk, MLiteral (u "rue") (JBool true))
  else if c =? 102 then Some (stk, MLiteral (u "alse") (JBool false))
  else if c =? 110 then Some (stk, MLiteral (u "ull") JNull)
  else None.

Definition step_after (stk : list frame) (c : N) : option pstate :=
  if isJsonSpace c then Some (stk, MAfter)
  else match stk with
       | FArr es :: stk' =>
           if c =? 44 then Some (stk, MValue)
           else if c =? 93 then complete (JArray (rev es)) stk'
           else None
       | FObj ms :: stk' =>
           if c =? 44 then Some (stk, MKey)
           else if c =? 125 then complete (JObject (rev ms)) stk'
           else None
       | _ => None
       end.

Definition close_string (is_key : bool) (s : jsstring) (stk : list frame)
  : option pstate :=
  if is_key then Some (FKey s :: stk, MColon) else complete (JString s) stk.

Definition step (st : pstate) (c : N) : option pstate :=
  let '(stk, m) := st in
  match m with
  | MValue => step_value stk c
  | MArrStart =>
      if isJsonSpace c then Some (stk, MArrStart)
      else if c =? 93 then
        match stk with
        | FArr es :: stk' => complete (JArray (rev es)) stk'
        | _ => None
        end
      else step_value stk c
  | MObjStart =>
      if isJsonSpace c then Some (stk, MObjStart)
      else if c =? 125 then
        match stk with
        | FObj ms :: stk' => complete (JObject (rev ms)) stk'
        | _ => None
        end
      else if c =? 34 then Some (stk, MString true [])
      else None
  | MKey =>
      if isJsonSpace c then Some (stk, MKey)
      else if c =? 34 then Some (stk, MString true [])
      else None
  | MColon =>
      if isJsonSpace c then Some (stk, MColon)
      else if c =? 58 then Some (stk, MValue)
      else None
  | MAfter => step_after stk c
  | MDone v => if isJsonSpace c then Some (stk, MDone v) else None
  | MString k acc =>
      if c =? 34 then close_string k (rev acc) stk
      else if c =? 92 then Some (stk, MEscape k acc)
      else if c <? 32 then None
      else Some (stk, MString k (c :: acc))
  | MEscape k acc =>
      if (c =? 34) || (c =? 92) || (c =? 47) then Some (stk, MString k (c :: acc))
      else if c =? 98 then Some (stk, MString k (8 :: acc))
      else if c =? 102 then Some (stk, MString k (12 :: acc))
      else if c =? 110 then Some (stk, MString k (10 :: acc))
      else if c =? 114 then Some (stk, MString k (13 :: acc))
      else if c =? 116 then Some (stk, MString k (9 :: acc))
      else if c =? 117 then Some (stk, MUnicode k acc [])
      else None
  | MUnicode k acc ds =>
      match hexValue c with
      | None => None
      | Some d =>
          match ds with
          | [d1; d2; d3] =>
              Some (stk, MString k ((((d1 * 16 + d2) * 16 + d3) * 16 + d) :: acc))
          | _ => Some (stk, MUnicode k acc (ds ++ [d]))
          end
      end
  | MNumber ns lex =>
      match num_step ns c with
      | Some ns' => Some (stk, MNumber ns' (c :: lex))
      | None =>
          if num_accepting ns then
            match complete (JNumber (rev lex)) stk with
            | Some (stk', MDone v) =>
                if isJsonSpace c then Some (stk', MDone v) else None
            | Some (stk', _) => step_after stk' c
            | None => None
            end
          else None
      end
  | MLiteral rest v =>
      match rest with
      | [] => None
      | e :: rest' =>
          if c =? e then
            match rest' with
            | [] => complete v stk
            | _ => Some (stk, MLiteral rest' v)
            end
          else None
      end
  end.

Definition finish (st : pstate) : option JValue :=
  match st with
  | ([], MDone v) => Some v
  | ([], MNumber ns lex) =>
      if num_accepting ns then Some (JNumber (rev lex)) else None
  | _ => None
  end.

Fixpoint run (st : pstate) (s : jsstring) : option JValue :=
  match s with
  | [] => finish st
  | c :: s' =>
      match step st c with
      | Some st' => run st' s'
      | None => None
      end
  end.

(** [JSON.parse text]: [None] stands for the [SyntaxError]. *)
Definition parse (text : jsstring) : option JValue := run ([], MValue) text.

End Json.

Definition JSON_parse (text : jsstring) : completion JValue :=
  match Json.parse text with
  | Some v => Normal v
  | None => Throw (ErrorObj SyntaxError (u "Unexpected token in JSON"))
  end.

(** Property read [v.k] for the keys the route uses ([players], [dmSummary],
    [name], [points]): none of them exists on a prototype, so only a
    JSON object can have one, as an own property; a repeated key keeps its
    last value.  Reading a property of [null] throws. *)
Fixpoint lookup_member (k : jsstring) (ms : list (jsstring * JValue))
  : option JValue :=
  match ms with
  | [] => None
  | (k', v) :: ms' =>
      match lookup_member k ms' with
      | Some v' => Some v'
      | None => if decide (k' = k) then Some v else None
      end
  end.

Definition get (v : JValue) (k : jsstring) : completion (option JValue) :=
  match v with
  | JNull => Throw (ErrorObj TypeError (u "Cannot read properties of null"))
  | JObject ms => Normal (lookup_member k ms)
  | _ => Normal None
  end.

(** ** [parseSummaries] *)

Record PlayerSummary := { name : jsstring; points : list jsstring }.

Record ParsedSummaryResult :=
  { overallSummary : jsstring; summaries : list PlayerSummary }.

#[global] Instance PlayerSummary_eq_dec : EqDecision PlayerSummary.
Proof. solve_decision. Defined.

(** A [Set] of strings keeps its elements in insertion order. *)
Definition Set_add (x : jsstring) (s : list jsstring) : list jsstring :=
  if decide (x ∈ s) then s else s ++ [x].

Definition Set_delete (x : jsstring) (s : list jsstring) : list jsstring :=
  filter (λ y, y ≠ x) s.

Definition Set_new (l : list jsstring) : list jsstring :=
  fold_left (λ s x, Set_add x s) l [].

(** [Array.prototype.filter] with a callback that may throw. *)
Fixpoint filterM {A} (f : A -> completion bool) (l : list A)
  : completion (list A) :=
  match l with
  | [] => Normal []
  | x :: l' =>
      b ← f x;
      r ← filterM f l';
      Normal (if b : bool then x :: r else r)
  end.

Definition NO_SUMMARY : jsstring := u "No summary was generated for this player.".
Definition NO_OVERALL : jsstring :=
  u "The AI response did not include an overall summary for the Dungeon Master.".
Definition NOT_PARSED : jsstring := u "The AI response could not be parsed.".

(** [typeof entry.name === "string" && Array.isArray(entry.points)] *)
Definition entry_guard (entry : JValue) : completion bool :=
  n ← get entry (u "name");
  match n with
  | Some (JString _) =>
      p ← get entry (u "points");
      Normal (match p with Some (JArray _) => true | _ => false end)
  | _ => Normal false
  end.

(** [typeof point === "string" && point.trim().length > 0] *)
Definition point_guard (point : JValue) : bool :=
  match point with
  | JString s => bool_decide (0 < length (trim s))%nat
  | _ => false
  end.

Definition point_text (point : JValue) : jsstring :=
  match point with
  | JString s => trim s
  | _ => []
  end.

(** The [map] callback; it runs on entries that passed [entry_guard], for
    which the two defaults below are not reached. *)
Definition entry_summary (entry : JValue) : PlayerSummary :=
  {| name := match get entry (u "name") with
             | Normal (Some (JString s)) => s
             | _ => []
             end;
     points := match get entry (u "points") with
               | Normal (Some (JArray ps)) =>
                   map point_text (filter (λ p, point_guard p = true) ps)
               | _ => []
               end |}.

Definition placeholder (text : jsstring) (n : jsstring) : PlayerSummary :=
  {| name := n; points := [text] |}.

(** The [try] block.  The test [!parsed.players ||
    !Array.isArray(parsed.players)] asks whether the value is an array: an
    array is never falsy. *)
Definition parseSummaries_body (raw : jsstring) (players : list jsstring)
  : completion ParsedSummaryResult :=
  parsed ← JSON_parse raw;
  parsed_players ← get parsed (u "players");
  match parsed_players with
  | Some (JArray entries) =>
      kept ← filterM entry_guard entries;
      let summaries := map entry_summary kept in
      let missingPlayers :=
        fold_left (λ s summary, Set_delete (name summary) s)
                  summaries (Set_new players) in
      let summaries :=
        if bool_decide (0 < length missingPlayers)%nat
        then summaries ++ map (placeholder NO_SUMMARY) missingPlayers
        else summaries in
      dm ← get parsed (u "dmSummary");
      let overall :=
        match dm with
        | Some (JString s) =>
            if bool_decide (0 < length (trim s))%nat then trim s else NO_OVERALL
        | _ => NO_OVERALL
        end in
      Normal {| overallSummary := overall; summaries := summaries |}
  | _ => Throw (ErrorObj PlainError (u "Invalid response shape"))
  end.

Definition parseSummaries (raw : jsstring) (players : list jsstring)
  : completion ParsedSummaryResult :=
  try_catch (parseSummaries_body raw players)
    (λ _, Normal {| overallSummary := NOT_PARSED;
                    summaries := map (placeholder NOT_PARSED) players |}).

(** ** Audio extension resolution *)

Definition isAlnum (c : N) : bool :=
  isDigit c || isLowerAscii c || isUpperAscii c.

(** The pattern [/\.([a-z0-9]+)$/i] tried at the start of [s]: a dot, then
    one or more letters or digits up to the end of the input.  The result
    is capture group 1. *)
Definition match_here (s : jsstring) : option jsstring :=
  match s with
  | c :: rest =>
      if (c =? 46) && bool_decide (rest ≠ []) && forallb isAlnum rest
      then Some rest else None
  | [] => None
  end.

(** [RegExp.prototype.exec]: the leftmost position where the pattern
    matches. *)
Fixpoint regex_exec (s : jsstring) : option jsstring :=
  match match_here s with
  | Some g => Some g
  | None =>
      match s with
      | [] => None
      | _ :: s' => regex_exec s'
      end
  end.

Definition extensionFromFilename (fileName : option jsstring) : jsstring :=
  match fileName with
  | None | Some [] => []
  | Some f =>
      match regex_exec f with
      | Some g => toLowerCase g
      | None => []
      end
  end.

Definition mime_map : list (jsstring * jsstring) :=
  [ (u "audio/mpeg", u "mp3");
    (u "audio/mp3", u "mp3");
    (u "audio/wav", u "wav");
    (u "audio/x-wav", u "wav");
    (u "audio/webm", u "webm");
    (u "audio/ogg", u "ogg");
    (u "audio/aac", u "aac");
    (u "audio/mp4", u "m4a");
    (u "audio/x-m4a", u "m4a");
    (u "audio/flac", u "flac") ].

(** The table is an object literal, so a key that is not its own is looked
    up on [Object.prototype]; two such keys are all lower case.  The value
    found there is not a string: it is kept as the text a template
    literal makes of it, which is all the route does with an extension. *)
Definition inherited_map : list (jsstring * jsstring) :=
  [ (u "constructor", u "function Object() { [native code] }");
    (u "__proto__", u "[object Object]") ].

Fixpoint assoc (k : jsstring) (l : list (jsstring * jsstring))
  : option jsstring :=
  match l with
  | [] => None
  | (k', v) :: l' => if decide (k' = k) then Some v else assoc k l'
  end.

Definition extensionFromMime (mimeType : option jsstring) : jsstring :=
  match mimeType with
  | None | Some [] => []
  | Some m =>
      match assoc (toLowerCase m) (mime_map ++ inherited_map) with
      | Some e => e
      | None => []
      end
  end.

Record FormidableFile := {
  filepath : jsstring;
  originalFilename : option jsstring;
  mimetype : option jsstring;
  size : N
}.

(** [nameExt || mimeExt] *)
Definition resolveExtension (file : FormidableFile) : jsstring :=
  let nameExt := extensionFromFilename (originalFilename file) in
  let mimeExt := extensionFromMime (mimetype file) in
  match nameExt with
  | [] => mimeExt
  | _ => nameExt
  end.

(** ** The world a request runs in *)

Module Payload.
Record SessionSummaryResponse := {
  transcript : jsstring;
  dmSummary : jsstring;
  summaries : list PlayerSummary
}.
End Payload.
Export Payload (SessionSummaryResponse).

Inductive meta_value := MetaStr (s : jsstring) | MetaNum (n : nat).

(** One line of the streamed body. *)
Inductive frame :=
| Progress (message : jsstring) (meta : list (jsstring * meta_value))
| Result (payload : SessionSummaryResponse)
| ErrorFrame (message : jsstring).

Definition is_terminal (f : frame) : bool :=
  match f with
  | Progress _ _ => false
  | _ => true
  end.

Record response := {
  statusCode : N;
  headers : list (jsstring * jsstring);
  jsonBody : option jsstring;    (* the [error] text of a [res.json] body *)
  written : list frame;          (* lines passed to [res.write], in order *)
  writableEnded : bool
}.

Inductive fs_event :=
| Renamed (src dst : jsstring)
| Copied (src dst : jsstring)
| Unlinked (path : jsstring).

Inductive net_call :=
| Transcribe (path fileName : jsstring)
| ChatCompletion (players : list jsstring) (transcript : jsstring).

Record world := {
  res : response;
  responseEnded : bool;
  fs : gmap jsstring N;          (* path to size of the files on disk *)
  fs_log : list fs_event;        (* storage operations that took effect *)
  net_log : list net_call        (* calls sent to the AI provider *)
}.

Definition fresh_response : response :=
  {| statusCode := 200; headers := []; jsonBody := None; written := [];
     writableEnded := false |}.

Definition initial_world (disk : gmap jsstring N) : world :=
  {| res := fresh_response; responseEnded := false; fs := disk;
     fs_log := []; net_log := [] |}.

Definition with_res (f : response -> response) (w : world) : world :=
  {| res := f (res w); responseEnded := responseEnded w; fs := fs w;
     fs_log := fs_log w; net_log := net_log w |}.

Definition with_fs (m : gmap jsstring N) (ev : fs_event) (w : world) : world :=
  {| res := res w; responseEnded := responseEnded w; fs := m;
     fs_log := fs_log w ++ [ev]; net_log := net_log w |}.

Definition with_net (c : net_call) (w : world) : world :=
  {| res := res w; responseEnded := responseEnded w; fs := fs w;
     fs_log := fs_log w; net_log := net_log w ++ [c] |}.

Definition with_responseEnded (b : bool) (w : world) : world :=
  {| res := res w; responseEnded := b; fs := fs w;
     fs_log := fs_log w; net_log := net_log w |}.

(** Computations of the handler: state passing with exceptions. *)
Definition M (A : Type) : Type := world -> completion A * world.

#[global] Instance M_ret : MRet M := λ _ a w, (Normal a, w).
#[global] Instance M_bind : MBind M := λ _ _ f m w,
  match m w with
  | (Normal a, w') => f a w'
  | (Throw e, w') => (Throw e, w')
  end.

Definition lift {A} (c : completion A) : M A := λ w, (c, w).

Definition modify (f : world -> world) : M unit := λ w, (Normal (), f w).

Definition try_catchM {A} (body : M A) (handler : exn -> M A) : M A := λ w,
  match body w with
  | (Normal a, w') => (Normal a, w')
  | (Throw e, w') => handler e w'
  end.

(** [try { body } finally { cleanup }] *)
Definition try_finallyM {A} (body : M A) (cleanup : M unit) : M A := λ w,
  match body w with
  | (r, w') =>
      match cleanup w' with
      | (Normal _, w'') => (r, w'')
      | (Throw e, w'') => (Throw e, w'')
      end
  end.

(** *** Storage

    The disk is a finite map from paths to file sizes.  An operation on a
    path that holds no file fails with [ENOENT].  A rename or a copy of an
    existing file can be refused by the storage (the route expects this of
    [rename], across devices); [unlink] of an existing file succeeds. *)

Definition ENOENT : exn :=
  ErrorObj SystemError (u "ENOENT: no such file or directory").
Definition EXDEV : exn :=
  ErrorObj SystemError (u "EXDEV: cross-device link not permitted").
Definition ENOSPC : exn :=
  ErrorObj SystemError (u "ENOSPC: no space left on device").

(** What the surroundings of one request answer: the credential, whether
    the storage lets a rename or a copy through, and the replies of the
    two provider calls. *)
Record environment := {
  OPENAI_KEY : option jsstring;
  rename_ok : bool;
  copy_ok : bool;
  transcription_reply : completion (option jsstring);  (* the [text] field *)
  chat_reply : completion (option jsstring)            (* the message content *)
}.

Definition stat (p : jsstring) : M N := λ w,
  match fs w !! p with
  | Some sz => (Normal sz, w)
  | None => (Throw ENOENT, w)
  end.

Definition rename (env : environment) (src dst : jsstring) : M unit := λ w,
  match fs w !! src with
  | Some sz =>
      if rename_ok env
      then (Normal (), with_fs (<[dst := sz]> (delete src (fs w))) (Renamed src dst) w)
      else (Throw EXDEV, w)
  | None => (Throw ENOENT, w)
  end.

Definition copyFile (env : environment) (src dst : jsstring) : M unit := λ w,
  match fs w !! src with
  | Some sz =>
      if copy_ok env
      then (Normal (), with_fs (<[dst := sz]> (fs w)) (Copied src dst) w)
      else (Throw ENOSPC, w)
  | None => (Throw ENOENT, w)
  end.

Definition unlink (p : jsstring) : M unit := λ w,
  match fs w !! p with
  | Some _ => (Normal (), with_fs (delete p (fs w)) (Unlinked p) w)
  | None => (Throw ENOENT, w)
  end.

Definition ensureExtensionOnPath (env : environment) (file : FormidableFile)
  : M jsstring :=
  let extension := resolveExtension file in
  match extension with
  | [] => mret (filepath file)
  | _ =>
      if endsWith (toLowerCase (filepath file)) (u "." ++ extension)
      then mret (filepath file)
      else
        let newPath := filepath file ++ u "." ++ extension in
        try_catchM
          (rename env (filepath file) newPath;; mret newPath)
          (λ _,
            copyFile env (filepath file) newPath;;
            try_catchM (unlink (filepath file)) (λ _, mret ());;
            mret newPath)
  end.

(** *** The response object *)

Definition setHeader (k v : jsstring) : M unit :=
  modify (with_res (λ r,
    {| statusCode := statusCode r; headers := headers r ++ [(k, v)];
       jsonBody := jsonBody r; written := written r;
       writableEnded := writableEnded r |})).

Definition status (code : N) : M unit :=
  modify (with_res (λ r,
    {| statusCode := code; headers := headers r; jsonBody := jsonBody r;
       written := written r; writableEnded := writableEnded r |})).

(** [res.json({ error })]: sends the body and ends the response (the
    header the framework adds for the body is not recorded). *)
Definition json (error : jsstring) : M unit :=
  modify (with_res (λ r,
    {| statusCode := statusCode r; headers := headers r;
       jsonBody := Some error; written := written r;
       writableEnded := true |})).

Definition res_write (line : frame) : M unit :=
  modify (with_res (λ r,
    {| statusCode := statusCode r; headers := headers r;
       jsonBody := jsonBody r; written := written r ++ [line];
       writableEnded := writableEnded r |})).

Definition res_end : M unit :=
  modify (with_res (λ r,
    {| statusCode := statusCode r; headers := headers r;
       jsonBody := jsonBody r; written := written r;
       writableEnded := true |})).

(** *** The emitter closures of [handler] *)

Definition writeLine (payload : frame) : M unit := λ w,
  if responseEnded w || writableEnded (res w)
  then (Normal (), w)
  else res_write payload w.

Definition endResponse : M unit := λ w,
  if negb (responseEnded w) && negb (writableEnded (res w))
  then (modify (with_responseEnded true);; res_end) w
  else (Normal (), w).

Definition sendProgress (message : jsstring)
  (meta : list (jsstring * meta_value)) : M unit :=
  writeLine (Progress message meta).

Definition sendError (message : jsstring) : M unit :=
  writeLine (ErrorFrame message);; endResponse.

Definition sendResult (payload : SessionSummaryResponse) : M unit :=
  writeLine (Result payload);; endResponse.

(** *** The request *)

Inductive field_value :=
| FieldString (s : jsstring)
| FieldArray (l : list jsstring).

Inductive file_field :=
| OneFile (f : FormidableFile)
| FileArray (l : list FormidableFile).

Record Fields := { players : option field_value }.
Record Files := { audio : option file_field; file : option file_field }.

(** A request: its method and what decoding its body gives. *)
Record request := {
  method : jsstring;
  multipart : completion (Fields * Files)
}.

Definition files_of (f : option file_field) : list FormidableFile :=
  match f with
  | None => []
  | Some (OneFile x) => [x]
  | Some (FileArray l) => l
  end.

(** Decoding the body leaves every uploaded part in a temp file. *)
Definition store_uploads (files : Files) (disk : gmap jsstring N)
  : gmap jsstring N :=
  fold_left (λ m f, <[filepath f := size f]> m)
            (files_of (audio files) ++ files_of (file files)) disk.

Definition parseMultipart (req : request) : M (Fields * Files) := λ w,
  match multipart req with
  | Normal (fields, files) =>
      (Normal (fields, files),
       {| res := res w; responseEnded := responseEnded w;
          fs := store_uploads files (fs w);
          fs_log := fs_log w; net_log := net_log w |})
  | Throw e => (Throw e, w)
  end.

Definition ensureEnv (env : environment) : completion unit :=
  match OPENAI_KEY env with
  | None | Some [] =>
      Throw (ErrorObj PlainError (u "OPENAI_KEY is not configured"))
  | Some _ => Normal ()
  end.

(** [error instanceof Error ? error.message : "Unexpected error"] *)
Definition error_message (error : exn) : jsstring :=
  match error with
  | ErrorObj _ m => m
  | NonError => u "Unexpected error"
  end.

(** One [players] entry: the parsed array if the text is a JSON array, or
    the entry itself.  The decoded entries are strings, so the [typeof
    entry !== "string"] branch of the source has no counterpart here. *)
Definition expand_entry (entry : jsstring) : list JValue :=
  match JSON_parse entry with
  | Normal (JArray parsed) => parsed
  | _ => [JString entry]
  end.

Definition playerNames_of (playersField : option field_value) : list JValue :=
  match playersField with
  | Some (FieldArray l) => flat_map expand_entry l
  | Some (FieldString s) => expand_entry s
  | None => []
  end.

(** [player.trim()] on a value that need not be a string. *)
Definition call_trim (player : JValue) : completion jsstring :=
  match player with
  | JString s => Normal (trim s)
  | JNull =>
      Throw (ErrorObj TypeError
               (u "Cannot read properties of null (reading 'trim')"))
  | _ => Throw (ErrorObj TypeError (u "player.trim is not a function"))
  end.

Fixpoint mapC {A B} (f : A -> completion B) (l : list A)
  : completion (list B) :=
  match l with
  | [] => Normal []
  | x :: l' => y ← f x; r ← mapC f l'; Normal (y :: r)
  end.

Definition cleanPlayers (playerNames : list JValue)
  : completion (list jsstring) :=
  trimmed ← mapC call_trim playerNames;
  Normal (filter (λ player, (0 < length player)%nat) trimmed).

(** [Array.isArray(audioField) ? audioField[0] : audioField] on
    [files.audio ?? files.file] *)
Definition pick_audio (files : Files) : option FormidableFile :=
  let audioField :=
    match audio files with
    | Some a => Some a
    | None => file files
    end in
  match audioField with
  | Some (FileArray l) => head l
  | Some (OneFile f) => Some f
  | None => None
  end.

Fixpoint strip_slashes (s : jsstring) : jsstring :=
  match s with
  | c :: s' => if c =? 47 then strip_slashes s' else s
  | [] => []
  end.

Fixpoint until_slash (s : jsstring) : jsstring :=
  match s with
  | c :: s' => if c =? 47 then [] else c :: until_slash s'
  | [] => []
  end.

(** [path.basename] on POSIX paths. *)
Definition basename (p : jsstring) : jsstring :=
  rev (until_slash (strip_slashes (rev p))).

Definition transcriptions_create (env : environment)
  (path fileName : jsstring) : M (option jsstring) := λ w,
  (transcription_reply env, with_net (Transcribe path fileName) w).

Definition chat_completions_create (env : environment)
  (roster : list jsstring) (transcriptText : jsstring)
  : M (option jsstring) := λ w,
  (chat_reply env, with_net (ChatCompletion roster transcriptText) w).

Definition throw {A} (message : jsstring) : M A :=
  lift (Throw (ErrorObj PlainError message)).

(** The body of the inner [try] (stat, transcription call). *)
Definition transcribe (env : environment) (audioFile : FormidableFile)
  (readablePath : jsstring) : M jsstring :=
  stats_size ← stat readablePath;
  if stats_size =? 0 then throw (u "Uploaded audio file is empty")
  else
    let uploadFileName :=
      match originalFilename audioFile with
      | Some n =>
          if bool_decide (0 < length (trim n))%nat then trim n
          else basename readablePath
      | None => basename readablePath
      end in
    sendProgress (u "Transcribing audio - this may take a while")
                 [(u "step", MetaStr (u "transcription"))];;
    transcription ← transcriptions_create env readablePath uploadFileName;
    match transcription with
    | None => throw (u "Transcription response missing text field")
    | Some text =>
        let transcriptText := trim text in
        sendProgress (u "Transcription complete")
          [(u "step", MetaStr (u "transcription"));
           (u "transcriptLength", MetaNum (length transcriptText))];;
        mret transcriptText
    end.

(** The rest of the pipeline once a transcript is there. *)
Definition summarize (env : environment) (cleanedPlayers : list jsstring)
  (transcriptText : jsstring) : M unit :=
  sendProgress (u "Generating player summaries")
               [(u "step", MetaStr (u "summaries"))];;
  content ← chat_completions_create env cleanedPlayers transcriptText;
  match content with
  | None | Some [] => sendError (u "No summary returned by model")
  | Some text =>
      parsed ← lift (parseSummaries text cleanedPlayers);
      let responsePayload :=
        {| Payload.transcript := transcriptText;
           Payload.dmSummary := overallSummary parsed;
           Payload.summaries := summaries parsed |} in
      sendProgress (u "Summaries ready")
        [(u "step", MetaStr (u "summaries"));
         (u "summaryCount", MetaNum (length (summaries parsed)))];;
      sendResult responsePayload
  end.

(** The outer [try], from the roster normalization on. *)
Definition process (env : environment) (fields : Fields) (files : Files)
  : M unit :=
  let playerNames := playerNames_of (players fields) in
  if bool_decide (length playerNames = 0%nat)
  then sendError (u "At least one player name is required")
  else
    cleanedPlayers ← lift (cleanPlayers playerNames);
    if bool_decide (length cleanedPlayers = 0%nat)
    then sendError (u "Player names cannot be empty")
    else
      match pick_audio files with
      | None => sendError (u "Audio file is required")
      | Some audioFile =>
          match filepath audioFile with
          | [] => sendError (u "Audio file is required")
          | _ =>
              sendProgress (u "Preparing audio for transcription") [];;
              readablePath ← ensureExtensionOnPath env audioFile;
              transcriptText ←
                try_finallyM
                  (transcribe env audioFile readablePath)
                  (try_catchM (unlink readablePath) (λ _, mret ()));
              match transcriptText with
              | [] => sendError (u "Transcription failed")
              | _ => summarize env cleanedPlayers transcriptText
              end
          end
      end.

(** The body of the outer [try]. *)
Definition pipeline (req : request) (env : environment) : M unit :=
  sendProgress (u "Parsing upload") [];;
  '(fields, files) ← parseMultipart req;
  process env fields files.

(** The outer [catch]: an error frame, unless the response has ended. *)
Definition report (error : exn) : M unit := λ w,
  if negb (responseEnded w) && negb (writableEnded (res w))
  then sendError (error_message error) w
  else (Normal (), w).

Definition handler (req : request) (env : environment) : M unit :=
  if bool_decide (method req ≠ u "POST") then
    setHeader (u "Allow") (u "POST");;
    status 405;;
    json (u "Method not allowed")
  else
    match ensureEnv env with
    | Throw error => status 500;; json (error_message error)
    | Normal _ =>
        setHeader (u "Content-Type") (u "application/json; charset=utf-8");;
        setHeader (u "Cache-Control") (u "no-cache, no-transform");;
        setHeader (u "Connection") (u "keep-alive");;
        status 200;;
        modify (with_responseEnded false);;
        try_catchM (pipeline req env) report
    end.

(** ** Notions used in the statements *)

(** Number of summaries that carry the name [n]. *)
Definition count_name (n : jsstring) (l : list PlayerSummary) : nat :=
  length (filter (λ s, name s = n) l).

Definition exactly_one_each (roster : list jsstring) (l : list PlayerSummary)
  : Prop :=
  ∀ n, n ∈ roster → count_name n l = 1%nat.

Definition none_outside (roster : list jsstring) (l : list PlayerSummary)
  : Prop :=
  ∀ s, s ∈ l → name s ∈ roster.

(** The reconciliation invariant of the data model. *)
Definition reconciled (roster : list jsstring) (l : list PlayerSummary) : Prop :=
  exactly_one_each roster l ∧ none_outside roster l.

(** The [players] array of a model output, when the output is JSON text for
    an object that has one. *)
Definition players_entries (raw : jsstring) : option (list JValue) :=
  match JSON_parse raw with
  | Normal (JObject ms) =>
      match lookup_member (u "players") ms with
      | Some (JArray entries) => Some entries
      | _ => None
      end
  | _ => None
  end.

(** The summaries the model output supplies: its entries that pass the
    guard, points filtered and trimmed. *)
Definition supplied (raw : jsstring) : option (list PlayerSummary) :=
  match players_entries raw with
  | Some entries =>
      match filterM entry_guard entries with
      | Normal kept => Some (map entry_summary kept)
      | Throw _ => None
      end
  | None => None
  end.

Definition reconcile (model : list PlayerSummary) (roster : list jsstring)
  : list PlayerSummary :=
  model ++ map (placeholder NO_SUMMARY)
               (filter (λ n, n ∉ map name model) (Set_new roster)).

Definition well_formed (r : ParsedSummaryResult) : Prop :=
  overallSummary r ≠ [] ∧
  ∀ s, s ∈ summaries r → ∀ p, p ∈ points s → p ≠ [].

(** The path [ensureExtensionOnPath] returns when it completes normally. *)
Definition resolved_path (file : FormidableFile) : jsstring :=
  match resolveExtension file with
  | [] => filepath file
  | (_ :: _) as extension =>
      if endsWith (toLowerCase (filepath file)) (u "." ++ extension)
      then filepath file
      else filepath file ++ u "." ++ extension
  end.

(** Calls of the emitter closures, as data. *)
Inductive emit :=
| SendProgress (message : jsstring) (meta : list (jsstring * meta_value))
| SendError (message : jsstring)
| SendResult (payload : SessionSummaryResponse).

Definition run_emit (op : emit) : M unit :=
  match op with
  | SendProgress message meta => sendProgress message meta
  | SendError message => sendError message
  | SendResult payload => sendResult payload
  end.

Fixpoint run_emits (ops : list emit) : M unit :=
  match ops with
  | [] => mret ()
  | op :: ops' => run_emit op;; run_emits ops'
  end.

Definition all_progress (l : list frame) : Prop :=
  Forall (λ f, is_terminal f = false) l.

(** Progress frames, then at most one terminal frame. *)
Definition terminal_last (l : list frame) : Prop :=
  ∃ ps, all_progress ps ∧ (l = ps ∨ ∃ t, is_terminal t = true ∧ l = ps ++ [t]).

(** Partial-correctness triples with a postcondition for the normal and
    one for the exceptional completion.  Every computation of [M] is a
    total function, so a triple speaks about the one run there is. *)
Definition triple {A} (P : world → Prop) (m : M A)
    (Q : A → world → Prop) (E : exn → world → Prop) : Prop :=
  ∀ w, P w →
       match m w with
       | (Normal a, w') => Q a w'
       | (Throw e, w') => E e w'
       end.

(** A computation that leaves the response and the close guard alone. *)
Definition silent {A} (m : M A) : Prop :=
  ∀ w, res (m w).2 = res w ∧ responseEnded (m w).2 = responseEnded w.

Definition streaming_headers : list (jsstring * jsstring) :=
  [ (u "Content-Type", u "application/json; charset=utf-8");
    (u "Cache-Control", u "no-cache, no-transform");
    (u "Connection", u "keep-alive") ].

(** The response once streaming has begun: status 200, the streaming
    headers, no JSON body. *)
Definition streaming (w : world) : Prop :=
  statusCode (res w) = 200 ∧ headers (res w) = streaming_headers ∧
  jsonBody (res w) = None.

(** The stream is open: only progress frames so far, the first of which
    is "Parsing upload". *)
Definition stream_open (w : world) : Prop :=
  streaming w ∧ responseEnded w = false ∧ writableEnded (res w) = false ∧
  ∃ ps, all_progress ps ∧
        written (res w) = Progress (u "Parsing upload") [] :: ps.

(** The stream is closed by one terminal frame; [G] holds if that frame
    is a result. *)
Definition stream_closed (G : Prop) (w : world) : Prop :=
  streaming w ∧ responseEnded w = true ∧ writableEnded (res w) = true ∧
  ∃ ps t, all_progress ps ∧ is_terminal t = true ∧
          written (res w) = Progress (u "Parsing upload") [] :: ps ++ [t] ∧
          (∀ payload, t = Result payload → G).

(** Both provider calls and the decoding of the body went through. *)
Definition all_stages_passed (req : request) (env : environment) : Prop :=
  (∃ parts, multipart req = Normal parts) ∧
  (∃ text, transcription_reply env = Normal (Some text)) ∧
  (∃ content, chat_reply env = Normal (Some content)).

(** The stream before its first frame. *)
Definition stream_start (w : world) : Prop :=
  streaming w ∧ responseEnded w = false ∧ writableEnded (res w) = false ∧
  written (res w) = [].

(** The close guard: when it is set, the emitter closures do nothing. *)
Definition guard_set (w : world) : bool :=
  responseEnded w || writableEnded (res w).

(** What the emitter keeps true from an empty body on: progress frames
    only, or progress frames and one last terminal frame behind a set
    guard. *)
Definition emitter_invariant (w : world) : Prop :=
  ∃ ps, all_progress ps ∧
        (written (res w) = ps ∨
         ∃ t, is_terminal t = true ∧ written (res w) = ps ++ [t] ∧
              guard_set w = true).

(** The world when the outer [try] is entered: status 200, the streaming
    headers, nothing written. *)
Definition streaming_world (disk : gmap jsstring N) : world :=
  {| res := {| statusCode := 200; headers := streaming_headers;
               jsonBody := None; written := []; writableEnded := false |};
     responseEnded := false; fs := disk; fs_log := []; net_log := [] |}.

(** The world after [res.write] of one line, and after [endResponse] took
    effect. *)
Definition wrote (line : frame) (w : world) : world := (res_write line w).2.

Definition closed (w : world) : world :=
  ((modify (with_responseEnded true);; res_end) w).2.

(** The world once the body is decoded: one frame written, the uploads on
    disk. *)
Definition upload_world (files : Files) (disk : gmap jsstring N) : world :=
  {| res := {| statusCode := 200; headers := streaming_headers;
               jsonBody := None;
               written := [Progress (u "Parsing upload") []];
               writableEnded := false |};
     responseEnded := false; fs := store_uploads files disk;
     fs_log := []; net_log := [] |}.

(** ** Further notions *)

(** The entry guard of [parseSummaries] on a value that is not [null],
    where it cannot throw. *)
Definition entry_ok (entry : JValue) : bool :=
  match entry with
  | JObject ms =>
      match lookup_member (u "name") ms with
      | Some (JString _) =>
          match lookup_member (u "points") ms with
          | Some (JArray _) => true
          | _ => false
          end
      | _ => false
      end
  | _ => false
  end.

(** A text that [trim] leaves as it is. *)
Definition trimmed (s : jsstring) : Prop := trim s = s.

Definition isLowerAlnum (c : N) : bool := isDigit c || isLowerAscii c.

(** The same upload, seen at another path. *)
Definition at_path (p : jsstring) (file : FormidableFile) : FormidableFile :=
  {| filepath := p; originalFilename := originalFilename file;
     mimetype := mimetype file; size := size file |}.

(** The name sent with the audio: the trimmed original filename, or the
    base name of the readable path when there is none. *)
Definition upload_name (audioFile : FormidableFile) (readablePath : jsstring)
  : jsstring :=
  match originalFilename audioFile with
  | Some n =>
      if bool_decide (0 < length (trim n))%nat then trim n
      else basename readablePath
  | None => basename readablePath
  end.

(** [process] from the transcription stage on, and from the audio stage
    on: the continuations that [process] runs once the roster and the
    audio file are accepted. *)
Definition after_resolution (env : environment) (cleanedPlayers : list jsstring)
    (audioFile : FormidableFile) (readablePath : jsstring) : M unit :=
  transcriptText ←
    try_finallyM
      (transcribe env audioFile readablePath)
      (try_catchM (unlink readablePath) (λ _, mret ()));
  match transcriptText with
  | [] => sendError (u "Transcription failed")
  | _ => summarize env cleanedPlayers transcriptText
  end.

Definition after_validation (env : environment) (cleanedPlayers : list jsstring)
    (audioFile : FormidableFile) : M unit :=
  sendProgress (u "Preparing audio for transcription") [];;
  readablePath ← ensureExtensionOnPath env audioFile;
  after_resolution env cleanedPlayers audioFile readablePath.

(** A computation that sends nothing to the provider. *)
Definition quiet {A} (m : M A) : Prop :=
  ∀ w, net_log (m w).2 = net_log w.

(** The frames of a request that reaches the end of the pipeline. *)
Definition success_frames (transcriptText : jsstring)
    (parsed : ParsedSummaryResult) : list frame :=
  [ Progress (u "Parsing upload") [];
    Progress (u "Preparing audio for transcription") [];
    Progress (u "Transcribing audio - this may take a while")
             [(u "step", MetaStr (u "transcription"))];
    Progress (u "Transcription complete")
             [(u "step", MetaStr (u "transcription"));
              (u "transcriptLength", MetaNum (length transcriptText))];
    Progress (u "Generating player summaries")
             [(u "step", MetaStr (u "summaries"))];
    Progress (u "Summaries ready")
             [(u "step", MetaStr (u "summaries"));
              (u "summaryCount", MetaNum (length (summaries parsed)))];
    Result {| Payload.transcript := transcriptText;
              Payload.dmSummary := overallSummary parsed;
              Payload.summaries := summaries parsed |} ].

(** What the stages after the resolution add to the body and send to the
    provider, read off the size of the file and the two replies. *)
Definition stage_outcome (env : environment) (cleanedPlayers : list jsstring)
    (audioFile : FormidableFile) (readablePath : jsstring) (sz : N)
  : list frame * list net_call :=
  if sz =? 0 then ([ErrorFrame (u "Uploaded audio file is empty")], [])
  else
    let call := Transcribe readablePath (upload_name audioFile readablePath) in
    let transcribing :=
      Progress (u "Transcribing audio - this may take a while")
               [(u "step", MetaStr (u "transcription"))] in
    match transcription_reply env with
    | Throw e => ([transcribing; ErrorFrame (error_message e)], [call])
    | Normal None =>
        ([transcribing;
          ErrorFrame (u "Transcription response missing text field")], [call])
    | Normal (Some text) =>
        let complete :=
          Progress (u "Transcription complete")
                   [(u "step", MetaStr (u "transcription"));
                    (u "transcriptLength", MetaNum (length (trim text)))] in
        match trim text with
        | [] =>
            ([transcribing; complete; ErrorFrame (u "Transcription failed")],
             [call])
        | _ =>
            let chat := ChatCompletion cleanedPlayers (trim text) in
            let generating :=
              Progress (u "Generating player summaries")
                       [(u "step", MetaStr (u "summaries"))] in
            match chat_reply env with
            | Throw e =>
                ([transcribing; complete; generating;
                  ErrorFrame (error_message e)], [call; chat])
            | Normal None | Normal (Some []) =>
                ([transcribing; complete; generating;
                  ErrorFrame (u "No summary returned by model")], [call; chat])
            | Normal (Some content) =>
                match parseSummaries content cleanedPlayers with
                | Throw e =>
                    ([transcribing; complete; generating;
                      ErrorFrame (error_message e)], [call; chat])
                | Normal parsed =>
                    ([transcribing; complete; generating;
                      Progress (u "Summaries ready")
                        [(u "step", MetaStr (u "summaries"));
                         (u "summaryCount",
                          MetaNum (length (summaries parsed)))];
                      Result {| Payload.transcript := trim text;
                                Payload.dmSummary := overallSummary parsed;
                                Payload.summaries := summaries parsed |}],
                     [call; chat])
                end
            end
        end
    end.

(** The calls a request may have sent: none, the transcription, or the
    transcription and then the completion, which is sent with a non-empty
    clean roster and the non-blank trimmed transcript. *)
Definition calls_in_order (env : environment) (calls : list net_call) : Prop :=
  calls = [] ∨
  (∃ p f, calls = [Transcribe p f]) ∨
  (∃ p f roster text,
     calls = [Transcribe p f; ChatCompletion roster (trim text)] ∧
     transcription_reply env = Normal (Some text) ∧
     trim text ≠ [] ∧ roster ≠ [] ∧
     ∀ n, n ∈ roster → n ≠ [] ∧ trim n = n).

(** ** The page that calls the route ([pages/index.tsx]) *)

(** *** The list of player fields *)

(** [prev.map((player, idx) => (idx === index ? value : player))] *)
Definition handlePlayerChange (index : nat) (value : jsstring)
  (prev : list jsstring) : list jsstring :=
  imap (λ idx player, if decide (idx = index) then value else player) prev.

(** The spread of [prev] and one more field, empty. *)
Definition addPlayer (prev : list jsstring) : list jsstring := prev ++ [[]].

(** [Array.prototype.filter] with a callback that reads the index. *)
Fixpoint filter_from {A} (p : A -> nat -> bool) (idx : nat) (l : list A)
  : list A :=
  match l with
  | [] => []
  | x :: l' =>
      if p x idx then x :: filter_from p (S idx) l'
      else filter_from p (S idx) l'
  end.

(** [prev.filter((_, idx) => idx !== index)] *)
Definition removePlayer (index : nat) (prev : list jsstring) : list jsstring :=
  filter_from (λ _ idx, negb (bool_decide (idx = index))) 0%nat prev.

(** [players.map((player) => player.trim()).filter(Boolean)] *)
Definition cleanedPlayers (players : list jsstring) : list jsstring :=
  filter (λ player, player ≠ []) (map trim players).

(** *** [JSON.stringify]

    The values the two sides serialise are built from strings, lengths,
    arrays and object literals.  An object is the list of its properties
    in the order of their creation. *)
#[warnings="-register-all"]
Inductive jsdata :=
| DString (s : jsstring)
| DNumber (n : nat)
| DArray (elems : list jsdata)
| DObject (members : list (jsstring * jsdata)).

(** [QuoteJSONString]: the short escapes (a backslash and one of [b], [t],
    [n], [f], [r], the quote, the backslash), [\uXXXX] for the other control
    characters and for a surrogate that is not part of a pair, every other
    code unit as it is. *)
Definition hexDigit (d : N) : N := if d <? 10 then 48 + d else 87 + d.

Definition unicodeEscape (c : N) : jsstring :=
  [92; 117; hexDigit (c / 4096); hexDigit ((c / 256) mod 16);
   hexDigit ((c / 16) mod 16); hexDigit (c mod 16)].

Definition isLeadSurrogate (c : N) : bool := (55296 <=? c) && (c <=? 56319).
Definition isTrailSurrogate (c : N) : bool := (56320 <=? c) && (c <=? 57343).

Definition quoteUnit (c : N) : jsstring :=
  if c =? 8 then [92; 98]
  else if c =? 9 then [92; 116]
  else if c =? 10 then [92; 110]
  else if c =? 12 then [92; 102]
  else if c =? 13 then [92; 114]
  else if c =? 34 then [92; 34]
  else if c =? 92 then [92; 92]
  else if c <? 32 then unicodeEscape c
  else [c].

Fixpoint quoteBody (s : jsstring) : jsstring :=
  match s with
  | [] => []
  | c :: s' =>
      if isLeadSurrogate c then
        match s' with
        | d :: s'' =>
            if isTrailSurrogate d then c :: d :: quoteBody s''
            else unicodeEscape c ++ quoteBody s'
        | [] => unicodeEscape c
        end
      else if isTrailSurrogate c then unicodeEscape c ++ quoteBody s'
      else quoteUnit c ++ quoteBody s'
  end.

Definition QuoteJSONString (s : jsstring) : jsstring :=
  [34] ++ quoteBody s ++ [34].

(** The decimal digits of a length (lengths stay far below [10^21], from
    where on a number is printed with an exponent). *)
Fixpoint digits (d : Decimal.uint) : jsstring :=
  match d with
  | Decimal.Nil => []
  | Decimal.D0 d' => 48 :: digits d'
  | Decimal.D1 d' => 49 :: digits d'
  | Decimal.D2 d' => 50 :: digits d'
  | Decimal.D3 d' => 51 :: digits d'
  | Decimal.D4 d' => 52 :: digits d'
  | Decimal.D5 d' => 53 :: digits d'
  | Decimal.D6 d' => 54 :: digits d'
  | Decimal.D7 d' => 55 :: digits d'
  | Decimal.D8 d' => 56 :: digits d'
  | Decimal.D9 d' => 57 :: digits d'
  end.

Definition decimal (n : nat) : jsstring := digits (Nat.to_uint n).

Fixpoint join (sep : jsstring) (l : list jsstring) : jsstring :=
  match l with
  | [] => []
  | [x] => x
  | x :: l' => x ++ sep ++ join sep l'
  end.

Fixpoint JSON_stringify (value : jsdata) : jsstring :=
  match value with
  | DString s => QuoteJSONString s
  | DNumber n => decimal n
  | DArray elems =>
      u "[" ++ join (u ",") (map JSON_stringify elems) ++ u "]"
  | DObject members =>
      u "{" ++ join (u ",")
                 (map (λ m, QuoteJSONString m.1 ++ u ":" ++ JSON_stringify m.2)
                      members) ++ u "}"
  end.

(** *** What the route puts on the wire *)

(** Defining a property: an existing key keeps its place and takes the
    new value.  (The keys are identifiers; none is an array index, which
    an object would list first.) *)
Definition set_prop (k : jsstring) (v : jsdata) (ms : list (jsstring * jsdata))
  : list (jsstring * jsdata) :=
  if bool_decide (k ∈ map fst ms)
  then map (λ m, if decide (m.1 = k) then (k, v) else m) ms
  else ms ++ [(k, v)].

Definition meta_data (v : meta_value) : jsdata :=
  match v with
  | MetaStr s => DString s
  | MetaNum n => DNumber n
  end.

Definition summary_data (s : PlayerSummary) : jsdata :=
  DObject [(u "name", DString (name s));
           (u "points", DArray (map DString (points s)))].

Definition payload_data (p : SessionSummaryResponse) : jsdata :=
  DObject [(u "transcript", DString (Payload.transcript p));
           (u "dmSummary", DString (Payload.dmSummary p));
           (u "summaries", DArray (map summary_data (Payload.summaries p)))].

(** The object literals of [sendProgress], [sendResult] and [sendError]. *)
Definition frame_data (f : frame) : jsdata :=
  match f with
  | Progress message meta =>
      DObject (fold_left (λ o m, set_prop m.1 (meta_data m.2) o) meta
                 [(u "type", DString (u "progress"));
                  (u "message", DString message)])
  | Result payload =>
      DObject [(u "type", DString (u "result"));
               (u "payload", payload_data payload)]
  | ErrorFrame message =>
      DObject [(u "type", DString (u "error"));
               (u "message", DString message)]
  end.

(** [res.write(`${JSON.stringify(payload)}\n`)], frame after frame. *)
Definition frame_lines (l : list frame) : jsstring :=
  concat (map (λ f, JSON_stringify (frame_data f) ++ [10]) l).

(** The text of the body: the [{ error }] object of [res.json], or one
    line for each frame passed to [res.write]. *)
Definition body_text (r : response) : jsstring :=
  match jsonBody r with
  | Some message => JSON_stringify (DObject [(u "error", DString message)])
  | None => frame_lines (written r)
  end.

(** *** The state of the page *)

(** What a variable of the page holds: a JSON value, or [undefined]. *)
Definition jsval : Type := option JValue.
Definition null : jsval := Some JNull.
Definition text (s : string) : jsval := Some (JString (u s)).

Record page := {
  isLoading : bool;
  statusMessage : jsval;
  result : jsval;
  error : jsval
}.

Definition setIsLoading (b : bool) (pg : page) : page :=
  {| isLoading := b; statusMessage := statusMessage pg;
     result := result pg; error := error pg |}.

Definition setStatusMessage (v : jsval) (pg : page) : page :=
  {| isLoading := isLoading pg; statusMessage := v;
     result := result pg; error := error pg |}.

Definition setResult (v : jsval) (pg : page) : page :=
  {| isLoading := isLoading pg; statusMessage := statusMessage pg;
     result := v; error := error pg |}.

Definition setError (v : jsval) (pg : page) : page :=
  {| isLoading := isLoading pg; statusMessage := statusMessage pg;
     result := result pg; error := v |}.

(** The page state and the local [streamResult] of [handleSubmit]. *)
Record reading := { ui : page; streamResult : jsval }.

(** The body of a response as its reader delivers it: the decoded text of
    the chunks, and the error of the read that fails, if one does. *)
Record stream := { chunks : list jsstring; failure : option exn }.

(** *** Reading the streamed body

    [handleSubmit] keeps the text received so far in [buffered] and, after
    each chunk, hands every complete line to the block that decodes one
    event.  That block is a parameter of the loops: [handle line st] gives
    the state after the block and, when the block returned from
    [processBuffer] (which it does after cancelling the reader), the value
    it left in [encounteredError]; [truthy] is the test the loop applies
    to that value. *)
Section Reader.

Context {St V : Type}.
Variable handle : jsstring → St → St * option V.
Variable truthy : V → bool.

(** The loop of [processBuffer], scanning for the next line feed:
    [line_rev] holds, reversed, the code units of [buffered] before the
    position reached.  The result is the state, what is left in
    [buffered], and the error the block returned with, if it did. *)
Fixpoint scan (st : St) (line_rev : jsstring) (buffered : jsstring)
  : St * jsstring * option V :=
  match buffered with
  | [] => (st, rev line_rev, None)
  | c :: rest =>
      if c =? 10 then
        match trim (rev line_rev) with
        | [] => scan st [] rest
        | (_ :: _) as line =>
            match handle line st with
            | (st', Some e) => (st', rest, Some e)
            | (st', None) => scan st' [] rest
            end
        end
      else scan st (c :: line_rev) rest
  end.

Definition processBuffer (st : St) (buffered : jsstring)
  : St * jsstring * option V :=
  scan st [] buffered.

(** The branch [if (done)] of the reading loop; [encounteredError] is
    the third component. *)
Definition read_done (st : St) (buffered : jsstring)
  (encounteredError : option V) : St * jsstring * option V :=
  match processBuffer st buffered with
  | (st', buffered', Some e) => (st', buffered', Some e)
  | (st', buffered', None) => (st', buffered', encounteredError)
  end.

(** The [while (true)] loop around [reader.read()].  A reader that has
    been cancelled reports [done] at the next read.  A read that fails
    throws, with the state as it is. *)
Fixpoint read_loop (chunks : list jsstring) (failure : option exn)
  (st : St) (buffered : jsstring) : completion (jsstring * option V) * St :=
  match chunks with
  | [] =>
      match failure with
      | Some e => (Throw e, st)
      | None =>
          let '(st', buffered', encounteredError) := read_done st buffered None in
          (Normal (buffered', encounteredError), st')
      end
  | value :: chunks' =>
      match processBuffer st (buffered ++ value) with
      | (st', buffered', Some e) =>
          if truthy e then (Normal (buffered', Some e), st')
          else
            let '(st'', buffered'', encounteredError) :=
              read_done st' buffered' (Some e) in
            (Normal (buffered'', encounteredError), st'')
      | (st', buffered', None) => read_loop chunks' failure st' buffered'
      end
  end.

End Reader.

(** *** Decoding one event *)

Section Page.

(** Whether the number a lexeme denotes is other than zero (numbers are
    kept as lexemes and not evaluated). *)
Variable nonzero : jsstring → bool.

(** JavaScript truthiness. *)
Definition truthy (v : JValue) : bool :=
  match v with
  | JNull => false
  | JBool b => b
  | JNumber lexeme => nonzero lexeme
  | JString s => bool_decide (s ≠ [])
  | JArray _ | JObject _ => true
  end.

Definition truthy_val (v : jsval) : bool :=
  match v with
  | None => false
  | Some v => truthy v
  end.

(** [v === "..."] *)
Definition is_text (v : jsval) (s : string) : bool :=
  match v with
  | Some (JString t) => bool_decide (t = u s)
  | _ => false
  end.

(** [v ?? "..."] *)
Definition or_text (v : jsval) (s : string) : JValue :=
  match v with
  | None | Some JNull => JString (u s)
  | Some v => v
  end.

(** The [try] block of [processBuffer]: a line that is no JSON, or is
    [null], lands in the [catch], which logs it. *)
Definition handle_event (line : jsstring) (st : reading)
  : reading * option JValue :=
  match event ← JSON_parse line;
        type ← get event (u "type");
        message ← get event (u "message");
        payload ← get event (u "payload");
        Normal (type, message, payload) with
  | Throw _ => (st, None)
  | Normal (type, message, payload) =>
      if is_text type "progress" && truthy_val message then
        ({| ui := setStatusMessage message (ui st);
            streamResult := streamResult st |}, None)
      else if is_text type "result" then
        ({| ui := setStatusMessage null (setResult payload (ui st));
            streamResult := payload |}, None)
      else if is_text type "error" then
        let encounteredError := or_text message "Failed to process session." in
        ({| ui := setStatusMessage null
                    (setError (Some encounteredError) (ui st));
            streamResult := streamResult st |}, Some encounteredError)
      else (st, None)
  end.

(** The block [if (!streamResult)] behind the loop: what is left in the
    buffer is tried as one JSON value. *)
Definition leftover_fallback (buffered : jsstring) (st : reading)
  (encounteredError : option JValue) : reading * option JValue :=
  if truthy_val (streamResult st) then (st, encounteredError)
  else
    let leftover := trim buffered in
    if bool_decide (0 < length leftover)%nat then
      match JSON_parse leftover with
      | Normal (JObject ms as fallback) =>
          match lookup_member (u "error") ms with
          | Some (JString e) =>
              ({| ui := setStatusMessage null
                          (setError (Some (JString e)) (ui st));
                  streamResult := streamResult st |}, Some (JString e))
          | _ =>
              match lookup_member (u "transcript") ms,
                    lookup_member (u "summaries") ms with
              | Some _, Some (JArray _) =>
                  ({| ui := setStatusMessage null
                              (setResult (Some fallback) (ui st));
                      streamResult := Some fallback |}, encounteredError)
              | _, _ => (st, encounteredError)
              end
          end
      | _ => (st, encounteredError)
      end
    else (st, encounteredError).

(** [handleSubmit] from [new TextDecoder()] to the end of the [try]: the
    page, and the error thrown if one is. *)
Definition read_response (body : stream) (pg : page) : page * option exn :=
  match read_loop handle_event truthy (chunks body) (failure body)
          {| ui := pg; streamResult := null |} [] with
  | (Throw e, st) => (ui st, Some e)
  | (Normal (buffered, encounteredError), st) =>
      let '(st', encounteredError') :=
        leftover_fallback buffered st encounteredError in
      if truthy_val encounteredError' then (ui st', None)
      else if negb (truthy_val (streamResult st')) then
        (ui st',
         Some (ErrorObj PlainError (u "The server did not return a summary.")))
      else (ui st', None)
  end.

(** [handleSubmit].  [fetch] stands for the request and the reply it
    gets: given the file and the [players] field of the form, the body of
    the response, or the error [fetch] rejects with.  A response with the
    statuses of the route has a body, so the branches on
    [!response.body] and [!reader] are not taken. *)
Definition handleSubmit {A} (fetch : A → jsstring → completion stream)
  (audioFile : option A) (players : list jsstring) (pg : page) : page :=
  match audioFile with
  | None => setError (text "Please upload an audio file for the session.") pg
  | Some file =>
      let cleaned := cleanedPlayers players in
      if bool_decide (length cleaned = 0%nat)
      then setError (text "Please provide at least one player name.") pg
      else
        let pg1 :=
          setStatusMessage (text "Uploading audio...")
            (setResult null (setError null (setIsLoading true pg))) in
        let '(pg2, thrown) :=
          match fetch file (JSON_stringify (DArray (map DString cleaned))) with
          | Throw e => (pg1, Some e)
          | Normal body => read_response body pg1
          end in
        let pg3 :=
          match thrown with
          | Some (ErrorObj _ message) => setError (Some (JString message)) pg2
          | Some NonError => setError (text "Failed to process session.") pg2
          | None => pg2
          end in
        setStatusMessage null (setIsLoading false pg3)
  end.

End Page.

(** ** Notions for the statements on the page *)

(** The JSON value a serialised value is read back as. *)
Fixpoint to_json (value : jsdata) : JValue :=
  match value with
  | DString s => JString s
  | DNumber n => JNumber (decimal n)
  | DArray elems => JArray (map to_json elems)
  | DObject members => JObject (map (λ m, (m.1, to_json m.2)) members)
  end.

(** A progress frame whose extra properties leave [type] and [message]
    alone. *)
Definition plain_meta (meta : list (jsstring * meta_value)) : Prop :=
  Forall (λ m, m.1 ≠ u "type" ∧ m.1 ≠ u "message") meta.

Definition frame_plain (f : frame) : Prop :=
  match f with
  | Progress _ meta => plain_meta meta
  | _ => True
  end.

Definition plain_frames (w : world) : Prop :=
  Forall frame_plain (written (res w)).

(** A computation that writes plain frames only. *)
Definition keeps_plain {A} (m : M A) : Prop :=
  triple plain_frames m (λ _, plain_frames) (λ _, plain_frames).

Definition json_members (ms : list (jsstring * jsdata))
  : list (jsstring * JValue) :=
  map (λ m, (m.1, to_json m.2)) ms.

(** Induction on serialised values, through the arrays and objects. *)
Section JsdataInduction.

Variable P : jsdata → Prop.
Hypothesis HString : ∀ s, P (DString s).
Hypothesis HNumber : ∀ n, P (DNumber n).
Hypothesis HArray : ∀ elems, Forall P elems → P (DArray elems).
Hypothesis HObject :
  ∀ members, Forall (λ m, P m.2) members → P (DObject members).

Fixpoint jsdata_induction (value : jsdata) : P value :=
  match value with
  | DString s => HString s
  | DNumber n => HNumber n
  | DArray elems =>
      HArray elems
        ((fix all (l : list jsdata) : Forall P l :=
            match l with
            | [] => Forall_nil_2 P
            | x :: l' => Forall_cons_2 P x l' (jsdata_induction x) (all l')
            end) elems)
  | DObject members =>
      HObject members
        ((fix all (l : list (jsstring * jsdata)) : Forall (λ m, P m.2) l :=
            match l with
            | [] => Forall_nil_2 _
            | m :: l' =>
                Forall_cons_2 (λ m, P m.2) m l' (jsdata_induction m.2) (all l')
            end) members)
  end.

End JsdataInduction.

(** The parser going on once a value is complete. *)
Definition resume (v : JValue) (stk : list Json.frame) (rest : jsstring)
  : option JValue :=
  match Json.complete v stk with
  | Some st => Json.run st rest
  | None => None
  end.

(** What may follow a value: the end of the text, a comma, or the
    closing of the container. *)
Definition delimited (rest : jsstring) : Prop :=
  match rest with
  | [] => True
  | c :: _ => c = 44 ∨ c = 93 ∨ c = 125
  end.

(** A serialised value opens with a quote, a bracket, a brace or a
    digit. *)
Definition opens_value (c : N) : Prop :=
  c = 34 ∨ c = 91 ∨ c = 123 ∨ isDigit c = true.

Definition reads_back (value : jsdata) : Prop :=
  ∀ stk rest, delimited rest →
    Json.run (stk, Json.MValue) (JSON_stringify value ++ rest)
    = resume (to_json value) stk rest.

Definition member_text (m : jsstring * jsdata) : jsstring :=
  QuoteJSONString m.1 ++ u ":" ++ JSON_stringify m.2.

(** What a progress event does to the page. *)
Definition on_progress (message : jsstring) (st : reading) : reading :=
  if bool_decide (message ≠ []) then
    {| ui := setStatusMessage (Some (JString message)) (ui st);
       streamResult := streamResult st |}
  else st.

Definition no_summary : exn :=
  ErrorObj PlainError (u "The server did not return a summary.").

(** ** The prompt

    [buildPrompt] is a template literal; its text is given line by
    line. *)
Definition nl : jsstring := [10].

(** A literal in which the backquote stands for the double quote. *)
Definition ub (s : string) : jsstring :=
  map (fun c => if c =? 96 then 34 else c) (u s).

Definition buildPrompt (players : list jsstring) (transcript : jsstring)
  : jsstring :=
  u "You are preparing individualized player summaries for a tabletop RPG session." ++ nl ++
  u "Players: " ++ join (u ", ") players ++ u "." ++ nl ++
  u "Transcript of the session:" ++ nl ++
  ub "```" ++ nl ++
  transcript ++ nl ++
  ub "```" ++ nl ++
  nl ++
  u "Return a strict JSON object with the following shape (do not include any extra commentary or markdown):" ++ nl ++
  u "{" ++ nl ++
  ub "  `dmSummary`: `Short overall recap tailored to the Dungeon Master`," ++ nl ++
  ub "  `players`: [" ++ nl ++
  ub "    { `name`: `Player name`, `points`: [`bullet point`, `bullet point`] }" ++ nl ++
  u "  ]" ++ nl ++
  u "}" ++ nl ++
  nl ++
  u "Rules:" ++ nl ++
  ub "- The `dmSummary` must be between 3 and 6 sentences that cover table-wide developments, unresolved hooks, and suggested follow-ups for the next session." ++ nl ++
  u "- Include an entry for every player that was provided, even if they were not mentioned." ++ nl ++
  u "- Do not include players who were not listed in the provided player names." ++ nl ++
  u "- Each player's bullet points should cover notable events." ++ nl ++
  u "- When an event in the transcript directly mentions a given player, give that event extra detail in that player's bullets." ++ nl ++
  u "- Use between 3 and 10 concise bullets per player." ++ nl ++
  u "- If the transcript does not mention the player at all, provide at least one bullet describing their lack of involvement or presumed presence." ++ nl ++
  u "- Do not fabricate events that are not supported by the transcript.".

(** What the provider receives.  The handler calls
    [buildPrompt(cleanedPlayers, transcriptText)] and sends the text as
    the content of the user message; the log of calls holds the roster
    and the transcript, and [request_of] gives the request a logged call
    stands for, with the [buildPrompt] of the revision that made it. *)
Inductive provider_request :=
| TranscriptionRequest (path fileName : jsstring)
| CompletionRequest (prompt : jsstring).

Definition request_of (buildPrompt : list jsstring → jsstring → jsstring)
  (call : net_call) : provider_request :=
  match call with
  | Transcribe path fileName => TranscriptionRequest path fileName
  | ChatCompletion players transcript =>
      CompletionRequest (buildPrompt players transcript)
  end.

Definition requests (w : world) : list provider_request :=
  map (request_of buildPrompt) (net_log w).

(** ** The revision that answers with one JSON body

    [pages/api/session-summary.ts] before the streaming: the same
    helpers and the same stages, no frames.  Every path ends with
    [return res.status(code).json(body)]; that reply is the value of the
    handler here.  [parseSummaries] returns the summaries alone. *)
Module NonStreaming.

Record SessionSummaryResponse := {
  transcript : jsstring;
  summaries : list PlayerSummary
}.

Inductive body :=
| ErrorBody (error : jsstring)
| PayloadBody (payload : SessionSummaryResponse).

Record reply := {
  statusCode : N;
  headers : list (jsstring * jsstring);
  json : body
}.

Definition parseSummaries_body (raw : jsstring) (players : list jsstring)
  : completion (list PlayerSummary) :=
  parsed ← JSON_parse raw;
  parsed_players ← get parsed (u "players");
  match parsed_players with
  | Some (JArray entries) =>
      kept ← filterM entry_guard entries;
      let summaries := map entry_summary kept in
      let missingPlayers :=
        fold_left (λ s summary, Set_delete (name summary) s)
                  summaries (Set_new players) in
      Normal (if bool_decide (0 < length missingPlayers)%nat
              then summaries ++ map (placeholder NO_SUMMARY) missingPlayers
              else summaries)
  | _ => Throw (ErrorObj PlainError (u "Invalid response shape"))
  end.

Definition parseSummaries (raw : jsstring) (players : list jsstring)
  : completion (list PlayerSummary) :=
  try_catch (parseSummaries_body raw players)
    (λ _, Normal (map (placeholder NOT_PARSED) players)).

Definition buildPrompt (players : list jsstring) (transcript : jsstring)
  : jsstring :=
  u "You are preparing individualized player summaries for a tabletop RPG session." ++ nl ++
  u "Players: " ++ join (u ", ") players ++ u "." ++ nl ++
  u "Transcript of the session:" ++ nl ++
  ub "```" ++ nl ++
  transcript ++ nl ++
  ub "```" ++ nl ++
  nl ++
  u "Return a strict JSON object with the following shape (do not include any extra commentary or markdown):" ++ nl ++
  u "{" ++ nl ++
  ub "  `players`: [" ++ nl ++
  ub "    { `name`: `Player name`, `points`: [`bullet point`, `bullet point`] }" ++ nl ++
  u "  ]" ++ nl ++
  u "}" ++ nl ++
  nl ++
  u "Rules:" ++ nl ++
  u "- Include an entry for every player that was provided, even if they were not mentioned." ++ nl ++
  u "- Each player's bullet points should cover notable events." ++ nl ++
  u "- When an event in the transcript directly mentions a given player, give that event extra detail in that player's bullets." ++ nl ++
  u "- Use between 2 and 5 concise bullets per player." ++ nl ++
  u "- If the transcript does not mention the player at all, provide at least one bullet describing their lack of involvement or presumed presence." ++ nl ++
  u "- Do not fabricate events that are not supported by the transcript.".

(** [res.status(code).json({ error })] *)
Definition fail (code : N) (error : string) : M reply :=
  mret {| statusCode := code; headers := []; json := ErrorBody (u error) |}.

(** The body of the inner [try] (stat, transcription call). *)
Definition transcribe (env : environment) (audioFile : FormidableFile)
  (readablePath : jsstring) : M jsstring :=
  stats_size ← stat readablePath;
  if stats_size =? 0 then throw (u "Uploaded audio file is empty")
  else
    let uploadFileName :=
      match originalFilename audioFile with
      | Some n =>
          if bool_decide (0 < length (trim n))%nat then trim n
          else basename readablePath
      | None => basename readablePath
      end in
    transcription ← transcriptions_create env readablePath uploadFileName;
    match transcription with
    | None => throw (u "Transcription response missing text field")
    | Some text => mret (trim text)
    end.

(** The [try], from the roster normalization on. *)
Definition process (env : environment) (fields : Fields) (files : Files)
  : M reply :=
  let playerNames := playerNames_of (players fields) in
  if bool_decide (length playerNames = 0%nat)
  then fail 400 "At least one player name is required"
  else
    cleanedPlayers ← lift (cleanPlayers playerNames);
    if bool_decide (length cleanedPlayers = 0%nat)
    then fail 400 "Player names cannot be empty"
    else
      match pick_audio files with
      | None => fail 400 "Audio file is required"
      | Some audioFile =>
          match filepath audioFile with
          | [] => fail 400 "Audio file is required"
          | _ =>
              readablePath ← ensureExtensionOnPath env audioFile;
              transcriptText ←
                try_finallyM
                  (transcribe env audioFile readablePath)
                  (try_catchM (unlink readablePath) (λ _, mret ()));
              match transcriptText with
              | [] => fail 500 "Transcription failed"
              | _ =>
                  content ← chat_completions_create env cleanedPlayers
                              transcriptText;
                  match content with
                  | None | Some [] => fail 500 "No summary returned by model"
                  | Some text =>
                      summaries ← lift (parseSummaries text cleanedPlayers);
                      mret {| statusCode := 200; headers := [];
                              json := PayloadBody
                                        {| transcript := transcriptText;
                                           summaries := summaries |} |}
                  end
              end
          end
      end.

Definition handler (req : request) (env : environment) : M reply :=
  if bool_decide (method req ≠ u "POST") then
    mret {| statusCode := 405; headers := [(u "Allow", u "POST")];
            json := ErrorBody (u "Method not allowed") |}
  else
    try_catchM
      (lift (ensureEnv env);;
       '(fields, files) ← parseMultipart req;
       process env fields files)
      (λ error,
         mret {| statusCode := 500; headers := [];
                 json := ErrorBody (error_message error) |}).

(** What the provider receives from this revision. *)
Definition requests (w : world) : list provider_request :=
  map (request_of buildPrompt) (net_log w).

End NonStreaming.

(** ** Notions for the two revisions side by side *)

(** The same files on disk, the same storage operations and provider
    calls so far. *)
Definition same_storage (w w0 : world) : Prop :=
  fs w = fs w0 ∧ fs_log w = fs_log w0 ∧ net_log w = net_log w0.

(** A computation whose result and whose effect on the storage and on
    the provider depend on these alone. *)
Definition determined {A} (m : M A) : Prop :=
  ∀ w w0, same_storage w w0 →
          (m w).1 = (m w0).1 ∧ same_storage (m w).2 (m w0).2.

(** Two computations run side by side. *)
Definition rel {A A0} (P : world → world → Prop) (m : M A) (m0 : M A0)
    (Q : A → world → A0 → world → Prop)
    (E : exn → world → exn → world → Prop) : Prop :=
  ∀ w w0, P w w0 →
          match m w, m0 w0 with
          | (Normal a, w'), (Normal a0, w0') => Q a w' a0 w0'
          | (Throw e, w'), (Throw e0, w0') => E e w' e0 w0'
          | _, _ => False
          end.

(** The stream is open beside the earlier revision at the same point. *)
Definition beside (w w0 : world) : Prop :=
  same_storage w w0 ∧ jsonBody (res w) = None ∧ guard_set w = false.

(** The terminal frame says what the reply says. *)
Definition answers (t : frame) (r : NonStreaming.reply) : Prop :=
  match t with
  | Progress _ _ => False
  | ErrorFrame message =>
      NonStreaming.json r = NonStreaming.ErrorBody message ∧
      NonStreaming.headers r = [] ∧
      (NonStreaming.statusCode r = 400 ∨ NonStreaming.statusCode r = 500)
  | Result payload =>
      NonStreaming.statusCode r = 200 ∧ NonStreaming.headers r = [] ∧
      NonStreaming.json r
      = NonStreaming.PayloadBody
          {| NonStreaming.transcript := Payload.transcript payload;
             NonStreaming.summaries := Payload.summaries payload |}
  end.

(** Two requests made at the same point by the two revisions: the same
    transcription request, or completion requests for the same roster
    and transcript, whose prompts are not the same text. *)
Definition corresponding (q q0 : provider_request) : Prop :=
  match q, q0 with
  | TranscriptionRequest path fileName, TranscriptionRequest path0 fileName0 =>
      path = path0 ∧ fileName = fileName0
  | CompletionRequest prompt, CompletionRequest prompt0 =>
      prompt ≠ prompt0 ∧
      ∃ players transcript,
        prompt = buildPrompt players transcript ∧
        prompt0 = NonStreaming.buildPrompt players transcript
  | _, _ => False
  end.

Definition answered (w : world) (r : NonStreaming.reply) (w0 : world) : Prop :=
  same_storage w w0 ∧ jsonBody (res w) = None ∧
  ∃ t, last (written (res w)) = Some t ∧ answers t r.

(** The three replies to a form that is rejected. *)
Definition validation_error (r : NonStreaming.reply) : Prop :=
  NonStreaming.json r
  = NonStreaming.ErrorBody (u "At least one player name is required") ∨
  NonStreaming.json r = NonStreaming.ErrorBody (u "Player names cannot be empty") ∨
  NonStreaming.json r = NonStreaming.ErrorBody (u "Audio file is required").

(** A reply from behind the validation: an error under status 500, or
    the payload under status 200 when both provider calls went through. *)
Definition late_reply (env : environment) (r : NonStreaming.reply) : Prop :=
  NonStreaming.headers r = [] ∧
  ((NonStreaming.statusCode r = 500 ∧
    ∃ message, NonStreaming.json r = NonStreaming.ErrorBody message) ∨
   (NonStreaming.statusCode r = 200 ∧
    (∃ payload, NonStreaming.json r = NonStreaming.PayloadBody payload) ∧
    (∃ text, transcription_reply env = Normal (Some text)) ∧
    (∃ content, chat_reply env = Normal (Some content)))).

(** Nothing done yet to the files the decoding left. *)
Definition untouched (files : Files) (disk : gmap jsstring N) (w : world)
  : Prop :=
  fs w = store_uploads files disk ∧ fs_log w = [] ∧ net_log w = [].

(** The body of a reply of the earlier revision, as [res.json] sends
    it. *)
Definition reply_data (b : NonStreaming.body) : jsdata :=
  match b with
  | NonStreaming.ErrorBody error => DObject [(u "error", DString error)]
  | NonStreaming.PayloadBody payload =>
      DObject [(u "transcript", DString (NonStreaming.transcript payload));
               (u "summaries",
                DArray (map summary_data (NonStreaming.summaries payload)))]
  end.

Definition reply_text (r : NonStreaming.reply) : jsstring :=
  JSON_stringify (reply_data (NonStreaming.json r)).

(** Both sides threw the same error, the stream still open. *)
Definition same_exn (e : exn) (w : world) (e0 : exn) (w0 : world) : Prop :=
  e = e0 ∧ beside w w0.

(** The earlier revision replied, the later one wrote its terminal frame. *)
Definition replied (_ : unit) (w : world) (r : NonStreaming.reply) (w0 : world)
  : Prop := answered w r w0.

(** * Properties *)

(** ** Sets in insertion order *)

Section SetFacts.

Lemma Set_new_acc_elem (l acc : list jsstring) (x : jsstring) :
  x ∈ fold_left (λ s y, Set_add y s) l acc ↔ x ∈ acc ∨ x ∈ l.
Proof.
  revert acc. induction l as [|y l IH]; intros acc; simpl.
  - rewrite elem_of_nil. tauto.
  - rewrite IH, elem_of_cons. unfold Set_add.
    destruct (decide (y ∈ acc)) as [Hin|Hout].
    + split; [tauto|]. intros [?|[->|?]]; tauto.
    + rewrite elem_of_app, list_elem_of_singleton. tauto.
Qed.

Lemma Set_new_acc_NoDup (l acc : list jsstring) :
  NoDup acc → NoDup (fold_left (λ s y, Set_add y s) l acc).
Proof.
  revert acc. induction l as [|y l IH]; intros acc Hacc; simpl; [done|].
  apply IH. unfold Set_add. destruct (decide (y ∈ acc)); [done|].
  apply NoDup_app. split_and!; [done| |apply NoDup_singleton].
  intros x Hx ->%list_elem_of_singleton. done.
Qed.

Lemma elem_of_Set_new (l : list jsstring) (x : jsstring) :
  x ∈ Set_new l ↔ x ∈ l.
Proof.
  unfold Set_new. rewrite Set_new_acc_elem, elem_of_nil. tauto.
Qed.

Lemma NoDup_Set_new (l : list jsstring) : NoDup (Set_new l).
Proof. apply Set_new_acc_NoDup, NoDup_nil_2. Qed.

(** Deleting the names of the summaries one by one leaves the roster
    names that none of them carries. *)
Lemma delete_all_filter (model : list PlayerSummary) (s : list jsstring) :
  fold_left (λ s summary, Set_delete (name summary) s) model s
  = filter (λ n, n ∉ map name model) s.
Proof.
  revert s. induction model as [|m model IH]; intros s; simpl.
  - induction s as [|x s IHs]; [done|].
    rewrite filter_cons_True by apply not_elem_of_nil. by f_equal.
  - rewrite IH. unfold Set_delete. rewrite list_filter_filter.
    apply list_filter_iff. intros x. rewrite not_elem_of_cons. tauto.
Qed.

End SetFacts.

(** ** Counting summaries by name *)

Section Counting.

Lemma count_name_app (n : jsstring) (l1 l2 : list PlayerSummary) :
  count_name n (l1 ++ l2) = (count_name n l1 + count_name n l2)%nat.
Proof. unfold count_name. by rewrite filter_app, length_app. Qed.

Lemma count_name_placeholders (text n : jsstring) (l : list jsstring) :
  count_name n (map (placeholder text) l) = length (filter (λ m, m = n) l).
Proof.
  unfold count_name. induction l as [|m l IH]; [done|]. simpl.
  destruct (decide (m = n)) as [->|Hne].
  - rewrite !filter_cons_True by done. simpl. by rewrite IH.
  - rewrite !filter_cons_False by done. done.
Qed.

Lemma count_absent (n : jsstring) (l : list jsstring) :
  n ∉ l → length (filter (λ m, m = n) l) = 0%nat.
Proof.
  intros Hn. induction l as [|m l IH]; [done|].
  apply not_elem_of_cons in Hn as [Hne Hn].
  rewrite filter_cons_False by congruence. auto.
Qed.

Lemma count_NoDup (n : jsstring) (l : list jsstring) :
  NoDup l → n ∈ l → length (filter (λ m, m = n) l) = 1%nat.
Proof.
  induction 1 as [|m l Hm Hl IH]; intros Hn; [by apply elem_of_nil in Hn|].
  destruct (decide (m = n)) as [->|Hne].
  - rewrite filter_cons_True by done. simpl. by rewrite count_absent.
  - rewrite filter_cons_False by done. apply IH.
    apply elem_of_cons in Hn as [?|?]; [congruence|done].
Qed.

Lemma count_name_zero (n : jsstring) (l : list PlayerSummary) :
  n ∉ map name l → count_name n l = 0%nat.
Proof.
  unfold count_name. induction l as [|s l IH]; [done|]. simpl.
  intros [Hne Hn]%not_elem_of_cons.
  rewrite filter_cons_False by congruence. auto.
Qed.

Lemma count_name_pos (n : jsstring) (l : list PlayerSummary) :
  n ∈ map name l → (1 ≤ count_name n l)%nat.
Proof.
  unfold count_name. induction l as [|s l IH]; simpl.
  - intros []%elem_of_nil.
  - intros Hn. destruct (decide (name s = n)) as [Heq|Hne].
    + rewrite filter_cons_True by done. simpl. lia.
    + rewrite filter_cons_False by done. apply IH.
      apply elem_of_cons in Hn as [?|?]; [congruence|done].
Qed.

Lemma count_name_elem (n : jsstring) (l : list PlayerSummary) :
  (1 ≤ count_name n l)%nat → ∃ s, s ∈ l ∧ name s = n.
Proof.
  unfold count_name. intros Hc.
  destruct (filter (λ s, name s = n) l) as [|s f] eqn:Hf; [simpl in Hc; lia|].
  assert (s ∈ filter (λ s, name s = n) l) as Hs by (rewrite Hf; left).
  apply list_elem_of_filter in Hs as [? ?]. eauto.
Qed.

End Counting.

(** ** [parseSummaries]: the two paths *)

Section ParseSummaries.

Lemma body_players_entries (raw : jsstring) (roster : list jsstring) :
  players_entries raw = None →
  ∃ e, parseSummaries_body raw roster = Throw e.
Proof.
  unfold players_entries, parseSummaries_body.
  destruct (JSON_parse raw) as [parsed|e]; simpl; [|eauto].
  destruct parsed as [| | | | |ms]; simpl; eauto.
  destruct (lookup_member (u "players") ms) as [[| | | | |]|]; simpl;
    eauto; discriminate.
Qed.

Lemma body_guard_throws (raw : jsstring) (roster : list jsstring) entries e :
  players_entries raw = Some entries →
  filterM entry_guard entries = Throw e →
  parseSummaries_body raw roster = Throw e.
Proof.
  unfold players_entries, parseSummaries_body.
  destruct (JSON_parse raw) as [parsed|e']; simpl; [|discriminate].
  destruct parsed as [| | | | |ms]; simpl; try discriminate.
  destruct (lookup_member (u "players") ms) as [[| | | | |]|]; simpl;
    try discriminate.
  intros [= ->] ->. done.
Qed.

Lemma body_reconciles (raw : jsstring) (roster : list jsstring) entries kept :
  players_entries raw = Some entries →
  filterM entry_guard entries = Normal kept →
  ∃ r, parseSummaries_body raw roster = Normal r ∧
       summaries r = reconcile (map entry_summary kept) roster ∧
       overallSummary r ≠ [].
Proof.
  unfold players_entries, parseSummaries_body.
  destruct (JSON_parse raw) as [parsed|e']; simpl; [|discriminate].
  destruct parsed as [| | | | |ms]; simpl; try discriminate.
  destruct (lookup_member (u "players") ms) as [[| | | | |]|]; simpl;
    try discriminate.
  intros [= ->] ->. simpl. eexists. split; [reflexivity|]. simpl. split.
  - rewrite delete_all_filter. unfold reconcile.
    case_bool_decide as Hlen; [done|].
    destruct (filter _ (Set_new roster)); [by rewrite app_nil_r|].
    simpl in Hlen. lia.
  - destruct (lookup_member (u "dmSummary") ms) as [[| | |s| |]|];
      try (by vm_compute).
    case_bool_decide as Hlen; [|by vm_compute].
    intros Heq. rewrite Heq in Hlen. simpl in Hlen. lia.
Qed.

(** The result of [parseSummaries], by the path taken. *)
Lemma parseSummaries_paths (raw : jsstring) (roster : list jsstring) :
  ∃ r, parseSummaries raw roster = Normal r ∧
       overallSummary r ≠ [] ∧
       match supplied raw with
       | Some model => summaries r = reconcile model roster
       | None =>
           r = {| overallSummary := NOT_PARSED;
                  summaries := map (placeholder NOT_PARSED) roster |}
       end.
Proof.
  unfold parseSummaries, supplied.
  destruct (players_entries raw) as [entries|] eqn:Hentries.
  - destruct (filterM entry_guard entries) as [kept|e] eqn:Hkept.
    + destruct (body_reconciles raw roster entries kept) as (r & -> & ? & ?);
        [done..|]. simpl. eauto.
    + rewrite (body_guard_throws raw roster entries e) by done. simpl.
      eexists. split_and!; [done|by vm_compute|done].
  - destruct (body_players_entries raw roster) as [e ->]; [done|]. simpl.
    eexists. split_and!; [done|by vm_compute|done].
Qed.

Lemma guard_kept_points (entries kept : list JValue) :
  filterM entry_guard entries = Normal kept →
  ∀ s, s ∈ map entry_summary kept → ∀ p, p ∈ points s → p ≠ [].
Proof.
  intros _ s (entry & -> & _)%list_elem_of_fmap p. unfold entry_summary. simpl.
  destruct (get entry (u "points")) as [[[| | | |ps|]|]|]; simpl;
    try (by intros []%elem_of_nil).
  intros (point & -> & Hpoint)%list_elem_of_fmap.
  apply list_elem_of_filter in Hpoint as [Hguard _].
  destruct point; simpl in *; try discriminate.
  apply bool_decide_eq_true in Hguard. intros Heq. rewrite Heq in Hguard.
  simpl in Hguard. lia.
Qed.

End ParseSummaries.

(** ** Claims about [parseSummaries] *)

(** C3. [parseSummaries] is total: for every raw model output and every
    roster it completes normally (no exception leaves it) with a pair whose
    overall summary is a non-empty string and whose summaries hold only
    non-empty points. *)
Theorem parseSummaries_total (raw : jsstring) (roster : list jsstring) :
  ∃ r, parseSummaries raw roster = Normal r ∧ well_formed r.
Proof.
  destruct (parseSummaries_paths raw roster) as (r & Hr & Hoverall & Hpath).
  exists r. split; [done|]. split; [done|].
  unfold supplied in Hpath.
  destruct (players_entries raw) as [entries|].
  - destruct (filterM entry_guard entries) as [kept|e] eqn:Hkept.
    + rewrite Hpath. unfold reconcile. intros s [Hs|Hs]%elem_of_app.
      * by apply (guard_kept_points entries kept).
      * apply list_elem_of_fmap in Hs as (n & -> & _). simpl.
        intros p ->%list_elem_of_singleton. by vm_compute.
    + subst r. simpl. intros s (n & -> & _)%list_elem_of_fmap. simpl.
      intros p ->%list_elem_of_singleton. by vm_compute.
  - subst r. simpl. intros s (n & -> & _)%list_elem_of_fmap. simpl.
    intros p ->%list_elem_of_singleton. by vm_compute.
Qed.

(** C1, as stated, fails: with roster [Mira] and a model output that lists
    Mira twice and an unknown Zed, the result has two summaries for Mira and
    one for Zed. *)
Lemma reconciliation_invariant_counterexample :
  let raw := uq "{'players':[{'name':'Mira','points':['a']},{'name':'Mira','points':['b']},{'name':'Zed','points':['c']}]}" in
  let roster := [u "Mira"] in
  ∃ r, parseSummaries raw roster = Normal r ∧
       count_name (u "Mira") (summaries r) = 2%nat ∧
       ({| name := u "Zed"; points := [u "c"] |}) ∈ summaries r ∧
       (u "Zed" ∉ roster) ∧
       ¬ reconciled roster (summaries r).
Proof.
  eexists. split; [by vm_compute|]. split; [by vm_compute|].
  split; [vm_compute; do 2 right; left|].
  split; [by intros [=]%list_elem_of_singleton|].
  intros [Hone _]. specialize (Hone (u "Mira") ltac:(left)).
  vm_compute in Hone. discriminate.
Qed.

(** C1, amended.  For every roster and raw model output the result has at
    least one summary for every roster name, and every summary either has
    a roster name or is an entry supplied by the model output.  A roster
    name has exactly one summary when the model output supplies at most one
    entry with that name (reconciliation path) or, on the fallback path,
    when the roster lists no name twice. *)
Theorem parseSummaries_reconciliation (raw : jsstring) (roster : list jsstring) :
  ∃ r, parseSummaries raw roster = Normal r ∧
       (∀ n, n ∈ roster → (1 ≤ count_name n (summaries r))%nat) ∧
       (∀ s, s ∈ summaries r →
             name s ∈ roster ∨ ∃ model, supplied raw = Some model ∧ s ∈ model) ∧
       (∀ model n, supplied raw = Some model → n ∈ roster →
             (count_name n model ≤ 1)%nat → count_name n (summaries r) = 1%nat) ∧
       (supplied raw = None → NoDup roster → exactly_one_each roster (summaries r)).
Proof.
  destruct (parseSummaries_paths raw roster) as (r & Hr & _ & Hpath).
  exists r. split; [done|].
  destruct (supplied raw) as [model|].
  - rewrite Hpath. unfold reconcile. split_and!.
    + intros n Hn. rewrite count_name_app.
      destruct (decide (n ∈ map name model)) as [Hin|Hout].
      * apply count_name_pos in Hin. lia.
      * rewrite count_name_placeholders, count_NoDup; [lia| |].
        -- apply NoDup_filter, NoDup_Set_new.
        -- apply list_elem_of_filter. by rewrite elem_of_Set_new.
    + intros s [Hs|Hs]%elem_of_app; [right; eauto|left].
      apply list_elem_of_fmap in Hs as (n & -> & Hn). simpl.
      apply list_elem_of_filter in Hn as [_ Hn]. by apply elem_of_Set_new.
    + intros ? n [= <-] Hn Hcount. rewrite count_name_app.
      destruct (decide (n ∈ map name model)) as [Hin|Hout].
      * pose proof (count_name_pos _ _ Hin).
        rewrite count_name_placeholders, count_absent; [lia|].
        rewrite list_elem_of_filter. tauto.
      * rewrite count_name_zero by done.
        rewrite count_name_placeholders, count_NoDup; [done| |].
        -- apply NoDup_filter, NoDup_Set_new.
        -- apply list_elem_of_filter. by rewrite elem_of_Set_new.
    + discriminate.
  - subst r. simpl. split_and!.
    + intros n Hn. apply count_name_pos.
      apply list_elem_of_fmap. exists (placeholder NOT_PARSED n).
      split; [done|]. apply list_elem_of_fmap. eauto.
    + intros s (n & -> & Hn)%list_elem_of_fmap. by left.
    + discriminate.
    + intros _ Hnodup n Hn. rewrite count_name_placeholders.
      by apply count_NoDup.
Qed.

(** The example of the specification: Mira supplied, Tobo reconciled. *)
Example parseSummaries_Mira_Tobo :
  parseSummaries
    (uq "{'dmSummary':'The party explored the ruins.','players':[{'name':'Mira','points':['Found a key','Fought a wraith','Opened the vault']}]}")
    [u "Mira"; u "Tobo"]
  = Normal {| overallSummary := u "The party explored the ruins.";
              summaries :=
                [ {| name := u "Mira";
                     points := [u "Found a key"; u "Fought a wraith";
                                u "Opened the vault"] |};
                  {| name := u "Tobo"; points := [NO_SUMMARY] |} ] |}.
Proof. by vm_compute. Qed.

(** C2, as stated, fails: the fallback maps over the roster, so a name the
    roster lists twice gets two placeholders, not one per distinct name. *)
Lemma fallback_repeated_name_counterexample :
  let raw := u "I could not hear anything." in
  let roster := [u "Ann"; u "Ann"] in
  Json.parse raw = None ∧
  ∃ r, parseSummaries raw roster = Normal r ∧
       overallSummary r = NOT_PARSED ∧
       count_name (u "Ann") (summaries r) = 2%nat ∧
       ¬ exactly_one_each roster (summaries r).
Proof.
  split; [by vm_compute|]. eexists. split; [by vm_compute|].
  split; [done|]. split; [by vm_compute|].
  intros Hone. specialize (Hone (u "Ann") ltac:(left)).
  vm_compute in Hone. discriminate.
Qed.

(** C2, amended.  For every roster and every raw model output that is not
    valid JSON, or whose parsed value has a missing or non-array [players]
    field, [parseSummaries] completes normally with the fixed fallback
    overall summary and one placeholder per roster entry, in roster order
    (a name has as many placeholders as the roster lists it), each with
    the single fallback point. *)
Theorem parseSummaries_fallback (raw : jsstring) (roster : list jsstring) :
  (Json.parse raw = None ∨
   ∃ parsed, Json.parse raw = Some parsed ∧
             ∀ entries, get parsed (u "players") ≠ Normal (Some (JArray entries))) →
  ∃ r, parseSummaries raw roster = Normal r ∧
       overallSummary r = u "The AI response could not be parsed." ∧
       summaries r
       = map (λ n, {| name := n;
                      points := [u "The AI response could not be parsed."] |})
             roster ∧
       ∀ n, count_name n (summaries r) = length (filter (λ m, m = n) roster).
Proof.
  intros Hshape.
  assert (players_entries raw = None) as Hnone.
  { unfold players_entries, JSON_parse.
    destruct Hshape as [->|(parsed & -> & Hget)]; [done|].
    destruct parsed as [| | | | |ms]; try done. simpl in Hget.
    destruct (lookup_member (u "players") ms) as [[| | | |entries|]|];
      try done.
    by destruct (Hget entries). }
  destruct (parseSummaries_paths raw roster) as (r & Hr & _ & Hpath).
  unfold supplied in Hpath. rewrite Hnone in Hpath. subst r.
  eexists. split; [done|]. simpl. split_and!; [done..|].
  intros n. apply count_name_placeholders.
Qed.

(** The fallback on a JSON object whose [players] is not an array. *)
Lemma parseSummaries_fallback_witness :
  ∃ r, parseSummaries (uq "{'dmSummary':'Quiet night.','players':'none'}")
                      [u "Mira"; u "Tobo"] = Normal r ∧
       overallSummary r = u "The AI response could not be parsed." ∧
       summaries r
       = map (λ n, {| name := n;
                      points := [u "The AI response could not be parsed."] |})
             [u "Mira"; u "Tobo"] ∧
       ∀ n, count_name n (summaries r)
            = length (filter (λ m, m = n) [u "Mira"; u "Tobo"]).
Proof.
  apply parseSummaries_fallback. right. eexists. split.
  - vm_compute. reflexivity.
  - intros entries. vm_compute. discriminate.
Defined.

(** C9. Reconciliation compares names by exact string equality.  On the
    reconciliation path every supplied entry is kept under its own name,
    and the placeholder for a roster name [r] is appended exactly when no
    supplied entry is named [r] code unit by code unit.  An entry that
    spells [r] in another letter case or with surrounding white space
    does not cover it: the result then holds that entry and also the
    synthetic placeholder for [r], which is the one summary named [r].
    An entry named exactly [r] covers it: no placeholder is appended for
    [r], and the summaries named [r] are the supplied ones. *)
Theorem reconciliation_exact_match (raw : jsstring) (roster : list jsstring)
    (model : list PlayerSummary) (r : jsstring) :
  supplied raw = Some model →
  r ∈ roster →
  ∃ res missing,
    parseSummaries raw roster = Normal res ∧
    summaries res = model ++ map (placeholder NO_SUMMARY) missing ∧
    (∀ e, e ∈ model → e ∈ summaries res) ∧
    ((∀ s, s ∈ model → name s ≠ r) →
     r ∈ missing ∧
     ({| name := r; points := [u "No summary was generated for this player."] |})
       ∈ summaries res ∧
     count_name r (summaries res) = 1%nat) ∧
    ((∃ s, s ∈ model ∧ name s = r) →
     (r ∉ missing) ∧
     count_name r (summaries res) = count_name r model).
Proof.
  intros Hmodel Hr.
  destruct (parseSummaries_paths raw roster) as (res & Hres & _ & Hpath).
  rewrite Hmodel in Hpath.
  exists res, (filter (λ n, n ∉ map name model) (Set_new roster)).
  split; [done|]. split; [exact Hpath|]. rewrite Hpath. unfold reconcile.
  split_and!.
  - intros e He. apply elem_of_app. by left.
  - intros Hnames.
    assert (r ∉ map name model) as Hout.
    { intros (s & Heq & Hs)%list_elem_of_fmap. by apply (Hnames s). }
    assert (r ∈ filter (λ n, n ∉ map name model) (Set_new roster)) as Hmissing.
    { apply list_elem_of_filter. by rewrite elem_of_Set_new. }
    split_and!; [done| |].
    + apply elem_of_app. right.
      apply list_elem_of_fmap. exists r. split; [done|]. done.
    + rewrite count_name_app, count_name_zero by done.
      rewrite count_name_placeholders, count_NoDup; [done| |done].
      apply NoDup_filter, NoDup_Set_new.
  - intros (s & Hs & Hname).
    assert (r ∈ map name model) as Hin.
    { apply list_elem_of_fmap. by exists s. }
    assert (r ∉ filter (λ n, n ∉ map name model) (Set_new roster)) as Hcovered.
    { intros [Hout _]%list_elem_of_filter. by apply Hout. }
    split; [done|].
    rewrite count_name_app, count_name_placeholders, count_absent by done.
    lia.
Qed.

(** Roster [Mira], [Tobo]; the model spells the first [mira] and [ Mira ],
    and the second as the roster does. *)
Lemma reconciliation_exact_match_witness :
  toLowerCase (u "mira") = toLowerCase (u "Mira") ∧
  trim (u " Mira ") = trim (u "Mira") ∧
  ∃ res,
    parseSummaries
      (uq "{'players':[{'name':'mira','points':['Found a key']},{'name':' Mira ','points':['Fought a wraith']},{'name':'Tobo','points':['Kept watch']}]}")
      [u "Mira"; u "Tobo"] = Normal res ∧
    ({| name := u "mira"; points := [u "Found a key"] |}) ∈ summaries res ∧
    ({| name := u "Mira";
        points := [u "No summary was generated for this player."] |})
      ∈ summaries res ∧
    count_name (u "Mira") (summaries res) = 1%nat ∧
    count_name (u "Tobo") (summaries res) = 1%nat ∧
    length (summaries res) = 4%nat.
Proof.
  split; [reflexivity|]. split; [reflexivity|].
  set (raw := uq "{'players':[{'name':'mira','points':['Found a key']},{'name':' Mira ','points':['Fought a wraith']},{'name':'Tobo','points':['Kept watch']}]}").
  set (model := [ {| name := u "mira"; points := [u "Found a key"] |};
                  {| name := u " Mira "; points := [u "Fought a wraith"] |};
                  {| name := u "Tobo"; points := [u "Kept watch"] |} ]).
  assert (supplied raw = Some model) as Hmodel by (vm_compute; reflexivity).
  destruct (reconciliation_exact_match raw [u "Mira"; u "Tobo"] model (u "Mira")
              Hmodel ltac:(left))
    as (res & missing & Hres & Hsum & Hkept & Hother & _).
  destruct (reconciliation_exact_match raw [u "Mira"; u "Tobo"] model (u "Tobo")
              Hmodel ltac:(right; left))
    as (res' & missing' & Hres' & Hsum' & _ & _ & Hexact).
  rewrite Hres in Hres'. injection Hres' as <-.
  destruct Hother as (_ & Hplace & Hone).
  { intros s Hs. vm_compute.
    apply elem_of_cons in Hs as [->|Hs]; [discriminate|].
    apply elem_of_cons in Hs as [->|Hs]; [discriminate|].
    apply list_elem_of_singleton in Hs as ->. discriminate. }
  destruct Hexact as [_ Htobo].
  { exists {| name := u "Tobo"; points := [u "Kept watch"] |}.
    split; [|reflexivity]. right. right. left. }
  exists res. split_and!; [done|apply Hkept; left|done|done|by rewrite Htobo|].
  clear -Hres. subst raw. vm_compute in Hres. injection Hres as <-.
  reflexivity.
Defined.

(** ** Extension resolution *)

Section Extension.

Lemma forallb_isAlnum_dot (pre suf : jsstring) :
  forallb isAlnum (pre ++ 46 :: suf) = false.
Proof.
  induction pre as [|c pre IH]; simpl; [done|].
  rewrite IH. apply andb_false_r.
Qed.

(** The pattern matches at the last dot when letters and digits follow it
    up to the end, and captures them. *)
Lemma regex_exec_suffix (pre suf : jsstring) :
  suf ≠ [] → forallb isAlnum suf = true →
  regex_exec (pre ++ 46 :: suf) = Some suf.
Proof.
  intros Hne Hsuf. induction pre as [|c pre IH].
  - simpl. rewrite Hsuf. by rewrite bool_decide_eq_true_2.
  - change ((c :: pre) ++ 46 :: suf) with (c :: (pre ++ 46 :: suf)).
    unfold regex_exec; fold regex_exec. unfold match_here at 1.
    rewrite forallb_isAlnum_dot, andb_false_r. exact IH.
Qed.

Lemma toLowerCase_nil_inv (s : jsstring) : toLowerCase s = [] → s = [].
Proof. by destruct s. Qed.

Lemma extensionFromFilename_suffix (pre suf : jsstring) :
  suf ≠ [] → forallb isAlnum suf = true →
  extensionFromFilename (Some (pre ++ 46 :: suf)) = toLowerCase suf.
Proof.
  intros Hne Hsuf. unfold extensionFromFilename.
  rewrite regex_exec_suffix by done. by destruct pre.
Qed.

Lemma newPath_fresh (p ext : jsstring) : p ++ u "." ++ ext ≠ p.
Proof.
  intros Heq. apply (f_equal length) in Heq.
  rewrite !length_app in Heq. simpl in Heq. lia.
Qed.

(** When the upload is on disk and the storage lets the rename or the copy
    through, resolution completes and leaves the file at the resolved path
    only. *)
Lemma ensureExtensionOnPath_moves (env : environment) (file : FormidableFile)
    (w : world) (sz : N) :
  fs w !! filepath file = Some sz →
  rename_ok env = true ∨ copy_ok env = true →
  ∃ w', ensureExtensionOnPath env file w = (Normal (resolved_path file), w') ∧
        fs w' = <[resolved_path file := sz]> (delete (filepath file) (fs w)) ∧
        res w' = res w ∧ responseEnded w' = responseEnded w ∧
        net_log w' = net_log w ∧
        ∃ evs, fs_log w' = fs_log w ++ evs ∧
               Unlinked (resolved_path file) ∉ evs.
Proof.
  intros Hfile Hstorage. unfold ensureExtensionOnPath, resolved_path.
  assert (<[filepath file := sz]> (delete (filepath file) (fs w)) = fs w) as Hsame.
  { rewrite insert_delete_eq. by apply insert_id. }
  destruct (resolveExtension file) as [|c ext] eqn:Hext; cbv iota.
  { exists w. rewrite Hsame. split_and!; try done.
    exists []. split; [by rewrite app_nil_r|apply not_elem_of_nil]. }
  destruct (endsWith _ _); cbv iota.
  { exists w. rewrite Hsame. split_and!; try done.
    exists []. split; [by rewrite app_nil_r|apply not_elem_of_nil]. }
  set (newPath := filepath file ++ u "." ++ c :: ext).
  assert (newPath ≠ filepath file) as Hfresh by apply newPath_fresh.
  unfold try_catchM, mbind, M_bind, rename. rewrite Hfile.
  destruct (rename_ok env).
  - eexists. split; [reflexivity|]. simpl. split_and!; try done.
    eexists. split; [done|]. by intros [=]%list_elem_of_singleton.
  - destruct Hstorage as [?|Hcopy]; [done|].
    unfold copyFile. rewrite Hfile, Hcopy. simpl.
    unfold unlink. simpl. rewrite lookup_insert_ne, Hfile by done. simpl.
    eexists. split; [reflexivity|]. simpl. split_and!; try done.
    + by rewrite delete_insert_ne.
    + eexists. split; [by rewrite <-app_assoc|].
      intros [[=]|[[=]|[]%elem_of_nil]%elem_of_cons]%elem_of_cons.
      by apply Hfresh.
Qed.

End Extension.

(** C7. An original filename that ends in a dot followed by letters or
    digits resolves to that suffix, lower-cased, whatever the MIME type is
    (the value of the MIME table is not used); [voice.MP3] resolves to
    [mp3]; the MIME table decides only when the filename gives no
    extension; and when the temp path already ends, case-insensitively,
    with the dot and the resolved extension, [ensureExtensionOnPath]
    returns the path and leaves the world as it is: no rename, no copy, no
    second file. *)
Theorem filename_extension_has_priority :
  (∀ (pre suf path : jsstring) (mime : option jsstring) (sz : N),
     suf ≠ [] → forallb isAlnum suf = true →
     extensionFromFilename (Some (pre ++ u "." ++ suf)) = toLowerCase suf ∧
     resolveExtension {| filepath := path;
                         originalFilename := Some (pre ++ u "." ++ suf);
                         mimetype := mime; size := sz |} = toLowerCase suf) ∧
  (∀ (path : jsstring) (mime : option jsstring) (sz : N),
     resolveExtension {| filepath := path;
                         originalFilename := Some (u "voice.MP3");
                         mimetype := mime; size := sz |} = u "mp3") ∧
  (∀ file : FormidableFile,
     resolveExtension file
     = if decide (extensionFromFilename (originalFilename file) = [])
       then extensionFromMime (mimetype file)
       else extensionFromFilename (originalFilename file)) ∧
  (∀ (env : environment) (file : FormidableFile) (w : world),
     resolveExtension file ≠ [] →
     endsWith (toLowerCase (filepath file)) (u "." ++ resolveExtension file) = true →
     ensureExtensionOnPath env file w = (Normal (filepath file), w)).
Proof.
  split_and!.
  - intros pre suf path mime sz Hne Hsuf.
    pose proof (extensionFromFilename_suffix pre suf Hne Hsuf) as Hname.
    change (u "." ++ suf) with (46 :: suf). split; [done|].
    unfold resolveExtension. simpl originalFilename. rewrite Hname.
    destruct (toLowerCase suf) eqn:Hlow; [|done].
    by apply toLowerCase_nil_inv in Hlow.
  - intros path mime sz. reflexivity.
  - intros file. unfold resolveExtension.
    by destruct (extensionFromFilename (originalFilename file)).
  - intros env file w Hext Hends. unfold ensureExtensionOnPath.
    destruct (resolveExtension file); [done|]. by rewrite Hends.
Qed.

(** A filename with two dots, and a temp path that already carries the
    extension in another letter case. *)
Lemma filename_extension_has_priority_witness :
  (extensionFromFilename (Some (u "session.final" ++ u "." ++ u "WAV")) = u "wav" ∧
   resolveExtension {| filepath := u "/tmp/3f9a";
                       originalFilename := Some (u "session.final" ++ u "." ++ u "WAV");
                       mimetype := Some (u "audio/mpeg"); size := 7 |} = u "wav") ∧
  ensureExtensionOnPath
    {| OPENAI_KEY := None; rename_ok := true; copy_ok := true;
       transcription_reply := Normal None; chat_reply := Normal None |}
    {| filepath := u "/tmp/3f9a.Mp3"; originalFilename := Some (u "voice.MP3");
       mimetype := Some (u "audio/wav"); size := 7 |}
    (initial_world {[ u "/tmp/3f9a.Mp3" := 7 ]})
  = (Normal (u "/tmp/3f9a.Mp3"), initial_world {[ u "/tmp/3f9a.Mp3" := 7 ]}).
Proof.
  destruct filename_extension_has_priority as (Hname & _ & _ & Hnoop). split.
  - apply (Hname (u "session.final") (u "WAV")); [discriminate|reflexivity].
  - apply Hnoop; [discriminate|reflexivity].
Defined.

(** ** Reasoning about handler computations *)

Section Triples.

Context {A B : Type}.

Lemma triple_ret (P : world → Prop) (a : A) (Q : A → world → Prop) E :
  (∀ w, P w → Q a w) → triple P (mret a) Q E.
Proof. intros H w Hw. by apply H. Qed.

Lemma triple_bind (P : world → Prop) (m : M A) (f : A → M B)
    (Q' : A → world → Prop) (Q : B → world → Prop) E :
  triple P m Q' E →
  (∀ a, triple (Q' a) (f a) Q E) →
  triple P (m ≫= f) Q E.
Proof.
  intros Hm Hf w Hw. specialize (Hm w Hw). unfold mbind, M_bind.
  destruct (m w) as [[a|e] w']; [by apply Hf|done].
Qed.

Lemma triple_conseq (P P' : world → Prop) (m : M A)
    (Q Q' : A → world → Prop) (E E' : exn → world → Prop) :
  triple P' m Q' E' →
  (∀ w, P w → P' w) → (∀ a w, Q' a w → Q a w) → (∀ e w, E' e w → E e w) →
  triple P m Q E.
Proof.
  intros Hm HP HQ HE w Hw. specialize (Hm w (HP w Hw)).
  destruct (m w) as [[a|e] w']; auto.
Qed.

Lemma triple_pure (φ : Prop) (P : world → Prop) (m : M A) Q E :
  (φ → triple P m Q E) → triple (λ w, P w ∧ φ) m Q E.
Proof. intros H w [Hw Hφ]. by apply H. Qed.

Lemma triple_lift (P : world → Prop) (c : completion A) :
  triple P (lift c) (λ a w, P w ∧ c = Normal a) (λ _ w, P w).
Proof. intros w Hw. unfold lift. by destruct c. Qed.

Lemma triple_try_catch (P : world → Prop) (body : M A) (h : exn → M A)
    (Q : A → world → Prop) (E' E : exn → world → Prop) :
  triple P body Q E' →
  (∀ e, triple (E' e) (h e) Q E) →
  triple P (try_catchM body h) Q E.
Proof.
  intros Hbody Hh w Hw. specialize (Hbody w Hw). unfold try_catchM.
  destruct (body w) as [[a|e] w']; [done|by apply Hh].
Qed.

Lemma triple_try_finally (P : world → Prop) (body : M A) (cleanup : M unit)
    (Q' : A → world → Prop) (E' : exn → world → Prop)
    (Q : A → world → Prop) (E : exn → world → Prop) :
  triple P body Q' E' →
  (∀ a, triple (Q' a) cleanup (λ _, Q a) E) →
  (∀ e, triple (E' e) cleanup (λ _, E e) E) →
  triple P (try_finallyM body cleanup) Q E.
Proof.
  intros Hbody Hn He w Hw. specialize (Hbody w Hw). unfold try_finallyM.
  destruct (body w) as [[a|e] w'].
  - specialize (Hn a w' Hbody). by destruct (cleanup w') as [[[]|e'] w''].
  - specialize (He e w' Hbody). by destruct (cleanup w') as [[[]|e'] w''].
Qed.

Lemma silent_bind (m : M A) (f : A → M B) :
  silent m → (∀ a, silent (f a)) → silent (m ≫= f).
Proof.
  intros Hm Hf w. specialize (Hm w). unfold mbind, M_bind.
  destruct (m w) as [[a|e] w']; simpl in *; [|done].
  destruct (Hf a w') as [-> ->]. done.
Qed.

Lemma silent_try_catch (body : M A) (h : exn → M A) :
  silent body → (∀ e, silent (h e)) → silent (try_catchM body h).
Proof.
  intros Hm Hh w. specialize (Hm w). unfold try_catchM.
  destruct (body w) as [[a|e] w']; simpl in *; [done|].
  destruct (Hh e w') as [-> ->]. done.
Qed.

Lemma silent_ret (a : A) : silent (mret a : M A).
Proof. by intros w. Qed.

(** A silent computation keeps any property of the response and the close
    guard. *)
Lemma triple_silent (m : M A) (P : world → Prop) :
  silent m →
  (∀ w w', res w' = res w → responseEnded w' = responseEnded w → P w → P w') →
  triple P m (λ _, P) (λ _, P).
Proof.
  intros Hm HP w Hw. destruct (Hm w) as [Hres Hended].
  destruct (m w) as [[a|e] w']; simpl in *; eauto.
Qed.

End Triples.

Section Storage.

Lemma silent_stat (p : jsstring) : silent (stat p).
Proof. intros w. unfold stat. by destruct (fs w !! p). Qed.

Lemma silent_rename (env : environment) (src dst : jsstring) :
  silent (rename env src dst).
Proof.
  intros w. unfold rename. destruct (fs w !! src); [|done].
  by destruct (rename_ok env).
Qed.

Lemma silent_copyFile (env : environment) (src dst : jsstring) :
  silent (copyFile env src dst).
Proof.
  intros w. unfold copyFile. destruct (fs w !! src); [|done].
  by destruct (copy_ok env).
Qed.

Lemma silent_unlink (p : jsstring) : silent (unlink p).
Proof. intros w. unfold unlink. by destruct (fs w !! p). Qed.

Lemma silent_cleanup (p : jsstring) :
  silent (try_catchM (unlink p) (λ _, mret ())).
Proof. apply silent_try_catch; [apply silent_unlink|intros; apply silent_ret]. Qed.

Lemma silent_ensureExtensionOnPath (env : environment) (file : FormidableFile) :
  silent (ensureExtensionOnPath env file).
Proof.
  unfold ensureExtensionOnPath.
  destruct (resolveExtension file); [apply silent_ret|].
  destruct (endsWith _ _); [apply silent_ret|].
  apply silent_try_catch.
  - apply silent_bind; [apply silent_rename|intros; apply silent_ret].
  - intros _. apply silent_bind; [apply silent_copyFile|intros _].
    apply silent_bind; [apply silent_cleanup|intros; apply silent_ret].
Qed.

Lemma silent_parseMultipart (req : request) : silent (parseMultipart req).
Proof.
  intros w. unfold parseMultipart. by destruct (multipart req) as [[??]|].
Qed.

Lemma silent_transcriptions_create env path fileName :
  silent (transcriptions_create env path fileName).
Proof. by intros w. Qed.

Lemma silent_chat_completions_create env roster text :
  silent (chat_completions_create env roster text).
Proof. by intros w. Qed.

End Storage.

(** ** The emitter *)

Section Emitter.

Lemma run_emit_guarded (op : emit) (w : world) :
  guard_set w = true → run_emit op w = (Normal (), w).
Proof.
  unfold guard_set. intros Hguard.
  destruct op; simpl; unfold sendProgress, sendError, sendResult, mbind,
    M_bind, writeLine, endResponse; rewrite Hguard; try done.
  all: by rewrite <-negb_orb, Hguard.
Qed.

Lemma run_emit_invariant (op : emit) (w : world) :
  emitter_invariant w →
  ∃ w', run_emit op w = (Normal (), w') ∧ emitter_invariant w'.
Proof.
  intros Hinv. destruct (guard_set w) eqn:Hguard.
  { exists w. split; [by apply run_emit_guarded|done]. }
  destruct Hinv as (ps & Hps & [Hw|(t & _ & _ & Hset)]); [|congruence].
  unfold guard_set in Hguard.
  apply orb_false_iff in Hguard as [Hended Hwritable].
  destruct op as [message meta|message|payload]; simpl;
    unfold sendProgress, sendError, sendResult, mbind, M_bind, writeLine,
      endResponse; repeat (rewrite ?Hended, ?Hwritable; simpl);
    (eexists; split; [reflexivity|]); unfold emitter_invariant; simpl.
  - exists (ps ++ [Progress message meta]). split.
    + apply Forall_app. split; [done|]. by apply Forall_singleton.
    + left. by rewrite Hw.
  - exists ps. split; [done|]. right. exists (ErrorFrame message).
    by rewrite Hw.
  - exists ps. split; [done|]. right. exists (Result payload).
    by rewrite Hw.
Qed.

Lemma run_emits_invariant (ops : list emit) (w : world) :
  emitter_invariant w →
  ∃ w', run_emits ops w = (Normal (), w') ∧ emitter_invariant w'.
Proof.
  revert w. induction ops as [|op ops IH]; intros w Hinv; simpl.
  - by exists w.
  - destruct (run_emit_invariant op w Hinv) as (w1 & Hop & Hinv1).
    destruct (IH w1 Hinv1) as (w2 & Hops & Hinv2).
    exists w2. split; [|done]. unfold mbind, M_bind. by rewrite Hop.
Qed.

Lemma all_progress_no_terminal (ps : list frame) (t : frame) :
  all_progress ps → t ∈ ps → is_terminal t = true → False.
Proof.
  intros Hps Ht Hterm. unfold all_progress in Hps.
  rewrite Forall_forall in Hps. specialize (Hps t Ht). congruence.
Qed.

Lemma emitter_invariant_terminal_last (w : world) :
  emitter_invariant w → terminal_last (written (res w)).
Proof.
  intros (ps & Hps & [Hw|(t & Ht & Hw & _)]); exists ps; split; eauto.
Qed.

Lemma emitter_invariant_noop (w : world) (t : frame) :
  emitter_invariant w → t ∈ written (res w) → is_terminal t = true →
  ∀ op, run_emit op w = (Normal (), w).
Proof.
  intros (ps & Hps & [Hw|(t' & _ & _ & Hguard)]) Ht Hterm op.
  - rewrite Hw in Ht. by destruct (all_progress_no_terminal ps t).
  - by apply run_emit_guarded.
Qed.

Lemma stream_closed_invariant (G : Prop) (w : world) :
  stream_closed G w → emitter_invariant w.
Proof.
  intros (_ & Hended & _ & ps & t & Hps & Ht & Hw & _).
  exists (Progress (u "Parsing upload") [] :: ps). split.
  - by apply Forall_cons.
  - right. exists t. unfold guard_set. by rewrite Hw, Hended.
Qed.

Lemma stream_open_silent (w w' : world) :
  res w' = res w → responseEnded w' = responseEnded w →
  stream_open w → stream_open w'.
Proof. unfold stream_open, streaming. by intros -> ->. Qed.

Lemma sendProgress_first (message : jsstring) meta E :
  message = u "Parsing upload" → meta = [] →
  triple stream_start (sendProgress message meta) (λ _, stream_open) E.
Proof.
  intros -> -> w (Hs & Hended & Hwritable & Hw).
  unfold sendProgress, writeLine. rewrite Hended, Hwritable. simpl.
  unfold stream_open, streaming in *. simpl. rewrite Hw.
  split_and!; try done; try tauto. exists []. split; [apply Forall_nil_2|done].
Qed.

Lemma sendProgress_open (message : jsstring) meta E :
  triple stream_open (sendProgress message meta) (λ _, stream_open) E.
Proof.
  intros w (Hs & Hended & Hwritable & ps & Hps & Hw).
  unfold sendProgress, writeLine. rewrite Hended, Hwritable. simpl.
  unfold stream_open, streaming in *. simpl. rewrite Hw.
  split_and!; try done; try tauto.
  exists (ps ++ [Progress message meta]). split; [|done].
  apply Forall_app. split; [done|]. by apply Forall_singleton.
Qed.

Lemma sendError_open (message : jsstring) (G : Prop) E :
  triple stream_open (sendError message) (λ _, stream_closed G) E.
Proof.
  intros w (Hs & Hended & Hwritable & ps & Hps & Hw).
  unfold sendError, mbind, M_bind, writeLine, endResponse.
  repeat (rewrite ?Hended, ?Hwritable; simpl).
  unfold stream_closed, streaming in *. simpl. rewrite Hw.
  split_and!; try done; try tauto.
  exists ps, (ErrorFrame message). by split_and!.
Qed.

Lemma sendResult_open (payload : SessionSummaryResponse) (G : Prop) E :
  G → triple stream_open (sendResult payload) (λ _, stream_closed G) E.
Proof.
  intros HG w (Hs & Hended & Hwritable & ps & Hps & Hw).
  unfold sendResult, mbind, M_bind, writeLine, endResponse.
  repeat (rewrite ?Hended, ?Hwritable; simpl).
  unfold stream_closed, streaming in *. simpl. rewrite Hw.
  split_and!; try done; try tauto.
  exists ps, (Result payload). by split_and!.
Qed.

End Emitter.

(** ** The pipeline keeps the stream well formed *)

Section Pipeline.

Variables (req : request) (env : environment).

Lemma triple_throw {A} (P : world → Prop) (message : jsstring)
    (Q : A → world → Prop) :
  triple P (throw message) Q (λ _, P).
Proof. by intros w Hw. Qed.

Lemma triple_silent_open {A} (m : M A) :
  silent m → triple stream_open m (λ _, stream_open) (λ _, stream_open).
Proof. intros Hm. apply triple_silent; [done|]. apply stream_open_silent. Qed.

Lemma parseMultipart_spec :
  triple stream_open (parseMultipart req)
    (λ parts w, stream_open w ∧ multipart req = Normal parts)
    (λ _, stream_open).
Proof.
  intros w Hw. unfold parseMultipart.
  destruct (multipart req) as [[fields files]|e]; [|done].
  split; [|done]. revert Hw. by apply stream_open_silent.
Qed.

Lemma transcriptions_create_spec (path fileName : jsstring) :
  triple stream_open (transcriptions_create env path fileName)
    (λ reply w, stream_open w ∧ transcription_reply env = Normal reply)
    (λ _, stream_open).
Proof.
  intros w Hw. unfold transcriptions_create.
  destruct (transcription_reply env);
    [split; [|done]|]; revert Hw; by apply stream_open_silent.
Qed.

Lemma chat_completions_create_spec (roster : list jsstring) (text : jsstring) :
  triple stream_open (chat_completions_create env roster text)
    (λ reply w, stream_open w ∧ chat_reply env = Normal reply)
    (λ _, stream_open).
Proof.
  intros w Hw. unfold chat_completions_create.
  destruct (chat_reply env);
    [split; [|done]|]; revert Hw; by apply stream_open_silent.
Qed.

Lemma transcribe_spec (audioFile : FormidableFile) (readablePath : jsstring) :
  triple stream_open (transcribe env audioFile readablePath)
    (λ _ w, stream_open w ∧ ∃ text, transcription_reply env = Normal (Some text))
    (λ _, stream_open).
Proof.
  unfold transcribe.
  eapply triple_bind; [apply triple_silent_open, silent_stat|intros sz].
  destruct (sz =? 0); [apply triple_throw|].
  eapply triple_bind; [apply sendProgress_open|intros []].
  eapply triple_bind; [apply transcriptions_create_spec|intros reply].
  apply triple_pure. intros Hreply.
  destruct reply as [text|]; [|apply triple_throw].
  eapply triple_bind; [apply sendProgress_open|intros []].
  apply triple_ret. eauto.
Qed.

Lemma summarize_spec (G : Prop) (roster : list jsstring) (text : jsstring) :
  G →
  triple stream_open (summarize env roster text)
    (λ _, stream_closed (G ∧ ∃ content, chat_reply env = Normal (Some content)))
    (λ _, stream_open).
Proof.
  intros HG. unfold summarize.
  eapply triple_bind; [apply sendProgress_open|intros []].
  eapply triple_bind; [apply chat_completions_create_spec|intros reply].
  apply triple_pure. intros Hreply.
  destruct reply as [[|c content]|]; try apply sendError_open.
  eapply triple_bind; [apply triple_lift|intros parsed].
  apply triple_pure. intros _.
  eapply triple_bind; [apply sendProgress_open|intros []].
  apply sendResult_open. eauto.
Qed.

Lemma process_spec (fields : Fields) (files : Files) :
  (∃ parts, multipart req = Normal parts) →
  triple stream_open (process env fields files)
    (λ _, stream_closed (all_stages_passed req env))
    (λ _, stream_open).
Proof.
  intros Hparts. unfold process.
  case_bool_decide; [apply sendError_open|].
  eapply triple_bind; [apply triple_lift|intros cleanedPlayers].
  apply triple_pure. intros _.
  case_bool_decide; [apply sendError_open|].
  destruct (pick_audio files) as [audioFile|]; [|apply sendError_open].
  destruct (filepath audioFile) as [|c path] eqn:Hpath; [apply sendError_open|].
  eapply triple_bind; [apply sendProgress_open|intros []].
  eapply triple_bind;
    [apply triple_silent_open, silent_ensureExtensionOnPath|intros readablePath].
  apply triple_bind with
    (Q' := λ _ w, stream_open w ∧
                  ∃ text, transcription_reply env = Normal (Some text)).
  { eapply triple_try_finally; [apply transcribe_spec|..].
    - intros text. apply triple_pure. intros Hreply.
      eapply triple_conseq;
        [apply triple_silent_open, silent_cleanup|done| |done].
      intros [] w Hw. split; [exact Hw|exact Hreply].
    - intros e. apply triple_silent_open, silent_cleanup. }
  intros transcriptText. apply triple_pure. intros Hreply.
  destruct transcriptText as [|c' text]; [apply sendError_open|].
  eapply triple_conseq; [by apply (summarize_spec _ _ _ Hparts)|done| |done].
  intros [] w (? & ? & ? & ps & t & ? & ? & ? & HG). split_and!; try done.
  exists ps, t. split_and!; try done.
  intros payload Ht. destruct (HG payload Ht) as [? ?]. by split_and!.
Qed.

Lemma pipeline_spec :
  triple stream_start (pipeline req env)
    (λ _, stream_closed (all_stages_passed req env))
    (λ _, stream_open).
Proof.
  unfold pipeline.
  eapply triple_bind; [by apply sendProgress_first|intros []].
  eapply triple_bind; [apply parseMultipart_spec|intros [fields files]].
  apply triple_pure. intros Hparts. apply process_spec. eauto.
Qed.

Lemma handler_streams (disk : gmap jsstring N) :
  method req = u "POST" → ensureEnv env = Normal () →
  handler req env (initial_world disk)
  = try_catchM (pipeline req env) report (streaming_world disk).
Proof.
  intros Hmethod Henv. unfold handler. rewrite Henv.
  case_bool_decide; [done|]. reflexivity.
Qed.

(** What a request leaves behind, by the stage that answers it. *)
Lemma handler_outcome (disk : gmap jsstring N) :
  ∃ w, handler req env (initial_world disk) = (Normal (), w) ∧
       ((method req ≠ u "POST" ∧
         res w = {| statusCode := 405; headers := [(u "Allow", u "POST")];
                    jsonBody := Some (u "Method not allowed");
                    written := []; writableEnded := true |}) ∨
        (method req = u "POST" ∧
         ensureEnv env = Throw (ErrorObj PlainError (u "OPENAI_KEY is not configured")) ∧
         res w = {| statusCode := 500; headers := [];
                    jsonBody := Some (u "OPENAI_KEY is not configured");
                    written := []; writableEnded := true |}) ∨
        (method req = u "POST" ∧ ensureEnv env = Normal () ∧
         stream_closed (all_stages_passed req env) w)).
Proof.
  destruct (decide (method req = u "POST")) as [Hmethod|Hmethod]; cycle 1.
  { unfold handler. rewrite bool_decide_eq_true_2 by done.
    eexists. split; [reflexivity|]. left. by split. }
  destruct (ensureEnv env) as [[]|e] eqn:Henv; cycle 1.
  { unfold handler. rewrite bool_decide_eq_false_2 by (by intros []).
    rewrite Henv. revert Henv. unfold ensureEnv.
    destruct (OPENAI_KEY env) as [[|c key]|]; try discriminate;
      intros [= <-]; (eexists; split; [reflexivity|]);
      right; left; by split_and!. }
  rewrite handler_streams by done. set (w1 := streaming_world disk).
  assert (stream_start w1) as Hstart by done.
  pose proof (pipeline_spec w1 Hstart) as Hrun.
  unfold try_catchM.
  destruct (pipeline req env w1) as [[[]|e] w2].
  - exists w2. split; [done|]. right. right. by split_and!.
  - destruct Hrun as (? & Hended & Hwritable & ?).
    unfold report. rewrite Hended, Hwritable. simpl.
    pose proof (sendError_open (error_message e) (all_stages_passed req env)
                  (λ _ _, False) w2) as Hsend.
    destruct (sendError (error_message e) w2) as [[[]|e'] w3].
    + exists w3. split; [done|]. right. right. split_and!; try done.
      by apply Hsend.
    + destruct Hsend. done.
Qed.

End Pipeline.

(** C8. Whatever calls the emitter receives after an empty body, the body
    is a run of progress frames followed by at most one terminal frame,
    which is then the last frame, and once a terminal frame is there every
    further call (progress, result or error) changes nothing.  The same
    holds for the body a request leaves behind. *)
Theorem terminal_frame_single_and_last :
  (∀ (w0 : world) (ops : list emit),
     written (res w0) = [] →
     ∃ w, run_emits ops w0 = (Normal (), w) ∧
          terminal_last (written (res w)) ∧
          ∀ t, t ∈ written (res w) → is_terminal t = true →
               ∀ op, run_emit op w = (Normal (), w)) ∧
  (∀ (req : request) (env : environment) (disk : gmap jsstring N),
     ∃ w, handler req env (initial_world disk) = (Normal (), w) ∧
          terminal_last (written (res w)) ∧
          ∀ t, t ∈ written (res w) → is_terminal t = true →
               ∀ op, run_emit op w = (Normal (), w)).
Proof.
  split.
  - intros w0 ops Hempty.
    assert (emitter_invariant w0) as Hinv.
    { exists []. split; [apply Forall_nil_2|by left]. }
    destruct (run_emits_invariant ops w0 Hinv) as (w & Hrun & Hw).
    exists w. split; [done|]. split.
    + by apply emitter_invariant_terminal_last.
    + intros t. by apply emitter_invariant_noop.
  - intros req env disk.
    destruct (handler_outcome req env disk) as (w & Hrun & Hcases).
    exists w. split; [done|].
    assert (written (res w) = [] ∨ emitter_invariant w) as [Hempty|Hinv].
    { destruct Hcases as [[_ ->]|[(_ & _ & ->)|(_ & _ & Hclosed)]];
        [by left..|right]. by apply (stream_closed_invariant _ _ Hclosed). }
    + rewrite Hempty. split.
      * exists []. split; [apply Forall_nil_2|by left].
      * by intros t ?%elem_of_nil.
    + split.
      * by apply emitter_invariant_terminal_last.
      * intros t. by apply emitter_invariant_noop.
Qed.

(** Four calls, two of them after the error frame. *)
Lemma terminal_frame_single_and_last_witness :
  ∃ w, run_emits [SendProgress (u "Parsing upload") [];
                  SendError (u "Transcription failed");
                  SendProgress (u "Summaries ready") [];
                  SendError (u "late")]
                 (streaming_world ∅) = (Normal (), w) ∧
       terminal_last (written (res w)) ∧
       ∀ t, t ∈ written (res w) → is_terminal t = true →
            ∀ op, run_emit op w = (Normal (), w).
Proof.
  destruct terminal_frame_single_and_last as [Hemit _].
  apply Hemit. reflexivity.
Defined.

Example emitter_drops_late_frames :
  written (res (run_emits [SendProgress (u "Parsing upload") [];
                           SendError (u "Transcription failed");
                           SendProgress (u "Summaries ready") [];
                           SendError (u "late")]
                          (streaming_world ∅)).2)
  = [Progress (u "Parsing upload") []; ErrorFrame (u "Transcription failed")].
Proof. reflexivity. Qed.

(** ** Running the handler step by step *)

Section Running.

Lemma bind_run {A B} (m : M A) (f : A → M B) (w w' : world) (a : A) :
  m w = (Normal a, w') → (m ≫= f) w = f a w'.
Proof. intros H. unfold mbind, M_bind. by rewrite H. Qed.

Lemma bind_throw {A B} (m : M A) (f : A → M B) (w w' : world) (e : exn) :
  m w = (Throw e, w') → (m ≫= f) w = (Throw e, w').
Proof. intros H. unfold mbind, M_bind. by rewrite H. Qed.

Lemma sendProgress_run (message : jsstring) meta (w : world) :
  guard_set w = false →
  sendProgress message meta w = (Normal (), wrote (Progress message meta) w).
Proof.
  unfold guard_set, sendProgress, writeLine. by intros ->.
Qed.

Lemma sendError_run (message : jsstring) (w : world) :
  guard_set w = false →
  sendError message w = (Normal (), closed (wrote (ErrorFrame message) w)).
Proof.
  unfold guard_set, sendError, mbind, M_bind, writeLine, endResponse.
  intros Hguard. rewrite Hguard. simpl. by rewrite <-negb_orb, Hguard.
Qed.

Lemma report_run (e : exn) (w : world) :
  guard_set w = false →
  report e w = (Normal (), closed (wrote (ErrorFrame (error_message e)) w)).
Proof.
  intros Hguard. unfold report.
  rewrite <-negb_orb. fold (guard_set w). rewrite Hguard. simpl.
  by apply sendError_run.
Qed.

Lemma mapC_nil_inv {A B} (f : A → completion B) (l : list A) :
  mapC f l = Normal [] → l = [].
Proof.
  destruct l as [|x l]; [done|]. simpl.
  destruct (f x); simpl; [|done]. by destruct (mapC f l).
Qed.

Lemma cleanPlayers_nonempty (names : list JValue) (cleaned : list jsstring) :
  cleanPlayers names = Normal cleaned → cleaned ≠ [] → names ≠ [].
Proof.
  intros Hclean Hne ->. injection Hclean as <-. by apply Hne.
Qed.

(** The first value that is not a string makes the trim step throw. *)
Lemma cleanPlayers_non_string (names : list JValue) (v : JValue) :
  v ∈ names → (∀ s, v ≠ JString s) →
  ∃ m, cleanPlayers names = Throw (ErrorObj TypeError m) ∧
       (m = u "Cannot read properties of null (reading 'trim')" ∨
        m = u "player.trim is not a function").
Proof.
  intros Hv Hnot. unfold cleanPlayers.
  assert (∃ m, mapC call_trim names = Throw (ErrorObj TypeError m) ∧
               (m = u "Cannot read properties of null (reading 'trim')" ∨
                m = u "player.trim is not a function")) as (m & -> & Hm);
    [|by exists m].
  induction names as [|x names IH]; [by apply elem_of_nil in Hv|].
  simpl. destruct x as [| | |s| |]; simpl; eauto.
  apply elem_of_cons in Hv as [->|Hv]; [by destruct (Hnot s)|].
  destruct (IH Hv) as (m & -> & Hm). simpl. eauto.
Qed.

End Running.

Section Stages.

Variables (req : request) (env : environment) (disk : gmap jsstring N).
Variables (fields : Fields) (files : Files).

Hypothesis Hmethod : method req = u "POST".
Hypothesis Henv : ensureEnv env = Normal ().
Hypothesis Hparts : multipart req = Normal (fields, files).

(** Once the body is decoded the handler runs [process] under the outer
    [catch]. *)
Lemma handler_decoded :
  handler req env (initial_world disk)
  = try_catchM (process env fields files) report (upload_world files disk).
Proof.
  rewrite handler_streams by done. unfold try_catchM, pipeline.
  rewrite (bind_run _ _ _ _ _ (sendProgress_run _ _ (streaming_world disk) eq_refl)).
  unfold mbind, M_bind, parseMultipart. rewrite Hparts. reflexivity.
Qed.

Lemma handler_no_names :
  playerNames_of (players fields) = [] →
  handler req env (initial_world disk)
  = (Normal (),
     closed (wrote (ErrorFrame (u "At least one player name is required"))
                   (upload_world files disk))).
Proof.
  intros Hnames. rewrite handler_decoded. unfold try_catchM, process.
  rewrite Hnames, bool_decide_eq_true_2 by done.
  by rewrite sendError_run.
Qed.

Lemma handler_blank_names :
  playerNames_of (players fields) ≠ [] →
  cleanPlayers (playerNames_of (players fields)) = Normal [] →
  handler req env (initial_world disk)
  = (Normal (),
     closed (wrote (ErrorFrame (u "Player names cannot be empty"))
                   (upload_world files disk))).
Proof.
  intros Hnames Hclean. rewrite handler_decoded. unfold try_catchM, process.
  rewrite bool_decide_eq_false_2 by (by destruct (playerNames_of _)).
  rewrite Hclean. unfold mbind, M_bind, lift.
  rewrite bool_decide_eq_true_2 by done.
  by rewrite sendError_run.
Qed.

Lemma handler_trim_throws (e : exn) :
  playerNames_of (players fields) ≠ [] →
  cleanPlayers (playerNames_of (players fields)) = Throw e →
  handler req env (initial_world disk)
  = (Normal (),
     closed (wrote (ErrorFrame (error_message e)) (upload_world files disk))).
Proof.
  intros Hnames Hclean. rewrite handler_decoded. unfold try_catchM, process.
  rewrite bool_decide_eq_false_2 by (by destruct (playerNames_of _)).
  rewrite Hclean. unfold mbind, M_bind, lift.
  by rewrite report_run.
Qed.

Lemma handler_no_audio (cleaned : list jsstring) :
  cleanPlayers (playerNames_of (players fields)) = Normal cleaned →
  cleaned ≠ [] →
  pick_audio files = None ∨
    (∃ f, pick_audio files = Some f ∧ filepath f = []) →
  handler req env (initial_world disk)
  = (Normal (),
     closed (wrote (ErrorFrame (u "Audio file is required"))
                   (upload_world files disk))).
Proof.
  intros Hclean Hne Haudio. rewrite handler_decoded.
  unfold try_catchM, process.
  rewrite bool_decide_eq_false_2; cycle 1.
  { pose proof (cleanPlayers_nonempty _ _ Hclean Hne).
    by destruct (playerNames_of _). }
  rewrite Hclean. unfold mbind, M_bind, lift.
  rewrite bool_decide_eq_false_2 by (by destruct cleaned).
  destruct Haudio as [->|(f & -> & ->)]; by rewrite sendError_run.
Qed.

End Stages.

(** ** Claims about the handler *)

(** C4, as stated, fails: a roster that is empty after normalization (and
    likewise a missing audio file) is answered under status 200 by an error
    frame that follows a progress frame, not by a JSON error body with
    status 400. *)
Lemma validation_errors_are_streamed_counterexample :
  let env := {| OPENAI_KEY := Some (u "sk-test"); rename_ok := true;
                copy_ok := true; transcription_reply := Normal (Some (u "hi"));
                chat_reply := Normal (Some (uq "{'players':[]}")) |} in
  let upload := {| filepath := u "/tmp/3f9a"; originalFilename := Some (u "s.mp3");
                   mimetype := Some (u "audio/mpeg"); size := 2048 |} in
  let blank := {| method := u "POST";
                  multipart := Normal ({| players := Some (FieldArray [u "  "]) |},
                                       {| audio := Some (FileArray [upload]);
                                          file := None |}) |} in
  let no_audio := {| method := u "POST";
                     multipart := Normal ({| players := Some (FieldArray [u "Mira"]) |},
                                          {| audio := None; file := None |}) |} in
  cleanPlayers (playerNames_of (Some (FieldArray [u "  "]))) = Normal [] ∧
  res (handler blank env (initial_world ∅)).2
  = {| statusCode := 200; headers := streaming_headers; jsonBody := None;
       written := [Progress (u "Parsing upload") [];
                   ErrorFrame (u "Player names cannot be empty")];
       writableEnded := true |} ∧
  res (handler no_audio env (initial_world ∅)).2
  = {| statusCode := 200; headers := streaming_headers; jsonBody := None;
       written := [Progress (u "Parsing upload") [];
                   ErrorFrame (u "Audio file is required")];
       writableEnded := true |}.
Proof. split_and!; by vm_compute. Qed.

(** C4, amended.  A method other than POST is answered by status 405 with
    [Allow: POST] and the JSON body [{error: "Method not allowed"}]; a
    missing credential by status 500 and a JSON body; neither writes a
    frame.  Every other request is answered under status 200 by a stream
    that starts with the progress frame "Parsing upload" and ends with
    exactly one terminal frame, which is a result only if the decoding and
    both provider calls went through.  An empty roster and a missing audio
    file are among these: each gives that progress frame and one error
    frame. *)
Theorem error_responses_by_stage (req : request) (env : environment)
    (disk : gmap jsstring N) :
  ∃ w, handler req env (initial_world disk) = (Normal (), w) ∧
    (method req ≠ u "POST" →
       statusCode (res w) = 405 ∧
       headers (res w) = [(u "Allow", u "POST")] ∧
       jsonBody (res w) = Some (u "Method not allowed") ∧
       written (res w) = []) ∧
    (method req = u "POST" → ensureEnv env ≠ Normal () →
       statusCode (res w) = 500 ∧
       jsonBody (res w) = Some (u "OPENAI_KEY is not configured") ∧
       written (res w) = []) ∧
    (method req = u "POST" → ensureEnv env = Normal () →
       statusCode (res w) = 200 ∧ jsonBody (res w) = None ∧
       (∃ ps t, all_progress ps ∧ is_terminal t = true ∧
                written (res w) = Progress (u "Parsing upload") [] :: ps ++ [t] ∧
                (∀ payload, t = Result payload → all_stages_passed req env)) ∧
       (∀ fields files, multipart req = Normal (fields, files) →
          (playerNames_of (players fields) = [] →
             written (res w)
             = [Progress (u "Parsing upload") [];
                ErrorFrame (u "At least one player name is required")]) ∧
          (playerNames_of (players fields) ≠ [] →
           cleanPlayers (playerNames_of (players fields)) = Normal [] →
             written (res w)
             = [Progress (u "Parsing upload") [];
                ErrorFrame (u "Player names cannot be empty")]) ∧
          (∀ cleaned,
             cleanPlayers (playerNames_of (players fields)) = Normal cleaned →
             cleaned ≠ [] →
             pick_audio files = None ∨
               (∃ f, pick_audio files = Some f ∧ filepath f = []) →
             written (res w)
             = [Progress (u "Parsing upload") [];
                ErrorFrame (u "Audio file is required")]))).
Proof.
  destruct (handler_outcome req env disk) as (w & Hrun & Hcases).
  exists w. split; [done|]. split_and!.
  - intros Hmethod.
    destruct Hcases as [[_ ->]|[(? & _)|(? & _)]]; by try done.
  - intros Hmethod Henv.
    destruct Hcases as [[? _]|[(_ & _ & ->)|(_ & ? & _)]]; by try done.
  - intros Hmethod Henv.
    destruct Hcases as [[? _]|[(_ & Hthrow & _)|(_ & _ & Hclosed)]];
      [done|congruence|].
    destruct Hclosed as ((Hstatus & _ & Hjson) & _ & _ & Hframes).
    split_and!; [done..|].
    intros fields files Hparts. split_and!.
    + intros Hnames.
      rewrite (handler_no_names req env disk fields files) in Hrun by done.
      by injection Hrun as <-.
    + intros Hnames Hclean.
      rewrite (handler_blank_names req env disk fields files) in Hrun by done.
      by injection Hrun as <-.
    + intros cleaned Hclean Hne Haudio.
      rewrite (handler_no_audio req env disk fields files Hmethod Henv Hparts
                 cleaned) in Hrun by done.
      by injection Hrun as <-.
Qed.

(** A GET request. *)
Lemma error_responses_by_stage_witness :
  ∃ w, handler {| method := u "GET"; multipart := Throw NonError |}
               {| OPENAI_KEY := None; rename_ok := true; copy_ok := true;
                  transcription_reply := Normal None;
                  chat_reply := Normal None |}
               (initial_world ∅) = (Normal (), w) ∧
       statusCode (res w) = 405 ∧
       headers (res w) = [(u "Allow", u "POST")] ∧
       jsonBody (res w) = Some (u "Method not allowed") ∧
       written (res w) = [].
Proof.
  destruct (error_responses_by_stage
              {| method := u "GET"; multipart := Throw NonError |}
              {| OPENAI_KEY := None; rename_ok := true; copy_ok := true;
                 transcription_reply := Normal None;
                 chat_reply := Normal None |} ∅)
    as (w & Hrun & Hmethod & _).
  exists w. split; [exact Hrun|]. apply Hmethod. discriminate.
Defined.

(** C10. When the normalized [players] field holds a value that is not a
    string (a JSON array such as [[1,2]] puts its elements there as they
    are), the trim step throws a [TypeError]; the request then ends with the
    "Parsing upload" frame followed by an error frame that carries the
    [TypeError] message, which is neither of the two roster validation
    messages. *)
Theorem non_string_player_throws_TypeError (req : request) (env : environment)
    (disk : gmap jsstring N) (fields : Fields) (files : Files) (v : JValue) :
  method req = u "POST" →
  ensureEnv env = Normal () →
  multipart req = Normal (fields, files) →
  v ∈ playerNames_of (players fields) →
  (∀ s, v ≠ JString s) →
  ∃ m w, cleanPlayers (playerNames_of (players fields))
         = Throw (ErrorObj TypeError m) ∧
         handler req env (initial_world disk) = (Normal (), w) ∧
         written (res w) = [Progress (u "Parsing upload") []; ErrorFrame m] ∧
         writableEnded (res w) = true ∧
         m ≠ u "At least one player name is required" ∧
         m ≠ u "Player names cannot be empty".
Proof.
  intros Hmethod Henv Hparts Hv Hnot.
  destruct (cleanPlayers_non_string _ v Hv Hnot) as (m & Hclean & Hm).
  exists m. eexists. split; [done|]. split.
  - apply (handler_trim_throws req env disk fields files); try done.
    intros Hnil. rewrite Hnil in Hv. by apply elem_of_nil in Hv.
  - simpl. split_and!; try done; by destruct Hm as [->| ->].
Qed.

(** The [players] field [[1,2]]. *)
Lemma non_string_player_throws_TypeError_witness :
  playerNames_of (Some (FieldString (u "[1,2]")))
  = [JNumber (u "1"); JNumber (u "2")] ∧
  ∃ m w, cleanPlayers (playerNames_of (Some (FieldString (u "[1,2]"))))
         = Throw (ErrorObj TypeError m) ∧
         handler {| method := u "POST";
                    multipart := Normal ({| players := Some (FieldString (u "[1,2]")) |},
                                         {| audio := None; file := None |}) |}
                 {| OPENAI_KEY := Some (u "sk-test"); rename_ok := true;
                    copy_ok := true; transcription_reply := Normal None;
                    chat_reply := Normal None |}
                 (initial_world ∅) = (Normal (), w) ∧
         written (res w) = [Progress (u "Parsing upload") []; ErrorFrame m] ∧
         writableEnded (res w) = true ∧
         m ≠ u "At least one player name is required" ∧
         m ≠ u "Player names cannot be empty".
Proof.
  split; [reflexivity|].
  apply (non_string_player_throws_TypeError
           {| method := u "POST";
              multipart := Normal ({| players := Some (FieldString (u "[1,2]")) |},
                                   {| audio := None; file := None |}) |}
           {| OPENAI_KEY := Some (u "sk-test"); rename_ok := true;
              copy_ok := true; transcription_reply := Normal None;
              chat_reply := Normal None |}
           ∅ {| players := Some (FieldString (u "[1,2]")) |}
           {| audio := None; file := None |} (JNumber (u "1"))).
  - reflexivity.
  - reflexivity.
  - reflexivity.
  - vm_compute. left.
  - intros s. discriminate.
Defined.

Section EmptyAudio.

Lemma transcribe_empty (env : environment) (audioFile : FormidableFile)
    (readablePath : jsstring) (w : world) :
  fs w !! readablePath = Some 0 →
  transcribe env audioFile readablePath w
  = (Throw (ErrorObj PlainError (u "Uploaded audio file is empty")), w).
Proof.
  intros Hsize. unfold transcribe, mbind, M_bind, stat. by rewrite Hsize.
Qed.

Lemma cleanup_run (p : jsstring) (sz : N) (w : world) :
  fs w !! p = Some sz →
  try_catchM (unlink p) (λ _, mret ()) w
  = (Normal (), with_fs (delete p (fs w)) (Unlinked p) w).
Proof. intros Hp. unfold try_catchM, unlink. by rewrite Hp. Qed.

End EmptyAudio.

(** C6. When the uploaded audio file has size zero, the request ends with
    the error frame "Uploaded audio file is empty" after the two progress
    frames of the earlier stages; no call is sent to the provider, and
    afterwards neither the upload path nor the resolved path holds a file:
    the last storage operation is the unlink of the resolved path, the only
    unlink of that path. *)
Theorem empty_audio_fails_fast (req : request) (env : environment)
    (disk : gmap jsstring N) (fields : Fields) (files : Files)
    (cleaned : list jsstring) (audioFile : FormidableFile) :
  method req = u "POST" →
  ensureEnv env = Normal () →
  multipart req = Normal (fields, files) →
  cleanPlayers (playerNames_of (players fields)) = Normal cleaned →
  cleaned ≠ [] →
  pick_audio files = Some audioFile →
  filepath audioFile ≠ [] →
  rename_ok env = true ∨ copy_ok env = true →
  store_uploads files disk !! filepath audioFile = Some 0 →
  ∃ w, handler req env (initial_world disk) = (Normal (), w) ∧
       written (res w)
       = [Progress (u "Parsing upload") [];
          Progress (u "Preparing audio for transcription") [];
          ErrorFrame (u "Uploaded audio file is empty")] ∧
       net_log w = [] ∧
       fs w !! filepath audioFile = None ∧
       fs w !! resolved_path audioFile = None ∧
       ∃ evs, fs_log w = evs ++ [Unlinked (resolved_path audioFile)] ∧
              Unlinked (resolved_path audioFile) ∉ evs.
Proof.
  intros Hmethod Henv Hparts Hclean Hne Haudio Hpath Hstorage Hsize.
  rewrite (handler_decoded req env disk fields files) by done.
  unfold try_catchM, process.
  rewrite bool_decide_eq_false_2; cycle 1.
  { pose proof (cleanPlayers_nonempty _ _ Hclean Hne).
    by destruct (playerNames_of _). }
  rewrite Hclean.
  rewrite (bind_run (lift (Normal cleaned)) _ _ (upload_world files disk) cleaned)
    by reflexivity.
  rewrite bool_decide_eq_false_2 by (by destruct cleaned).
  rewrite Haudio.
  destruct (filepath audioFile) as [|c path] eqn:Hfp; [done|]. cbv iota.
  rewrite <-Hfp in *. clear c path Hfp.
  rewrite (bind_run _ _ _ _ _ (sendProgress_run _ _ (upload_world files disk) eq_refl)).
  set (w2 := wrote _ (upload_world files disk)).
  destruct (ensureExtensionOnPath_moves env audioFile w2 0)
    as (w3 & Hmove & Hfs & Hres & Hended & Hnet & evs & Hlog & Hevs);
    [done..|].
  rewrite (bind_run _ _ _ _ _ Hmove).
  assert (fs w3 !! resolved_path audioFile = Some 0) as Hsize3.
  { rewrite Hfs. apply lookup_insert_eq. }
  set (w4 := with_fs (delete (resolved_path audioFile) (fs w3))
                     (Unlinked (resolved_path audioFile)) w3).
  erewrite bind_throw; cycle 1.
  { unfold try_finallyM. rewrite transcribe_empty by done.
    by rewrite (cleanup_run _ 0) by done. }
  fold w4. rewrite report_run; cycle 1.
  { unfold guard_set. simpl. by rewrite Hres, Hended. }
  eexists. split; [reflexivity|]. simpl. rewrite Hres, Hnet, Hfs.
  split_and!; try done.
  - destruct (decide (filepath audioFile = resolved_path audioFile)) as [Heq|Hneq].
    + rewrite Heq. apply lookup_delete_eq.
    + rewrite lookup_delete_ne, lookup_insert_ne by done.
      apply lookup_delete_eq.
  - apply lookup_delete_eq.
  - exists evs. by rewrite Hlog.
Qed.

(** A zero-byte upload [s.mp3] stored at [/tmp/3f9a]. *)
Lemma empty_audio_fails_fast_witness :
  let upload := {| filepath := u "/tmp/3f9a"; originalFilename := Some (u "s.mp3");
                   mimetype := Some (u "audio/mpeg"); size := 0 |} in
  ∃ w, handler {| method := u "POST";
                  multipart := Normal ({| players := Some (FieldArray [u "Mira"]) |},
                                       {| audio := Some (FileArray [upload]);
                                          file := None |}) |}
               {| OPENAI_KEY := Some (u "sk-test"); rename_ok := true;
                  copy_ok := true;
                  transcription_reply := Normal (Some (u "hello"));
                  chat_reply := Normal (Some (uq "{'players':[]}")) |}
               (initial_world ∅) = (Normal (), w) ∧
       written (res w)
       = [Progress (u "Parsing upload") [];
          Progress (u "Preparing audio for transcription") [];
          ErrorFrame (u "Uploaded audio file is empty")] ∧
       net_log w = [] ∧
       fs w !! filepath upload = None ∧
       fs w !! resolved_path upload = None ∧
       ∃ evs, fs_log w = evs ++ [Unlinked (resolved_path upload)] ∧
              Unlinked (resolved_path upload) ∉ evs.
Proof.
  apply (empty_audio_fails_fast
           {| method := u "POST";
              multipart :=
                Normal ({| players := Some (FieldArray [u "Mira"]) |},
                        {| audio := Some (FileArray
                                      [{| filepath := u "/tmp/3f9a";
                                          originalFilename := Some (u "s.mp3");
                                          mimetype := Some (u "audio/mpeg");
                                          size := 0 |}]);
                           file := None |}) |}
           {| OPENAI_KEY := Some (u "sk-test"); rename_ok := true;
              copy_ok := true;
              transcription_reply := Normal (Some (u "hello"));
              chat_reply := Normal (Some (uq "{'players':[]}")) |}
           ∅ {| players := Some (FieldArray [u "Mira"]) |}
           {| audio := Some (FileArray
                         [{| filepath := u "/tmp/3f9a";
                             originalFilename := Some (u "s.mp3");
                             mimetype := Some (u "audio/mpeg");
                             size := 0 |}]);
              file := None |}
           [u "Mira"]).
  - reflexivity.
  - reflexivity.
  - reflexivity.
  - reflexivity.
  - discriminate.
  - reflexivity.
  - discriminate.
  - left. reflexivity.
  - vm_compute. reflexivity.
Defined.

(** C5 does not hold of the code.  A request whose upload was stored but
    whose player names are all blank is answered by the validation error
    frame, and the handler returns without any storage operation: the temp
    file is still on disk.  (With a valid roster and a non-empty file the
    same upload is unlinked exactly once, in the [finally] block.) *)
Lemma upload_left_behind_on_validation_failure :
  let env := {| OPENAI_KEY := Some (u "sk-test"); rename_ok := true;
                copy_ok := true;
                transcription_reply := Normal (Some (u "We enter the crypt."));
                chat_reply := Normal (Some (uq "{'players':[]}")) |} in
  let upload := {| filepath := u "/tmp/3f9a"; originalFilename := Some (u "s.mp3");
                   mimetype := Some (u "audio/mpeg"); size := 2048 |} in
  let request_with (names : jsstring) :=
    {| method := u "POST";
       multipart := Normal ({| players := Some (FieldArray [names]) |},
                            {| audio := Some (FileArray [upload]);
                               file := None |}) |} in
  let blank := (handler (request_with (u "   ")) env (initial_world ∅)).2 in
  let valid := (handler (request_with (u "Mira")) env (initial_world ∅)).2 in
  written (res blank)
  = [Progress (u "Parsing upload") [];
     ErrorFrame (u "Player names cannot be empty")] ∧
  writableEnded (res blank) = true ∧
  fs blank !! u "/tmp/3f9a" = Some 2048 ∧
  fs_log blank = [] ∧
  fs valid = ∅ ∧
  fs_log valid
  = [Renamed (u "/tmp/3f9a") (u "/tmp/3f9a.mp3"); Unlinked (u "/tmp/3f9a.mp3")].
Proof. split_and!; by vm_compute. Qed.

(** * Further properties *)

(** ** Trimming *)

Section Trim.

Lemma trimStart_length (s : jsstring) : (length (trimStart s) ≤ length s)%nat.
Proof.
  induction s as [|c s IH]; simpl; [done|].
  destruct (isWhiteSpace c); simpl; lia.
Qed.

Lemma trimStart_fixed (s : jsstring) :
  trimStart s = s → s = [] ∨ ∃ c s', s = c :: s' ∧ isWhiteSpace c = false.
Proof.
  destruct s as [|c s]; [by left|]. simpl.
  destruct (isWhiteSpace c) eqn:Hc; [|right; eauto].
  intros Heq. pose proof (trimStart_length s) as Hlen.
  rewrite Heq in Hlen. simpl in Hlen. lia.
Qed.

Lemma trimStart_head (s : jsstring) : trimStart (trimStart s) = trimStart s.
Proof.
  induction s as [|c s IH]; simpl; [done|].
  destruct (isWhiteSpace c) eqn:Hc; [done|]. simpl. by rewrite Hc.
Qed.

Lemma trimStart_snoc (s : jsstring) (c : N) :
  isWhiteSpace c = false → trimStart (s ++ [c]) = trimStart s ++ [c].
Proof.
  intros Hc. induction s as [|d s IH]; simpl; [by rewrite Hc|].
  by destruct (isWhiteSpace d).
Qed.

Lemma trimEnd_cons (c : N) (s : jsstring) :
  isWhiteSpace c = false → trimEnd (c :: s) = c :: trimEnd s.
Proof.
  intros Hc. unfold trimEnd. simpl.
  by rewrite trimStart_snoc, rev_app_distr.
Qed.

Lemma trimEnd_idemp (s : jsstring) : trimEnd (trimEnd s) = trimEnd s.
Proof. unfold trimEnd. by rewrite rev_involutive, trimStart_head. Qed.

Lemma trim_idemp (s : jsstring) : trim (trim s) = trim s.
Proof.
  unfold trim. set (t := trimStart s).
  assert (trimStart t = t) as Ht by apply trimStart_head.
  assert (trimStart (trimEnd t) = trimEnd t) as ->; [|apply trimEnd_idemp].
  destruct (trimStart_fixed t Ht) as [->|(c & t' & -> & Hc)]; [done|].
  rewrite trimEnd_cons by done. simpl. by rewrite Hc.
Qed.

End Trim.

(** ** More on [parseSummaries] *)

Section ParseSummariesMore.

Lemma filter_none {A} (P : A → Prop) `{!∀ x, Decision (P x)} (l : list A) :
  (∀ x, x ∈ l → ¬ P x) → filter P l = [].
Proof.
  induction l as [|x l IH]; [done|]. intros Hall.
  rewrite filter_cons_False by (apply Hall; left).
  apply IH. intros y Hy. apply Hall. by right.
Qed.

Lemma entry_guard_not_null (entry : JValue) :
  entry ≠ JNull → entry_guard entry = Normal (entry_ok entry).
Proof.
  intros Hnull. destruct entry as [| | | | |ms]; try done.
  unfold entry_guard, entry_ok. simpl.
  destruct (lookup_member (u "name") ms) as [[| | | | |]|]; try done.
Qed.

Lemma filterM_guard_null (entries : list JValue) :
  JNull ∈ entries → ∃ e, filterM entry_guard entries = Throw e.
Proof.
  induction entries as [|x entries IH]; [by intros ?%elem_of_nil|].
  intros Hin. simpl.
  assert (x = JNull ∨ x ≠ JNull) as [->|Hx] by (destruct x; eauto).
  - simpl. eauto.
  - rewrite entry_guard_not_null by done. simpl.
    apply elem_of_cons in Hin as [?|Hin]; [done|].
    destruct (IH Hin) as [e ->]. simpl. eauto.
Qed.

Lemma filterM_guard_no_null (entries : list JValue) :
  JNull ∉ entries →
  filterM entry_guard entries
  = Normal (filter (λ entry, entry_ok entry = true) entries).
Proof.
  induction entries as [|x entries IH]; [done|].
  intros [Hx Hin]%not_elem_of_cons. simpl.
  rewrite entry_guard_not_null by done. simpl. rewrite IH by done. simpl.
  destruct (entry_ok x) eqn:Hok.
  - by rewrite filter_cons_True.
  - rewrite filter_cons_False; [done|]. by rewrite Hok.
Qed.

End ParseSummariesMore.

(** X1. When the model output supplies an entry for every roster name, the
    summaries are exactly the supplied entries, in the order of the model
    output: no placeholder is appended. *)
Theorem complete_output_gets_no_placeholder (raw : jsstring)
    (roster : list jsstring) (model : list PlayerSummary) :
  supplied raw = Some model →
  (∀ n, n ∈ roster → n ∈ map name model) →
  ∃ r, parseSummaries raw roster = Normal r ∧ summaries r = model.
Proof.
  intros Hmodel Hall.
  destruct (parseSummaries_paths raw roster) as (r & Hr & _ & Hpath).
  rewrite Hmodel in Hpath. exists r. split; [done|]. rewrite Hpath.
  unfold reconcile.
  assert (filter (λ n, n ∉ map name model) (Set_new roster) = []) as ->.
  { apply filter_none. intros n Hn Hout. rewrite elem_of_Set_new in Hn.
    by apply Hout, Hall. }
  by rewrite app_nil_r.
Qed.

Lemma complete_output_gets_no_placeholder_witness :
  ∃ r, parseSummaries
         (uq "{'players':[{'name':'Tobo','points':['Picked the lock']},{'name':'Mira','points':['Found a key']}]}")
         [u "Mira"; u "Tobo"] = Normal r ∧
       summaries r
       = [ {| name := u "Tobo"; points := [u "Picked the lock"] |};
           {| name := u "Mira"; points := [u "Found a key"] |} ].
Proof.
  apply complete_output_gets_no_placeholder.
  - vm_compute. reflexivity.
  - intros n Hn. vm_compute.
    apply elem_of_cons in Hn as [->|Hn]; [right; left|].
    apply list_elem_of_singleton in Hn as ->. left.
Defined.

Section Placeholders.

Lemma Set_new_acc_sublist (l acc : list jsstring) :
  ∃ rest, fold_left (λ s y, Set_add y s) l acc = acc ++ rest ∧
          rest `sublist_of` l.
Proof.
  revert acc. induction l as [|y l IH]; intros acc; simpl.
  - exists []. by rewrite app_nil_r.
  - destruct (decide (y ∈ acc)) as [Hin|Hout].
    + assert (Set_add y acc = acc) as ->.
      { unfold Set_add. by rewrite decide_True. }
      destruct (IH acc) as (rest & -> & Hrest).
      exists rest. split; [done|]. by apply sublist_cons.
    + assert (Set_add y acc = acc ++ [y]) as ->.
      { unfold Set_add. by rewrite decide_False. }
      destruct (IH (acc ++ [y])) as (rest & -> & Hrest).
      exists (y :: rest). split; [by rewrite <-app_assoc|].
      by apply sublist_skip.
Qed.

Lemma Set_new_sublist (l : list jsstring) : Set_new l `sublist_of` l.
Proof.
  unfold Set_new. by destruct (Set_new_acc_sublist l []) as (rest & -> & ?).
Qed.

Lemma body_overall_trimmed (raw : jsstring) (roster : list jsstring)
    (r : ParsedSummaryResult) :
  parseSummaries_body raw roster = Normal r → trimmed (overallSummary r).
Proof.
  unfold parseSummaries_body, trimmed.
  destruct (JSON_parse raw) as [parsed|e]; simpl; [|done].
  destruct (get parsed (u "players")) as [[[| | | |entries|]|]|]; simpl;
    try done.
  destruct (filterM entry_guard entries) as [kept|]; simpl; [|done].
  destruct (get parsed (u "dmSummary")) as [[[| | |s| |]|]|]; simpl;
    try done; intros [= <-]; simpl; try (by vm_compute).
  case_bool_decide; [apply trim_idemp|by vm_compute].
Qed.

End Placeholders.

(** X2. On the reconciliation path the supplied entries come first, as
    they are; after them comes one placeholder for each roster name that
    no supplied entry carries.  The placeholders follow the order of the
    roster and none is repeated, even when the roster repeats a name. *)
Theorem placeholders_follow_roster_order (raw : jsstring)
    (roster : list jsstring) (model : list PlayerSummary) :
  supplied raw = Some model →
  ∃ r missing,
    parseSummaries raw roster = Normal r ∧
    summaries r
    = model ++
      map (λ n, {| name := n;
                   points := [u "No summary was generated for this player."] |})
          missing ∧
    missing `sublist_of` roster ∧
    NoDup missing ∧
    ∀ n, n ∈ missing ↔ n ∈ roster ∧ n ∉ map name model.
Proof.
  intros Hmodel.
  destruct (parseSummaries_paths raw roster) as (r & Hr & _ & Hpath).
  rewrite Hmodel in Hpath.
  exists r, (filter (λ n, n ∉ map name model) (Set_new roster)).
  split_and!; [done|done| | |].
  - etrans; [apply sublist_filter|apply Set_new_sublist].
  - apply NoDup_filter, NoDup_Set_new.
  - intros n. by rewrite list_elem_of_filter, elem_of_Set_new, (comm and).
Qed.

Lemma placeholders_follow_roster_order_witness :
  ∃ r missing,
    parseSummaries
      (uq "{'players':[{'name':'Mira','points':['Found a key']}]}")
      [u "Tobo"; u "Mira"; u "Ann"; u "Tobo"] = Normal r ∧
    summaries r
    = [ {| name := u "Mira"; points := [u "Found a key"] |} ] ++
      map (λ n, {| name := n;
                   points := [u "No summary was generated for this player."] |})
          missing ∧
    missing `sublist_of` [u "Tobo"; u "Mira"; u "Ann"; u "Tobo"] ∧
    NoDup missing ∧
    ∀ n, n ∈ missing ↔
         n ∈ [u "Tobo"; u "Mira"; u "Ann"; u "Tobo"] ∧
         n ∉ map name [ {| name := u "Mira"; points := [u "Found a key"] |} ].
Proof.
  apply placeholders_follow_roster_order. vm_compute. reflexivity.
Defined.

(** X3. A [null] among the entries of the [players] array makes the entry
    guard throw, so the whole output is discarded: the result is the
    fallback, whatever valid entries the array also holds. *)
Theorem null_entry_discards_output (raw : jsstring) (roster : list jsstring)
    (entries : list JValue) :
  players_entries raw = Some entries →
  JNull ∈ entries →
  parseSummaries raw roster
  = Normal {| overallSummary := u "The AI response could not be parsed.";
              summaries :=
                map (λ n, {| name := n;
                             points := [u "The AI response could not be parsed."] |})
                    roster |}.
Proof.
  intros Hentries Hnull.
  destruct (filterM_guard_null entries Hnull) as [e He].
  unfold parseSummaries.
  by rewrite (body_guard_throws raw roster entries e).
Qed.

Lemma null_entry_discards_output_witness :
  parseSummaries
    (uq "{'dmSummary':'A long night.','players':[{'name':'Mira','points':['Found a key']},null]}")
    [u "Mira"]
  = Normal {| overallSummary := u "The AI response could not be parsed.";
              summaries :=
                map (λ n, {| name := n;
                             points := [u "The AI response could not be parsed."] |})
                    [u "Mira"] |}.
Proof.
  apply (null_entry_discards_output _ _
           [JObject [(u "name", JString (u "Mira"));
                     (u "points", JArray [JString (u "Found a key")])];
            JNull]).
  - vm_compute. reflexivity.
  - right. left.
Defined.

(** X4. Entries of the [players] array that are not [null] never make the
    parser fall back: an entry that is not an object, or lacks a string
    [name] or an array [points], is skipped, and the others are
    reconciled against the roster in their order. *)
Theorem malformed_entries_are_skipped (raw : jsstring) (roster : list jsstring)
    (entries : list JValue) :
  players_entries raw = Some entries →
  JNull ∉ entries →
  ∃ r, parseSummaries raw roster = Normal r ∧
       summaries r
       = reconcile (map entry_summary
                        (filter (λ entry, entry_ok entry = true) entries))
                   roster.
Proof.
  intros Hentries Hnull.
  pose proof (filterM_guard_no_null entries Hnull) as Hkept.
  destruct (body_reconciles raw roster entries _ Hentries Hkept)
    as (r & Hbody & Hsummaries & _).
  exists r. split; [|done]. unfold parseSummaries. by rewrite Hbody.
Qed.

Lemma malformed_entries_are_skipped_witness :
  ∃ r, parseSummaries
         (uq "{'players':[7,'Mira',{'name':'Mira'},{'name':3,'points':[]},[],{'name':'Tobo','points':['Kept watch',5,'  ']}]}")
         [u "Mira"; u "Tobo"] = Normal r ∧
       summaries r
       = [ {| name := u "Tobo"; points := [u "Kept watch"] |};
           {| name := u "Mira";
              points := [u "No summary was generated for this player."] |} ].
Proof.
  destruct (malformed_entries_are_skipped
              (uq "{'players':[7,'Mira',{'name':'Mira'},{'name':3,'points':[]},[],{'name':'Tobo','points':['Kept watch',5,'  ']}]}")
              [u "Mira"; u "Tobo"]
              [JNumber (u "7"); JString (u "Mira");
               JObject [(u "name", JString (u "Mira"))];
               JObject [(u "name", JNumber (u "3")); (u "points", JArray [])];
               JArray [];
               JObject [(u "name", JString (u "Tobo"));
                        (u "points", JArray [JString (u "Kept watch");
                                             JNumber (u "5");
                                             JString (u "  ")])]])
    as (r & Hr & Hsummaries).
  - vm_compute. reflexivity.
  - intros Hin. repeat (apply elem_of_cons in Hin as [Hin|Hin]; [discriminate|]).
    by apply elem_of_nil in Hin.
  - exists r. split; [exact Hr|]. rewrite Hsummaries. vm_compute. reflexivity.
Defined.

(** X5. Every text of the result is trimmed: trimming the overall summary
    or any point of any summary again changes nothing.  (Names are not
    trimmed: they are kept as the model or the roster spells them.) *)
Theorem result_texts_are_trimmed (raw : jsstring) (roster : list jsstring) :
  ∃ r, parseSummaries raw roster = Normal r ∧
       trim (overallSummary r) = overallSummary r ∧
       ∀ s, s ∈ summaries r → ∀ p, p ∈ points s → trim p = p.
Proof.
  unfold parseSummaries.
  destruct (parseSummaries_body raw roster) as [r|e] eqn:Hbody; simpl.
  - exists r. split; [done|]. split; [by apply (body_overall_trimmed raw roster)|].
    destruct (parseSummaries_paths raw roster) as (r' & Hr' & _ & Hpath).
    unfold parseSummaries in Hr'. rewrite Hbody in Hr'. simpl in Hr'.
    injection Hr' as <-. unfold supplied in Hpath.
    assert (∀ s, s ∈ map (placeholder NOT_PARSED) roster →
                 ∀ p, p ∈ points s → trim p = p) as Hfallback.
    { intros s (n & -> & _)%list_elem_of_fmap. simpl.
      intros p ->%list_elem_of_singleton. by vm_compute. }
    destruct (players_entries raw) as [entries|]; [|by subst r].
    destruct (filterM entry_guard entries) as [kept|]; [|by subst r].
    rewrite Hpath. unfold reconcile. intros s [Hs|Hs]%elem_of_app.
    + apply list_elem_of_fmap in Hs as (entry & -> & _).
      unfold entry_summary. simpl.
      destruct (get entry (u "points")) as [[[| | | |ps|]|]|]; simpl;
        try (by intros ? ?%elem_of_nil).
      intros p (point & -> & Hpoint)%list_elem_of_fmap.
      apply list_elem_of_filter in Hpoint as [Hguard _].
      destruct point; try discriminate. simpl. apply trim_idemp.
    + apply list_elem_of_fmap in Hs as (n & -> & _). simpl.
      intros p ->%list_elem_of_singleton. by vm_compute.
  - eexists. split; [done|]. simpl. split; [by vm_compute|].
    intros s (n & -> & _)%list_elem_of_fmap. simpl.
    intros p ->%list_elem_of_singleton. by vm_compute.
Qed.

(** ** More on extension resolution *)

Section ExtensionMore.

Lemma regex_exec_inv (s g : jsstring) :
  regex_exec s = Some g →
  ∃ pre, s = pre ++ 46 :: g ∧ g ≠ [] ∧ forallb isAlnum g = true.
Proof.
  induction s as [|c s IH]; [done|].
  unfold regex_exec; fold regex_exec. unfold match_here.
  destruct ((c =? 46) && bool_decide (s ≠ []) && forallb isAlnum s) eqn:Hm.
  - intros [= <-]. apply andb_prop in Hm as [Hm Halnum].
    apply andb_prop in Hm as [Hc Hne].
    apply N.eqb_eq in Hc as ->. apply bool_decide_eq_true in Hne.
    by exists [].
  - intros Hs. destruct (IH Hs) as (pre & -> & Hne & Halnum).
    by exists (c :: pre).
Qed.

Lemma lowerUnit_alnum (c : N) :
  isAlnum c = true → isLowerAlnum (lowerUnit c) = true.
Proof.
  unfold isAlnum, isLowerAlnum, lowerUnit, isDigit, isLowerAscii, isUpperAscii.
  intros H.
  destruct (65 <=? c) eqn:H1, (c <=? 90) eqn:H2; simpl in *;
    rewrite ?N.leb_le, ?N.leb_gt in *.
  - apply orb_true_iff. right. apply andb_true_iff.
    rewrite !N.leb_le. lia.
  - by rewrite orb_false_r in H.
  - by rewrite orb_false_r in H.
  - by rewrite orb_false_r in H.
Qed.

Lemma toLowerCase_alnum (g : jsstring) :
  forallb isAlnum g = true → forallb isLowerAlnum (toLowerCase g) = true.
Proof.
  induction g as [|c g IH]; [done|]. simpl.
  intros [Hc Hg]%andb_prop. by rewrite lowerUnit_alnum, IH.
Qed.

Lemma lowerUnit_lower (c : N) :
  isLowerAlnum c = true → lowerUnit c = c.
Proof.
  unfold isLowerAlnum, lowerUnit, isDigit, isLowerAscii, isUpperAscii.
  intros H. destruct (65 <=? c) eqn:H1, (c <=? 90) eqn:H2; simpl; try done.
  exfalso. rewrite N.leb_le in H1, H2.
  apply orb_prop in H as [H|H]; apply andb_prop in H as [H3 H4];
    rewrite N.leb_le in H3, H4; lia.
Qed.

Lemma toLowerCase_lower (g : jsstring) :
  forallb isLowerAlnum g = true → toLowerCase g = g.
Proof.
  induction g as [|c g IH]; [done|]. simpl.
  intros [Hc Hg]%andb_prop. by rewrite lowerUnit_lower, IH.
Qed.

Lemma toLowerCase_app (a b : jsstring) :
  toLowerCase (a ++ b) = toLowerCase a ++ toLowerCase b.
Proof. unfold toLowerCase. apply map_app. Qed.

Lemma startsWith_app (p r : jsstring) : startsWith (p ++ r) p = true.
Proof.
  induction p as [|c p IH]; [by destruct r|]. simpl.
  by rewrite N.eqb_refl, IH.
Qed.

Lemma endsWith_app (a b : jsstring) : endsWith (a ++ b) b = true.
Proof. unfold endsWith. rewrite rev_app_distr. apply startsWith_app. Qed.

Lemma extensionFromFilename_lower (f : jsstring) :
  extensionFromFilename (Some f) = [] ∨
  forallb isLowerAlnum (extensionFromFilename (Some f)) = true.
Proof.
  unfold extensionFromFilename. destruct f as [|c f]; [by left|].
  destruct (regex_exec (c :: f)) as [g|] eqn:Hexec; [right|by left].
  destruct (regex_exec_inv _ _ Hexec) as (pre & _ & _ & Halnum).
  by apply toLowerCase_alnum.
Qed.

End ExtensionMore.

(** X6. Whatever the original filename is, the extension taken from it is
    either empty or a run of lower-case letters and digits that the
    lower-cased filename ends with, after a dot. *)
Theorem filename_extension_is_lowercase_suffix (fileName : jsstring) :
  extensionFromFilename (Some fileName) = [] ∨
  (forallb isLowerAlnum (extensionFromFilename (Some fileName)) = true ∧
   endsWith (toLowerCase fileName)
            (u "." ++ extensionFromFilename (Some fileName)) = true).
Proof.
  unfold extensionFromFilename. destruct fileName as [|c f]; [by left|].
  destruct (regex_exec (c :: f)) as [g|] eqn:Hexec; [right|by left].
  destruct (regex_exec_inv _ _ Hexec) as (pre & -> & Hne & Halnum).
  split; [by apply toLowerCase_alnum|].
  rewrite toLowerCase_app. apply endsWith_app.
Qed.

(** X7. When the upload is on disk and the storage lets the rename or the
    copy through, resolution completes: it returns the upload path itself
    or that path with a dot and the extension appended, the file is then
    at the returned path with its size and no longer at the old one, every
    other path is as before, and nothing is written to the response or
    sent to the provider. *)
Theorem resolution_moves_upload (env : environment) (file : FormidableFile)
    (w : world) (sz : N) :
  fs w !! filepath file = Some sz →
  rename_ok env = true ∨ copy_ok env = true →
  ∃ p w', ensureExtensionOnPath env file w = (Normal p, w') ∧
          (p = filepath file ∨
           p = filepath file ++ u "." ++ resolveExtension file) ∧
          fs w' !! p = Some sz ∧
          (p ≠ filepath file → fs w' !! filepath file = None) ∧
          (∀ q, q ≠ p → q ≠ filepath file → fs w' !! q = fs w !! q) ∧
          res w' = res w ∧ net_log w' = net_log w.
Proof.
  intros Hfile Hstorage.
  destruct (ensureExtensionOnPath_moves env file w sz Hfile Hstorage)
    as (w' & Hrun & Hfs & Hres & _ & Hnet & _).
  exists (resolved_path file), w'. split; [done|]. rewrite Hfs.
  split_and!; try done.
  - unfold resolved_path. destruct (resolveExtension file); [by left|].
    destruct (endsWith _ _); [by left|by right].
  - apply lookup_insert_eq.
  - intros Hne. rewrite lookup_insert_ne by done. apply lookup_delete_eq.
  - intros q Hq Hq'. by rewrite lookup_insert_ne, lookup_delete_ne.
Qed.

Lemma resolution_moves_upload_witness :
  let env := {| OPENAI_KEY := None; rename_ok := false; copy_ok := true;
                transcription_reply := Normal None;
                chat_reply := Normal None |} in
  let file := {| filepath := u "/tmp/3f9a"; originalFilename := Some (u "take 2");
                 mimetype := Some (u "Audio/X-WAV"); size := 7 |} in
  let w := initial_world {[ u "/tmp/3f9a" := 7; u "/tmp/other" := 1 ]} in
  ∃ p w', ensureExtensionOnPath env file w = (Normal p, w') ∧
          (p = filepath file ∨
           p = filepath file ++ u "." ++ resolveExtension file) ∧
          fs w' !! p = Some 7 ∧
          (p ≠ filepath file → fs w' !! filepath file = None) ∧
          (∀ q, q ≠ p → q ≠ filepath file → fs w' !! q = fs w !! q) ∧
          res w' = res w ∧ net_log w' = net_log w.
Proof.
  apply resolution_moves_upload; [by vm_compute|by right].
Defined.

Section Idempotence.

Lemma assoc_value (k : jsstring) (l : list (jsstring * jsstring)) (v : jsstring) :
  assoc k l = Some v → v ∈ map snd l.
Proof.
  induction l as [|[k' v'] l IH]; [done|]. simpl.
  destruct (decide (k' = k)); [intros [= ->]; left|right; auto].
Qed.

Lemma mime_map_lowercase (v : jsstring) :
  v ∈ map snd mime_map → toLowerCase v = v.
Proof.
  intros Hv. vm_compute in Hv.
  repeat (apply elem_of_cons in Hv as [->|Hv]; [reflexivity|]).
  by apply elem_of_nil in Hv.
Qed.

Lemma resolveExtension_lowercase (file : FormidableFile) :
  resolveExtension file ∉ map snd inherited_map →
  toLowerCase (resolveExtension file) = resolveExtension file.
Proof.
  unfold resolveExtension.
  destruct (extensionFromFilename (originalFilename file)) as [|c e] eqn:Hname.
  - unfold extensionFromMime. destruct (mimetype file) as [[|c m]|]; try done.
    destruct (assoc _ _) as [v|] eqn:Hassoc; [|done].
    apply assoc_value in Hassoc. rewrite map_app in Hassoc.
    apply elem_of_app in Hassoc as [Hv|Hv]; [|done].
    intros _. by apply mime_map_lowercase.
  - intros _. destruct (originalFilename file) as [f|]; [|done].
    destruct (extensionFromFilename_lower f) as [Hnil|Hlow].
    + by rewrite Hnil in Hname.
    + rewrite <-Hname. by apply toLowerCase_lower.
Qed.

End Idempotence.

(** X8. Resolution settles in one step: when it has completed, resolving
    the same upload again at the returned path returns that path and
    changes nothing.  This holds unless the declared type names a property
    the MIME table inherits ([constructor], [__proto__]), whose text is not
    lower case. *)
Theorem resolution_settles (env : environment) (file : FormidableFile)
    (w : world) (sz : N) :
  fs w !! filepath file = Some sz →
  rename_ok env = true ∨ copy_ok env = true →
  resolveExtension file ∉ map snd inherited_map →
  ∃ p w', ensureExtensionOnPath env file w = (Normal p, w') ∧
          ensureExtensionOnPath env (at_path p file) w' = (Normal p, w').
Proof.
  intros Hfile Hstorage Hplain.
  destruct (ensureExtensionOnPath_moves env file w sz Hfile Hstorage)
    as (w' & Hrun & _).
  exists (resolved_path file), w'. split; [done|].
  pose proof (resolveExtension_lowercase file Hplain) as Hlow.
  assert (resolveExtension file ≠ [] →
          endsWith (toLowerCase (resolved_path file))
                   (u "." ++ resolveExtension file) = true) as Hends.
  { intros Hne. unfold resolved_path.
    destruct (resolveExtension file) as [|c ext] eqn:Hext; [done|].
    destruct (endsWith (toLowerCase (filepath file)) _) eqn:Hends; [done|].
    rewrite toLowerCase_app.
    change (toLowerCase (u "." ++ c :: ext)) with (46 :: toLowerCase (c :: ext)).
    rewrite Hlow. apply (endsWith_app _ (46 :: c :: ext)). }
  unfold ensureExtensionOnPath.
  change (resolveExtension (at_path _ file)) with (resolveExtension file).
  cbn [filepath at_path].
  destruct (resolveExtension file) as [|c ext] eqn:Hext; [done|].
  by rewrite Hends.
Qed.

Lemma resolution_settles_witness :
  let env := {| OPENAI_KEY := None; rename_ok := true; copy_ok := false;
                transcription_reply := Normal None;
                chat_reply := Normal None |} in
  let file := {| filepath := u "/tmp/3f9a"; originalFilename := Some (u "voice.MP3");
                 mimetype := None; size := 7 |} in
  ∃ p w', ensureExtensionOnPath env file (initial_world {[ u "/tmp/3f9a" := 7 ]})
          = (Normal p, w') ∧
          ensureExtensionOnPath env (at_path p file) w' = (Normal p, w').
Proof.
  apply (resolution_settles _ _ _ 7); [by vm_compute|by left|].
  vm_compute. intros Hin.
  repeat (apply elem_of_cons in Hin as [Hin|Hin]; [discriminate|]).
  by apply elem_of_nil in Hin.
Defined.

(** ** The handler past validation *)

Section PastValidation.

Variables (req : request) (env : environment) (disk : gmap jsstring N).
Variables (fields : Fields) (files : Files).
Variables (cleaned : list jsstring) (audioFile : FormidableFile).

Hypothesis Hmethod : method req = u "POST".
Hypothesis Henv : ensureEnv env = Normal ().
Hypothesis Hparts : multipart req = Normal (fields, files).
Hypothesis Hclean : cleanPlayers (playerNames_of (players fields)) = Normal cleaned.
Hypothesis Hroster : cleaned ≠ [].
Hypothesis Haudio : pick_audio files = Some audioFile.
Hypothesis Hpath : filepath audioFile ≠ [].

Lemma process_valid (w : world) :
  process env fields files w = after_validation env cleaned audioFile w.
Proof.
  unfold process.
  rewrite bool_decide_eq_false_2; cycle 1.
  { pose proof (cleanPlayers_nonempty _ _ Hclean Hroster).
    by destruct (playerNames_of _). }
  rewrite Hclean.
  rewrite (bind_run (lift (Normal cleaned)) _ _ w cleaned) by reflexivity.
  rewrite bool_decide_eq_false_2 by (by destruct cleaned).
  rewrite Haudio. by destruct (filepath audioFile).
Qed.

Lemma handler_valid :
  handler req env (initial_world disk)
  = try_catchM (after_validation env cleaned audioFile) report
               (upload_world files disk).
Proof.
  rewrite (handler_decoded req env disk fields files) by done.
  unfold try_catchM. by rewrite process_valid.
Qed.

(** Past a completed resolution the handler runs [after_resolution], in a
    world where two frames are written and the upload is at the resolved
    path. *)
Lemma handler_resolved (sz : N) :
  store_uploads files disk !! filepath audioFile = Some sz →
  rename_ok env = true ∨ copy_ok env = true →
  ∃ w3, handler req env (initial_world disk)
        = try_catchM (after_resolution env cleaned audioFile
                        (resolved_path audioFile)) report w3 ∧
        res w3 = {| statusCode := 200; headers := streaming_headers;
                    jsonBody := None;
                    written := [Progress (u "Parsing upload") [];
                                Progress (u "Preparing audio for transcription") []];
                    writableEnded := false |} ∧
        responseEnded w3 = false ∧
        net_log w3 = [] ∧
        fs w3 = <[resolved_path audioFile := sz]>
                  (delete (filepath audioFile) (store_uploads files disk)) ∧
        Unlinked (resolved_path audioFile) ∉ fs_log w3.
Proof.
  intros Hfile Hstorage. rewrite handler_valid.
  unfold try_catchM, after_validation.
  rewrite (bind_run _ _ _ _ _ (sendProgress_run _ _ (upload_world files disk) eq_refl)).
  set (w2 := wrote _ (upload_world files disk)).
  destruct (ensureExtensionOnPath_moves env audioFile w2 sz)
    as (w3 & Hmove & Hfs & Hres & Hended & Hnet & evs & Hlog & Hevs);
    [done..|].
  rewrite (bind_run _ _ _ _ _ Hmove).
  exists w3. split; [done|]. rewrite Hres, Hended, Hnet, Hfs, Hlog.
  by split_and!.
Qed.

End PastValidation.

Section AfterResolution.

(** The stages after the resolution, run under the outer [catch]: the
    frames and calls of [stage_outcome] are added, the response is ended,
    and the file at the readable path is unlinked. *)
Lemma after_resolution_run (env : environment) (cleaned : list jsstring)
    (audioFile : FormidableFile) (rp : jsstring) (sz : N) (w : world) :
  fs w !! rp = Some sz →
  guard_set w = false →
  ∃ w', try_catchM (after_resolution env cleaned audioFile rp) report w
        = (Normal (), w') ∧
        written (res w')
        = written (res w) ++ (stage_outcome env cleaned audioFile rp sz).1 ∧
        net_log w'
        = net_log w ++ (stage_outcome env cleaned audioFile rp sz).2 ∧
        fs w' = delete rp (fs w) ∧
        fs_log w' = fs_log w ++ [Unlinked rp] ∧
        writableEnded (res w') = true ∧
        statusCode (res w') = statusCode (res w) ∧
        headers (res w') = headers (res w) ∧
        jsonBody (res w') = jsonBody (res w).
Proof.
  destruct w as [[sc hd jb wr we] re disk fl nl]. unfold guard_set. simpl.
  intros Hfile [-> ->]%orb_false_iff.
  unfold stage_outcome, after_resolution, try_finallyM, transcribe,
    try_catchM, mbind, M_bind, stat, unlink, report, throw, lift.
  repeat (rewrite ?Hfile; simpl).
  destruct (sz =? 0); repeat (rewrite ?Hfile; simpl).
  { eexists. split; [reflexivity|]. simpl. by rewrite ?app_nil_r. }
  destruct (transcription_reply env) as [[text|]|e];
    repeat (rewrite ?Hfile; simpl);
    try (eexists; split; [reflexivity|]; simpl;
         by rewrite <-?app_assoc, ?app_nil_r).
  destruct (trim text) as [|c t] eqn:Htrim;
    repeat (rewrite ?Hfile; simpl);
    try (eexists; split; [reflexivity|]; simpl;
         by rewrite <-?app_assoc, ?app_nil_r).
  unfold summarize, mbind, M_bind, lift. simpl.
  destruct (chat_reply env) as [[[|c' content]|]|e];
    repeat (rewrite ?Hfile; simpl);
    try (eexists; split; [reflexivity|]; simpl;
         by rewrite <-?app_assoc, ?app_nil_r).
  destruct (parseSummaries (c' :: content) cleaned) as [parsed|e];
    repeat (rewrite ?Hfile; simpl);
    try (eexists; split; [reflexivity|]; simpl;
         by rewrite <-?app_assoc, ?app_nil_r).
Qed.

End AfterResolution.

Section ReachedTranscription.

Variables (req : request) (env : environment) (disk : gmap jsstring N).
Variables (fields : Fields) (files : Files).
Variables (cleaned : list jsstring) (audioFile : FormidableFile) (sz : N).

Hypothesis Hmethod : method req = u "POST".
Hypothesis Henv : ensureEnv env = Normal ().
Hypothesis Hparts : multipart req = Normal (fields, files).
Hypothesis Hclean : cleanPlayers (playerNames_of (players fields)) = Normal cleaned.
Hypothesis Hroster : cleaned ≠ [].
Hypothesis Haudio : pick_audio files = Some audioFile.
Hypothesis Hpath : filepath audioFile ≠ [].
Hypothesis Hfile : store_uploads files disk !! filepath audioFile = Some sz.
Hypothesis Hstorage : rename_ok env = true ∨ copy_ok env = true.

(** A request that reaches the transcription stage. *)
Lemma handler_reached :
  ∃ w, handler req env (initial_world disk) = (Normal (), w) ∧
       written (res w)
       = [Progress (u "Parsing upload") [];
          Progress (u "Preparing audio for transcription") []] ++
         (stage_outcome env cleaned audioFile (resolved_path audioFile) sz).1 ∧
       net_log w
       = (stage_outcome env cleaned audioFile (resolved_path audioFile) sz).2 ∧
       fs w !! filepath audioFile = None ∧
       fs w !! resolved_path audioFile = None ∧
       (∀ q, q ≠ filepath audioFile → q ≠ resolved_path audioFile →
             fs w !! q = store_uploads files disk !! q) ∧
       (∃ evs, fs_log w = evs ++ [Unlinked (resolved_path audioFile)] ∧
               Unlinked (resolved_path audioFile) ∉ evs) ∧
       statusCode (res w) = 200 ∧ jsonBody (res w) = None ∧
       writableEnded (res w) = true.
Proof.
  destruct (handler_resolved req env disk fields files cleaned audioFile
              Hmethod Henv Hparts Hclean Hroster Haudio Hpath sz Hfile Hstorage)
    as (w3 & -> & Hres & Hended & Hnet & Hfs & Hlog).
  destruct (after_resolution_run env cleaned audioFile
              (resolved_path audioFile) sz w3)
    as (w & Hrun & Hwritten & Hcalls & Hdisk & Hevents & Hend & Hstatus & _ & Hjson).
  { rewrite Hfs. apply lookup_insert_eq. }
  { unfold guard_set. by rewrite Hended, Hres. }
  exists w. split; [done|].
  rewrite Hwritten, Hcalls, Hdisk, Hevents, Hstatus, Hjson, Hres, Hnet, Hfs.
  simpl. split_and!; try done.
  - destruct (decide (filepath audioFile = resolved_path audioFile)) as [Heq|Hneq].
    + rewrite Heq. apply lookup_delete_eq.
    + rewrite lookup_delete_ne, lookup_insert_ne by done.
      apply lookup_delete_eq.
  - apply lookup_delete_eq.
  - intros q Hq Hq'.
    by rewrite lookup_delete_ne, lookup_insert_ne, lookup_delete_ne.
  - by exists (fs_log w3).
Qed.

End ReachedTranscription.

(** X9. A request whose roster and audio file are accepted, whose file is
    not empty and whose two provider calls answer with a non-blank
    transcript and a non-empty completion ends with a result frame after
    six progress frames.  The result carries the trimmed transcript and
    what [parseSummaries] makes of the completion for the cleaned roster;
    the provider received one transcription call and then one completion
    call; the temp file is gone. *)
Theorem successful_request (req : request) (env : environment)
    (disk : gmap jsstring N) (fields : Fields) (files : Files)
    (cleaned : list jsstring) (audioFile : FormidableFile) (sz : N)
    (text content : jsstring) :
  method req = u "POST" →
  ensureEnv env = Normal () →
  multipart req = Normal (fields, files) →
  cleanPlayers (playerNames_of (players fields)) = Normal cleaned →
  cleaned ≠ [] →
  pick_audio files = Some audioFile →
  filepath audioFile ≠ [] →
  store_uploads files disk !! filepath audioFile = Some sz →
  sz ≠ 0 →
  rename_ok env = true ∨ copy_ok env = true →
  transcription_reply env = Normal (Some text) →
  trim text ≠ [] →
  chat_reply env = Normal (Some content) →
  content ≠ [] →
  ∃ w parsed,
    handler req env (initial_world disk) = (Normal (), w) ∧
    parseSummaries content cleaned = Normal parsed ∧
    written (res w) = success_frames (trim text) parsed ∧
    net_log w
    = [Transcribe (resolved_path audioFile)
                  (upload_name audioFile (resolved_path audioFile));
       ChatCompletion cleaned (trim text)] ∧
    fs w !! filepath audioFile = None ∧
    fs w !! resolved_path audioFile = None.
Proof.
  intros Hmethod Henv Hparts Hclean Hroster Haudio Hpath Hfile Hsz Hstorage
    Hreply Htext Hchat Hcontent.
  destruct (handler_reached req env disk fields files cleaned audioFile sz)
    as (w & Hrun & Hwritten & Hcalls & Hgone & Hgone' & _); try done.
  destruct (parseSummaries_paths content cleaned) as (parsed & Hparsed & _).
  exists w, parsed. split; [done|]. split; [done|].
  revert Hwritten Hcalls. unfold stage_outcome.
  rewrite (proj2 (N.eqb_neq sz 0)) by done. rewrite Hreply, Hchat, Hparsed.
  destruct (trim text) as [|c t]; [done|].
  destruct content as [|c' content]; [done|].
  simpl. by intros -> ->.
Qed.

Lemma successful_request_witness :
  let upload := {| filepath := u "/tmp/3f9a"; originalFilename := Some (u " s.mp3 ");
                   mimetype := Some (u "audio/mpeg"); size := 2048 |} in
  let env := {| OPENAI_KEY := Some (u "sk-test"); rename_ok := true;
                copy_ok := true;
                transcription_reply := Normal (Some (u " We enter the crypt. "));
                chat_reply :=
                  Normal (Some (uq "{'dmSummary':'A crypt.','players':[{'name':'Mira','points':['Led the way']}]}")) |} in
  ∃ w parsed,
    handler {| method := u "POST";
               multipart := Normal ({| players := Some (FieldArray [uq "['Mira',' Tobo ']"]) |},
                                    {| audio := Some (FileArray [upload]);
                                       file := None |}) |}
            env (initial_world ∅) = (Normal (), w) ∧
    parseSummaries
      (uq "{'dmSummary':'A crypt.','players':[{'name':'Mira','points':['Led the way']}]}")
      [u "Mira"; u "Tobo"] = Normal parsed ∧
    written (res w) = success_frames (trim (u " We enter the crypt. ")) parsed ∧
    net_log w
    = [Transcribe (resolved_path upload)
                  (upload_name upload (resolved_path upload));
       ChatCompletion [u "Mira"; u "Tobo"] (trim (u " We enter the crypt. "))] ∧
    fs w !! filepath upload = None ∧
    fs w !! resolved_path upload = None.
Proof.
  apply (successful_request
           {| method := u "POST";
              multipart :=
                Normal ({| players := Some (FieldArray [uq "['Mira',' Tobo ']"]) |},
                        {| audio := Some (FileArray
                                      [{| filepath := u "/tmp/3f9a";
                                          originalFilename := Some (u " s.mp3 ");
                                          mimetype := Some (u "audio/mpeg");
                                          size := 2048 |}]);
                           file := None |}) |}
           {| OPENAI_KEY := Some (u "sk-test"); rename_ok := true;
              copy_ok := true;
              transcription_reply := Normal (Some (u " We enter the crypt. "));
              chat_reply :=
                Normal (Some (uq "{'dmSummary':'A crypt.','players':[{'name':'Mira','points':['Led the way']}]}")) |}
           ∅ {| players := Some (FieldArray [uq "['Mira',' Tobo ']"]) |}
           {| audio := Some (FileArray
                         [{| filepath := u "/tmp/3f9a";
                             originalFilename := Some (u " s.mp3 ");
                             mimetype := Some (u "audio/mpeg");
                             size := 2048 |}]);
              file := None |}
           [u "Mira"; u "Tobo"] _ 2048 (u " We enter the crypt. ")).
  - reflexivity.
  - reflexivity.
  - reflexivity.
  - vm_compute. reflexivity.
  - discriminate.
  - reflexivity.
  - discriminate.
  - vm_compute. reflexivity.
  - discriminate.
  - by left.
  - reflexivity.
  - vm_compute. discriminate.
  - reflexivity.
  - vm_compute. discriminate.
Defined.

(** X10. Once a request reaches the transcription stage (roster and audio
    file accepted, resolution completed), the temp file is removed whatever
    the size of the file and the replies of the provider are: afterwards
    neither the upload path nor the resolved path holds a file, every other
    path is as the decoding of the body left it, and the resolved path was
    unlinked exactly once, as the last storage operation. *)
Theorem upload_removed_once_transcription_is_reached (req : request)
    (env : environment) (disk : gmap jsstring N) (fields : Fields)
    (files : Files) (cleaned : list jsstring) (audioFile : FormidableFile)
    (sz : N) :
  method req = u "POST" →
  ensureEnv env = Normal () →
  multipart req = Normal (fields, files) →
  cleanPlayers (playerNames_of (players fields)) = Normal cleaned →
  cleaned ≠ [] →
  pick_audio files = Some audioFile →
  filepath audioFile ≠ [] →
  store_uploads files disk !! filepath audioFile = Some sz →
  rename_ok env = true ∨ copy_ok env = true →
  ∃ w, handler req env (initial_world disk) = (Normal (), w) ∧
       fs w !! filepath audioFile = None ∧
       fs w !! resolved_path audioFile = None ∧
       (∀ q, q ≠ filepath audioFile → q ≠ resolved_path audioFile →
             fs w !! q = store_uploads files disk !! q) ∧
       ∃ evs, fs_log w = evs ++ [Unlinked (resolved_path audioFile)] ∧
              Unlinked (resolved_path audioFile) ∉ evs.
Proof.
  intros Hmethod Henv Hparts Hclean Hroster Haudio Hpath Hfile Hstorage.
  destruct (handler_reached req env disk fields files cleaned audioFile sz)
    as (w & Hrun & _ & _ & Hgone & Hgone' & Hothers & Hlog & _); try done.
  by exists w.
Qed.

Lemma upload_removed_once_transcription_is_reached_witness :
  let upload := {| filepath := u "/tmp/3f9a"; originalFilename := None;
                   mimetype := Some (u "audio/ogg"); size := 2048 |} in
  let files := {| audio := None; file := Some (OneFile upload) |} in
  let disk : gmap jsstring N := {[ u "/tmp/kept" := 5 ]} in
  ∃ w, handler {| method := u "POST";
                  multipart := Normal ({| players := Some (FieldString (u "Mira")) |},
                                       files) |}
               {| OPENAI_KEY := Some (u "sk-test"); rename_ok := false;
                  copy_ok := true;
                  transcription_reply := Throw NonError;
                  chat_reply := Normal None |}
               (initial_world disk) = (Normal (), w) ∧
       fs w !! filepath upload = None ∧
       fs w !! resolved_path upload = None ∧
       (∀ q, q ≠ filepath upload → q ≠ resolved_path upload →
             fs w !! q = store_uploads files disk !! q) ∧
       ∃ evs, fs_log w = evs ++ [Unlinked (resolved_path upload)] ∧
              Unlinked (resolved_path upload) ∉ evs.
Proof.
  apply (upload_removed_once_transcription_is_reached
           {| method := u "POST";
              multipart :=
                Normal ({| players := Some (FieldString (u "Mira")) |},
                        {| audio := None;
                           file := Some (OneFile
                                     {| filepath := u "/tmp/3f9a";
                                        originalFilename := None;
                                        mimetype := Some (u "audio/ogg");
                                        size := 2048 |}) |}) |}
           {| OPENAI_KEY := Some (u "sk-test"); rename_ok := false;
              copy_ok := true; transcription_reply := Throw NonError;
              chat_reply := Normal None |}
           {[ u "/tmp/kept" := 5 ]}
           {| players := Some (FieldString (u "Mira")) |}
           {| audio := None;
              file := Some (OneFile
                        {| filepath := u "/tmp/3f9a"; originalFilename := None;
                           mimetype := Some (u "audio/ogg");
                           size := 2048 |}) |}
           [u "Mira"] _ 2048).
  - reflexivity.
  - reflexivity.
  - reflexivity.
  - vm_compute. reflexivity.
  - discriminate.
  - reflexivity.
  - discriminate.
  - vm_compute. reflexivity.
  - by right.
Defined.

(** X11. A transcription that fails is reported by one error frame and
    costs no completion call.  With a non-empty file past the resolution:
    a call that throws gives the message of the error; a reply without a
    text gives "Transcription response missing text field"; a transcript
    that is blank gives "Transcription failed", after the "Transcription
    complete" frame with length 0.  In each case the provider received the
    transcription call only. *)
Theorem transcription_failures (req : request) (env : environment)
    (disk : gmap jsstring N) (fields : Fields) (files : Files)
    (cleaned : list jsstring) (audioFile : FormidableFile) (sz : N) :
  method req = u "POST" →
  ensureEnv env = Normal () →
  multipart req = Normal (fields, files) →
  cleanPlayers (playerNames_of (players fields)) = Normal cleaned →
  cleaned ≠ [] →
  pick_audio files = Some audioFile →
  filepath audioFile ≠ [] →
  store_uploads files disk !! filepath audioFile = Some sz →
  sz ≠ 0 →
  rename_ok env = true ∨ copy_ok env = true →
  let started :=
    [Progress (u "Parsing upload") [];
     Progress (u "Preparing audio for transcription") [];
     Progress (u "Transcribing audio - this may take a while")
              [(u "step", MetaStr (u "transcription"))]] in
  let call := Transcribe (resolved_path audioFile)
                         (upload_name audioFile (resolved_path audioFile)) in
  ∃ w, handler req env (initial_world disk) = (Normal (), w) ∧
       (∀ e, transcription_reply env = Throw e →
             written (res w) = started ++ [ErrorFrame (error_message e)] ∧
             net_log w = [call]) ∧
       (transcription_reply env = Normal None →
             written (res w)
             = started ++
               [ErrorFrame (u "Transcription response missing text field")] ∧
             net_log w = [call]) ∧
       (∀ text, transcription_reply env = Normal (Some text) →
                trim text = [] →
             written (res w)
             = started ++
               [Progress (u "Transcription complete")
                         [(u "step", MetaStr (u "transcription"));
                          (u "transcriptLength", MetaNum 0)];
                ErrorFrame (u "Transcription failed")] ∧
             net_log w = [call]).
Proof.
  intros Hmethod Henv Hparts Hclean Hroster Haudio Hpath Hfile Hsz Hstorage.
  destruct (handler_reached req env disk fields files cleaned audioFile sz)
    as (w & Hrun & Hwritten & Hcalls & _); try done.
  simpl. exists w. split; [done|].
  revert Hwritten Hcalls. unfold stage_outcome.
  rewrite (proj2 (N.eqb_neq sz 0)) by done. intros Hwritten Hcalls.
  split_and!.
  - intros e He. rewrite He in Hwritten, Hcalls. by rewrite Hwritten, Hcalls.
  - intros He. rewrite He in Hwritten, Hcalls. by rewrite Hwritten, Hcalls.
  - intros text He Hblank. rewrite He, Hblank in Hwritten, Hcalls.
    by rewrite Hwritten, Hcalls.
Qed.

Lemma transcription_failures_witness :
  let upload := {| filepath := u "/tmp/3f9a.wav"; originalFilename := Some (u "take.wav");
                   mimetype := None; size := 9 |} in
  let started :=
    [Progress (u "Parsing upload") [];
     Progress (u "Preparing audio for transcription") [];
     Progress (u "Transcribing audio - this may take a while")
              [(u "step", MetaStr (u "transcription"))]] in
  let env := {| OPENAI_KEY := Some (u "sk-test"); rename_ok := true;
                copy_ok := true;
                transcription_reply := Normal (Some (u "  "));
                chat_reply := Normal None |} in
  ∃ w, handler {| method := u "POST";
                  multipart := Normal ({| players := Some (FieldString (u "Mira")) |},
                                       {| audio := Some (OneFile upload);
                                          file := None |}) |}
               env (initial_world ∅) = (Normal (), w) ∧
       written (res w)
       = started ++
         [Progress (u "Transcription complete")
                   [(u "step", MetaStr (u "transcription"));
                    (u "transcriptLength", MetaNum 0)];
          ErrorFrame (u "Transcription failed")] ∧
       net_log w = [Transcribe (u "/tmp/3f9a.wav") (u "take.wav")].
Proof.
  destruct (transcription_failures
           {| method := u "POST";
              multipart :=
                Normal ({| players := Some (FieldString (u "Mira")) |},
                        {| audio := Some (OneFile
                                      {| filepath := u "/tmp/3f9a.wav";
                                         originalFilename := Some (u "take.wav");
                                         mimetype := None; size := 9 |});
                           file := None |}) |}
           {| OPENAI_KEY := Some (u "sk-test"); rename_ok := true;
              copy_ok := true;
              transcription_reply := Normal (Some (u "  "));
              chat_reply := Normal None |}
           ∅ {| players := Some (FieldString (u "Mira")) |}
           {| audio := Some (OneFile
                         {| filepath := u "/tmp/3f9a.wav";
                            originalFilename := Some (u "take.wav");
                            mimetype := None; size := 9 |});
              file := None |}
           [u "Mira"]
           {| filepath := u "/tmp/3f9a.wav";
              originalFilename := Some (u "take.wav");
              mimetype := None; size := 9 |} 9)
    as (w & Hrun & _ & _ & Hblank).
  - reflexivity.
  - reflexivity.
  - reflexivity.
  - vm_compute. reflexivity.
  - discriminate.
  - reflexivity.
  - discriminate.
  - vm_compute. reflexivity.
  - discriminate.
  - by left.
  - exists w. split; [exact Hrun|]. apply (Hblank (u "  ")); reflexivity.
Defined.

(** X12. A completion that fails is reported by one error frame after the
    five progress frames of the stages before it, and the transcription is
    not called again: a call that throws gives the message of the error, a
    reply with no content or an empty one gives "No summary returned by
    model". *)
Theorem completion_failures (req : request) (env : environment)
    (disk : gmap jsstring N) (fields : Fields) (files : Files)
    (cleaned : list jsstring) (audioFile : FormidableFile) (sz : N)
    (text : jsstring) :
  method req = u "POST" →
  ensureEnv env = Normal () →
  multipart req = Normal (fields, files) →
  cleanPlayers (playerNames_of (players fields)) = Normal cleaned →
  cleaned ≠ [] →
  pick_audio files = Some audioFile →
  filepath audioFile ≠ [] →
  store_uploads files disk !! filepath audioFile = Some sz →
  sz ≠ 0 →
  rename_ok env = true ∨ copy_ok env = true →
  transcription_reply env = Normal (Some text) →
  trim text ≠ [] →
  let before :=
    [Progress (u "Parsing upload") [];
     Progress (u "Preparing audio for transcription") [];
     Progress (u "Transcribing audio - this may take a while")
              [(u "step", MetaStr (u "transcription"))];
     Progress (u "Transcription complete")
              [(u "step", MetaStr (u "transcription"));
               (u "transcriptLength", MetaNum (length (trim text)))];
     Progress (u "Generating player summaries")
              [(u "step", MetaStr (u "summaries"))]] in
  let calls :=
    [Transcribe (resolved_path audioFile)
                (upload_name audioFile (resolved_path audioFile));
     ChatCompletion cleaned (trim text)] in
  ∃ w, handler req env (initial_world disk) = (Normal (), w) ∧
       (∀ e, chat_reply env = Throw e →
             written (res w) = before ++ [ErrorFrame (error_message e)] ∧
             net_log w = calls) ∧
       (chat_reply env = Normal None ∨ chat_reply env = Normal (Some []) →
             written (res w)
             = before ++ [ErrorFrame (u "No summary returned by model")] ∧
             net_log w = calls).
Proof.
  intros Hmethod Henv Hparts Hclean Hroster Haudio Hpath Hfile Hsz Hstorage
    Hreply Htext.
  destruct (handler_reached req env disk fields files cleaned audioFile sz)
    as (w & Hrun & Hwritten & Hcalls & _); try done.
  simpl. exists w. split; [done|].
  revert Hwritten Hcalls. unfold stage_outcome.
  rewrite (proj2 (N.eqb_neq sz 0)) by done. rewrite Hreply.
  destruct (trim text) as [|c t] eqn:Htrim; [done|].
  intros Hwritten Hcalls. split.
  - intros e He. rewrite He in Hwritten, Hcalls. by rewrite Hwritten, Hcalls.
  - intros [He|He]; rewrite He in Hwritten, Hcalls;
      by rewrite Hwritten, Hcalls.
Qed.

Lemma completion_failures_witness :
  let upload := {| filepath := u "/tmp/3f9a"; originalFilename := Some (u "take.wav");
                   mimetype := None; size := 9 |} in
  ∃ w, handler {| method := u "POST";
                  multipart := Normal ({| players := Some (FieldString (u "Mira")) |},
                                       {| audio := Some (OneFile upload);
                                          file := None |}) |}
               {| OPENAI_KEY := Some (u "sk-test"); rename_ok := true;
                  copy_ok := true;
                  transcription_reply := Normal (Some (u "We rest."));
                  chat_reply := Normal (Some []) |}
               (initial_world ∅) = (Normal (), w) ∧
       written (res w)
       = [Progress (u "Parsing upload") [];
          Progress (u "Preparing audio for transcription") [];
          Progress (u "Transcribing audio - this may take a while")
                   [(u "step", MetaStr (u "transcription"))];
          Progress (u "Transcription complete")
                   [(u "step", MetaStr (u "transcription"));
                    (u "transcriptLength", MetaNum 8)];
          Progress (u "Generating player summaries")
                   [(u "step", MetaStr (u "summaries"))];
          ErrorFrame (u "No summary returned by model")] ∧
       net_log w
       = [Transcribe (u "/tmp/3f9a.wav") (u "take.wav");
          ChatCompletion [u "Mira"] (u "We rest.")].
Proof.
  destruct (completion_failures
           {| method := u "POST";
              multipart :=
                Normal ({| players := Some (FieldString (u "Mira")) |},
                        {| audio := Some (OneFile
                                      {| filepath := u "/tmp/3f9a";
                                         originalFilename := Some (u "take.wav");
                                         mimetype := None; size := 9 |});
                           file := None |}) |}
           {| OPENAI_KEY := Some (u "sk-test"); rename_ok := true;
              copy_ok := true;
              transcription_reply := Normal (Some (u "We rest."));
              chat_reply := Normal (Some []) |}
           ∅ {| players := Some (FieldString (u "Mira")) |}
           {| audio := Some (OneFile
                         {| filepath := u "/tmp/3f9a";
                            originalFilename := Some (u "take.wav");
                            mimetype := None; size := 9 |});
              file := None |}
           [u "Mira"]
           {| filepath := u "/tmp/3f9a";
              originalFilename := Some (u "take.wav");
              mimetype := None; size := 9 |} 9 (u "We rest."))
    as (w & Hrun & _ & Hempty).
  - reflexivity.
  - reflexivity.
  - reflexivity.
  - vm_compute. reflexivity.
  - discriminate.
  - reflexivity.
  - discriminate.
  - vm_compute. reflexivity.
  - discriminate.
  - by left.
  - reflexivity.
  - vm_compute. discriminate.
  - exists w. split; [exact Hrun|]. apply Hempty. by right.
Defined.

(** ** The roster the handler works with *)

Section Roster.

Lemma mapC_trim_clean (names : list JValue) (trimmed_names : list jsstring) :
  mapC call_trim names = Normal trimmed_names →
  Forall (λ n, trim n = n) trimmed_names.
Proof.
  revert trimmed_names. induction names as [|x names IH]; intros l; simpl.
  - intros [= <-]. apply Forall_nil_2.
  - destruct x as [| | |s| |]; simpl; try done.
    destruct (mapC call_trim names) as [r|]; simpl; [|done].
    intros [= <-]. apply Forall_cons. split; [apply trim_idemp|by apply IH].
Qed.

Lemma cleanPlayers_clean (names : list JValue) (cleaned : list jsstring) :
  cleanPlayers names = Normal cleaned →
  ∀ n, n ∈ cleaned → n ≠ [] ∧ trim n = n.
Proof.
  unfold cleanPlayers.
  destruct (mapC call_trim names) as [l|] eqn:Hmap; simpl; [|done].
  intros [= <-] n [Hlen Hn]%list_elem_of_filter.
  apply mapC_trim_clean in Hmap. rewrite Forall_forall in Hmap.
  split; [|by apply Hmap]. intros ->. simpl in Hlen. lia.
Qed.

Lemma mapC_strings (l : list jsstring) :
  mapC call_trim (map JString l) = Normal (map trim l).
Proof. induction l as [|s l IH]; [done|]. simpl. by rewrite IH. Qed.

End Roster.

(** X13. The roster the handler works with is clean: whenever the
    normalization completes, every name it keeps is non-empty and trimmed;
    and on names that are all strings it always completes, with the
    trimmed names that are not blank, in their order. *)
Theorem cleaned_roster_is_clean :
  (∀ (names : list JValue) (cleaned : list jsstring),
     cleanPlayers names = Normal cleaned →
     ∀ n, n ∈ cleaned → n ≠ [] ∧ trim n = n) ∧
  (∀ l : list jsstring,
     cleanPlayers (map JString l)
     = Normal (filter (λ n, n ≠ []) (map trim l))).
Proof.
  split; [apply cleanPlayers_clean|].
  intros l. unfold cleanPlayers. rewrite mapC_strings. simpl. f_equal.
  apply list_filter_iff. intros n. destruct n; simpl.
  - split; [lia|done].
  - split; [done|lia].
Qed.

Lemma cleaned_roster_is_clean_witness :
  cleanPlayers (playerNames_of (Some (FieldArray [u " Mira "; u "   "; uq "['Tobo ','']"])))
  = Normal [u "Mira"; u "Tobo"] ∧
  ∀ n, n ∈ [u "Mira"; u "Tobo"] → n ≠ [] ∧ trim n = n.
Proof.
  split; [by vm_compute|].
  destruct cleaned_roster_is_clean as [Hclean _].
  apply (Hclean (playerNames_of
                   (Some (FieldArray [u " Mira "; u "   "; uq "['Tobo ','']"])))).
  by vm_compute.
Defined.

(** ** Calls to the provider *)

Section Quiet.

Lemma quiet_bind {A B} (m : M A) (f : A → M B) :
  quiet m → (∀ a, quiet (f a)) → quiet (m ≫= f).
Proof.
  intros Hm Hf w. specialize (Hm w). unfold mbind, M_bind.
  destruct (m w) as [[a|e] w']; simpl in *; [|done].
  by rewrite Hf.
Qed.

Lemma quiet_try_catch {A} (body : M A) (h : exn → M A) :
  quiet body → (∀ e, quiet (h e)) → quiet (try_catchM body h).
Proof.
  intros Hm Hh w. specialize (Hm w). unfold try_catchM.
  destruct (body w) as [[a|e] w']; simpl in *; [done|].
  by rewrite Hh.
Qed.

Lemma quiet_ret {A} (a : A) : quiet (mret a : M A).
Proof. by intros w. Qed.

Lemma quiet_writeLine (line : frame) : quiet (writeLine line).
Proof.
  intros w. unfold writeLine.
  by destruct (responseEnded w || writableEnded (res w)).
Qed.

Lemma quiet_endResponse : quiet endResponse.
Proof.
  intros w. unfold endResponse.
  by destruct (negb (responseEnded w) && negb (writableEnded (res w))).
Qed.

Lemma quiet_sendProgress message meta : quiet (sendProgress message meta).
Proof. apply quiet_writeLine. Qed.

Lemma quiet_sendError message : quiet (sendError message).
Proof.
  apply quiet_bind; [apply quiet_writeLine|intros; apply quiet_endResponse].
Qed.

Lemma quiet_sendResult payload : quiet (sendResult payload).
Proof.
  apply quiet_bind; [apply quiet_writeLine|intros; apply quiet_endResponse].
Qed.

Lemma quiet_report (e : exn) : quiet (report e).
Proof.
  intros w. unfold report.
  destruct (negb (responseEnded w) && negb (writableEnded (res w)));
    [apply quiet_sendError|done].
Qed.

Lemma quiet_stat (p : jsstring) : quiet (stat p).
Proof. intros w. unfold stat. by destruct (fs w !! p). Qed.

Lemma quiet_rename env src dst : quiet (rename env src dst).
Proof.
  intros w. unfold rename. destruct (fs w !! src); [|done].
  by destruct (rename_ok env).
Qed.

Lemma quiet_copyFile env src dst : quiet (copyFile env src dst).
Proof.
  intros w. unfold copyFile. destruct (fs w !! src); [|done].
  by destruct (copy_ok env).
Qed.

Lemma quiet_unlink (p : jsstring) : quiet (unlink p).
Proof. intros w. unfold unlink. by destruct (fs w !! p). Qed.

Lemma quiet_cleanup (p : jsstring) :
  quiet (try_catchM (unlink p) (λ _, mret ())).
Proof. apply quiet_try_catch; [apply quiet_unlink|intros; apply quiet_ret]. Qed.

Lemma quiet_ensureExtensionOnPath env file :
  quiet (ensureExtensionOnPath env file).
Proof.
  unfold ensureExtensionOnPath.
  destruct (resolveExtension file); [apply quiet_ret|].
  destruct (endsWith _ _); [apply quiet_ret|].
  apply quiet_try_catch.
  - apply quiet_bind; [apply quiet_rename|intros; apply quiet_ret].
  - intros _. apply quiet_bind; [apply quiet_copyFile|intros _].
    apply quiet_bind; [apply quiet_cleanup|intros; apply quiet_ret].
Qed.

Lemma quiet_parseMultipart (req : request) : quiet (parseMultipart req).
Proof.
  intros w. unfold parseMultipart. by destruct (multipart req) as [[??]|].
Qed.

(** A quiet computation keeps any property of the calls sent so far. *)
Lemma triple_quiet {A} (m : M A) (P : list net_call → Prop) :
  quiet m →
  triple (λ w, P (net_log w)) m (λ _ w, P (net_log w)) (λ _ w, P (net_log w)).
Proof.
  intros Hm w Hw. specialize (Hm w).
  destruct (m w) as [[a|e] w']; simpl in *; by rewrite Hm.
Qed.

End Quiet.

Section CallsInOrder.

Variables (req : request) (env : environment).

Let none : list net_call → Prop := λ l, l = [].
Let one : list net_call → Prop := λ l, ∃ p f, l = [Transcribe p f].
Let upto_one : list net_call → Prop := λ l, none l ∨ one l.

Lemma triple_calls {A} (m : M A) (P Q E : list net_call → Prop) :
  quiet m → (∀ l, P l → Q l) → (∀ l, P l → E l) →
  triple (λ w, P (net_log w)) m (λ _ w, Q (net_log w)) (λ _ w, E (net_log w)).
Proof.
  intros Hm HQ HE.
  eapply triple_conseq; [apply (triple_quiet m P Hm)|done|..]; simpl; eauto.
Qed.

Lemma transcribe_calls (audioFile : FormidableFile) (readablePath : jsstring) :
  triple (λ w, none (net_log w))
    (transcribe env audioFile readablePath)
    (λ t w, one (net_log w) ∧
            ∃ text, transcription_reply env = Normal (Some text) ∧
                    t = trim text)
    (λ _ w, upto_one (net_log w)).
Proof.
  unfold transcribe.
  apply triple_bind with (Q' := λ _ w, none (net_log w)).
  { apply (triple_calls _ none none upto_one (quiet_stat _)); [done|by left]. }
  intros sz. destruct (sz =? 0).
  { intros w Hw. simpl. by left. }
  apply triple_bind with (Q' := λ _ w, none (net_log w)).
  { apply (triple_calls _ none none upto_one (quiet_sendProgress _ _));
      [done|by left]. }
  intros [].
  apply triple_bind with
    (Q' := λ reply w, one (net_log w) ∧ transcription_reply env = Normal reply).
  { intros w Hw. unfold transcriptions_create. simpl.
    unfold none in Hw. rewrite Hw.
    destruct (transcription_reply env); simpl.
    - split; [|done]. by eexists _, _.
    - right. by eexists _, _. }
  intros [text|].
  - apply triple_pure. intros Hreply.
    apply triple_bind with (Q' := λ _ w, one (net_log w)).
    { apply (triple_calls _ one one upto_one (quiet_sendProgress _ _));
        [done|by right]. }
    intros []. intros w Hw. simpl. split; [done|eauto].
  - intros w [Hw _]. simpl. by right.
Qed.

Lemma summarize_calls (roster : list jsstring) (text : jsstring) :
  transcription_reply env = Normal (Some text) →
  trim text ≠ [] → roster ≠ [] →
  (∀ n, n ∈ roster → n ≠ [] ∧ trim n = n) →
  triple (λ w, one (net_log w))
    (summarize env roster (trim text))
    (λ _ w, calls_in_order env (net_log w))
    (λ _ w, calls_in_order env (net_log w)).
Proof.
  intros Hreply Htext Hroster Hclean. unfold summarize.
  assert (∀ l, one l → calls_in_order env l) as Hone.
  { intros l Hl. right. by left. }
  apply triple_bind with (Q' := λ _ w, one (net_log w)).
  { by apply (triple_calls _ one one _ (quiet_sendProgress _ _)). }
  intros [].
  apply triple_bind with (Q' := λ _ w, calls_in_order env (net_log w)).
  { intros w (p & f & Hw). unfold chat_completions_create. simpl.
    rewrite Hw. simpl.
    assert (calls_in_order env
              [Transcribe p f; ChatCompletion roster (trim text)]).
    { right. right. exists p, f, roster, text. by split_and!. }
    by destruct (chat_reply env). }
  intros [[|c content]|];
    try (by apply (triple_calls _ (calls_in_order env) _ _ (quiet_sendError _))).
  apply triple_bind with (Q' := λ _ w, calls_in_order env (net_log w)).
  { eapply triple_conseq;
      [apply (triple_lift (λ w, calls_in_order env (net_log w)))|..];
      simpl; [done|by intros ? ? [? _]|done]. }
  intros parsed.
  apply triple_bind with (Q' := λ _ w, calls_in_order env (net_log w)).
  { by apply (triple_calls _ (calls_in_order env) _ _ (quiet_sendProgress _ _)). }
  intros [].
  by apply (triple_calls _ (calls_in_order env) _ _ (quiet_sendResult _)).
Qed.

Lemma process_calls (fields : Fields) (files : Files) :
  triple (λ w, none (net_log w)) (process env fields files)
    (λ _ w, calls_in_order env (net_log w))
    (λ _ w, calls_in_order env (net_log w)).
Proof.
  assert (∀ l, none l → calls_in_order env l) as Hnone by (by left).
  assert (∀ l, one l → calls_in_order env l) as Hone.
  { intros l Hl. right. by left. }
  assert (∀ message,
            triple (λ w, none (net_log w)) (sendError message)
              (λ _ w, calls_in_order env (net_log w))
              (λ _ w, calls_in_order env (net_log w))) as Herror.
  { intros message.
    by apply (triple_calls _ none _ _ (quiet_sendError message)). }
  unfold process.
  case_bool_decide; [apply Herror|].
  apply triple_bind with
    (Q' := λ cleaned w, none (net_log w) ∧
             cleanPlayers (playerNames_of (players fields)) = Normal cleaned).
  { eapply triple_conseq;
      [apply (triple_lift (λ w, none (net_log w)))|..]; simpl;
      [done|done|]. intros e w Hw. by apply Hnone. }
  intros cleaned. apply triple_pure. intros Hclean.
  case_bool_decide as Hlen; [apply Herror|].
  destruct (pick_audio files) as [audioFile|]; [|apply Herror].
  destruct (filepath audioFile) as [|c path] eqn:Hpath; [apply Herror|].
  apply triple_bind with (Q' := λ _ w, none (net_log w)).
  { by apply (triple_calls _ none none _ (quiet_sendProgress _ _)). }
  intros [].
  apply triple_bind with (Q' := λ _ w, none (net_log w)).
  { by apply (triple_calls _ none none _ (quiet_ensureExtensionOnPath _ _)). }
  intros readablePath.
  apply triple_bind with
    (Q' := λ t w, one (net_log w) ∧
                  ∃ text, transcription_reply env = Normal (Some text) ∧
                          t = trim text).
  { eapply triple_try_finally; [apply transcribe_calls|..].
    - intros t. apply triple_pure. intros Htext.
      eapply triple_conseq;
        [apply (triple_calls _ one one (calls_in_order env) (quiet_cleanup _))
        |done| |done]; [done|done|].
      intros [] w Hw. by split.
    - intros e.
      apply (triple_calls _ upto_one _ _ (quiet_cleanup _));
        intros l [Hl|Hl]; auto. }
  intros t. apply triple_pure. intros (text & Hreply & ->).
  destruct (trim text) as [|c' t'] eqn:Htrim.
  - by apply (triple_calls _ one _ _ (quiet_sendError _)).
  - rewrite <-Htrim. apply summarize_calls; try done.
    + by rewrite Htrim.
    + intros ->. by apply Hlen.
    + by apply (cleanPlayers_clean _ _ Hclean).
Qed.

Lemma pipeline_calls :
  triple (λ w, none (net_log w)) (pipeline req env)
    (λ _ w, calls_in_order env (net_log w))
    (λ _ w, calls_in_order env (net_log w)).
Proof.
  assert (∀ l, none l → calls_in_order env l) as Hnone by (by left).
  unfold pipeline.
  apply triple_bind with (Q' := λ _ w, none (net_log w)).
  { by apply (triple_calls _ none none _ (quiet_sendProgress _ _)). }
  intros [].
  apply triple_bind with (Q' := λ _ w, none (net_log w)).
  { by apply (triple_calls _ none none _ (quiet_parseMultipart _)). }
  intros [fields files]. apply process_calls.
Qed.

End CallsInOrder.

(** X14. Whatever the request and the replies are, the provider receives
    nothing, or one transcription call, or one transcription call followed
    by one completion call: no call is repeated, and the completion is
    asked only after a transcript that is not blank, with that transcript
    trimmed and a roster of non-empty trimmed names. *)
Theorem provider_calls_in_order (req : request) (env : environment)
    (disk : gmap jsstring N) :
  ∃ w, handler req env (initial_world disk) = (Normal (), w) ∧
       calls_in_order env (net_log w).
Proof.
  destruct (handler_outcome req env disk) as (w & Hrun & Hcases).
  exists w. split; [done|].
  destruct Hcases as [[Hmethod _]|[(Hmethod & Henv & _)|(Hmethod & Henv & _)]].
  - revert Hrun. unfold handler. rewrite bool_decide_eq_true_2 by done.
    intros [= <-]. by left.
  - revert Hrun. unfold handler.
    rewrite bool_decide_eq_false_2 by (by intros []). rewrite Henv.
    intros [= <-]. by left.
  - rewrite handler_streams in Hrun by done.
    pose proof (pipeline_calls req env (streaming_world disk) eq_refl) as Hcalls.
    revert Hrun. unfold try_catchM.
    destruct (pipeline req env (streaming_world disk)) as [[[]|e] w2].
    + by intros [= <-].
    + intros Hreport. pose proof (quiet_report e w2) as Hquiet.
      rewrite Hreport in Hquiet. simpl in Hquiet. by rewrite Hquiet.
Qed.

(** * The page and the route together *)

(** ** Serialising and reading back *)


Section RoundTrip.

Import Json.

Lemma hexValue_hexDigit d : d < 16 → hexValue (hexDigit d) = Some d.
Proof.
  intros Hd. unfold hexDigit, hexValue, isDigit.
  destruct (d <? 10) eqn:E.
  - apply N.ltb_lt in E.
    replace (48 <=? 48 + d) with true by (symmetry; apply N.leb_le; lia).
    replace (48 + d <=? 57) with true by (symmetry; apply N.leb_le; lia).
    simpl. f_equal. lia.
  - apply N.ltb_ge in E.
    replace (87 + d <=? 57) with false by (symmetry; apply N.leb_gt; lia).
    rewrite andb_false_r.
    replace (97 <=? 87 + d) with true by (symmetry; apply N.leb_le; lia).
    replace (87 + d <=? 102) with true by (symmetry; apply N.leb_le; lia).
    simpl. f_equal. lia.
Qed.

Lemma hex_value c :
  ((c / 4096 * 16 + (c / 256) mod 16) * 16 + (c / 16) mod 16) * 16 + c mod 16 = c.
Proof.
  replace (c / 4096) with (c / 16 / 16 / 16) by (by rewrite !N.Div0.div_div).
  replace (c / 256) with (c / 16 / 16) by (by rewrite !N.Div0.div_div).
  pose proof (N.div_mod c 16 ltac:(done)).
  pose proof (N.div_mod (c / 16) 16 ltac:(done)).
  pose proof (N.div_mod (c / 16 / 16) 16 ltac:(done)).
  lia.
Qed.

Lemma run_plain stk k acc c rest :
  32 ≤ c → c ≠ 34 → c ≠ 92 →
  run (stk, MString k acc) (c :: rest) = run (stk, MString k (c :: acc)) rest.
Proof.
  intros H1 H2 H3. cbn [run step].
  rewrite (proj2 (N.eqb_neq c 34)), (proj2 (N.eqb_neq c 92)) by done.
  by rewrite (proj2 (N.ltb_ge c 32)).
Qed.

Lemma run_unicodeEscape stk k acc c rest :
  c < 65536 →
  run (stk, MString k acc) (unicodeEscape c ++ rest)
  = run (stk, MString k (c :: acc)) rest.
Proof.
  intros Hc. unfold unicodeEscape.
  assert (c / 4096 < 16) by (apply N.Div0.div_lt_upper_bound; lia).
  assert (∀ x, x mod 16 < 16) by (intros; by apply N.mod_lt).
  cbn [app run]. cbn [step]. cbn [N.eqb Pos.eqb orb].
  change (step (stk, MEscape k acc) 117) with (Some (stk, MUnicode k acc [])).
  do 4 (cbn [step app]; rewrite hexValue_hexDigit by done).
  by rewrite hex_value.
Qed.

Lemma run_quoteUnit stk k acc c rest :
  run (stk, MString k acc) (quoteUnit c ++ rest)
  = run (stk, MString k (c :: acc)) rest.
Proof.
  unfold quoteUnit.
  repeat match goal with
  | |- context [if ?x =? ?y then _ else _] =>
      let H := fresh in
      destruct (x =? y) eqn:H;
      [apply N.eqb_eq in H; subst;
       cbn [app run step N.eqb Pos.eqb orb]; reflexivity|]
  end.
  repeat match goal with H : (_ =? _) = false |- _ =>
    apply N.eqb_neq in H end.
  destruct (c <? 32) eqn:Hlt.
  - apply N.ltb_lt in Hlt. apply run_unicodeEscape. lia.
  - apply N.ltb_ge in Hlt. by apply run_plain.
Qed.

Lemma run_quoteBody stk k (s : jsstring) : ∀ acc rest,
  run (stk, MString k acc) (quoteBody s ++ rest)
  = run (stk, MString k (rev s ++ acc)) rest.
Proof.
  induction s as [s IH] using (induction_ltof1 _ (@length N)).
  unfold ltof in IH. intros acc rest.
  destruct s as [|c s']; [done|]. cbn [quoteBody rev].
  rewrite <-(app_assoc (rev s') [c] acc). cbn [app].
  destruct (isLeadSurrogate c) eqn:Hlead.
  - apply andb_true_iff in Hlead as [Hc1%N.leb_le Hc2%N.leb_le].
    destruct s' as [|d s''].
    + rewrite run_unicodeEscape by lia. done.
    + destruct (isTrailSurrogate d) eqn:Htrail.
      * apply andb_true_iff in Htrail as [Hd1%N.leb_le Hd2%N.leb_le].
        cbn [app rev]. rewrite !run_plain by lia.
        rewrite IH by (simpl; lia).
        by rewrite <-(app_assoc (rev s'') [d]).
      * rewrite <-app_assoc, run_unicodeEscape by lia.
        apply IH. simpl; lia.
  - destruct (isTrailSurrogate c) eqn:Htrail.
    + apply andb_true_iff in Htrail as [Hd1%N.leb_le Hd2%N.leb_le].
      rewrite <-app_assoc, run_unicodeEscape by lia.
      apply IH. simpl; lia.
    + rewrite <-app_assoc, run_quoteUnit. apply IH. simpl; lia.
Qed.


Lemma run_string stk (s : jsstring) rest :
  run (stk, MString false []) (quoteBody s ++ 34 :: rest)
  = resume (JString s) stk rest.
Proof.
  rewrite run_quoteBody. cbn [run step N.eqb Pos.eqb].
  by rewrite app_nil_r, rev_involutive.
Qed.

Lemma run_key stk (s : jsstring) rest :
  run (stk, MString true []) (quoteBody s ++ 34 :: rest)
  = run (FKey s :: stk, MColon) rest.
Proof.
  rewrite run_quoteBody. cbn [run step N.eqb Pos.eqb].
  by rewrite app_nil_r, rev_involutive.
Qed.

Lemma run_number_end stk ns lex rest :
  num_accepting ns = true → delimited rest →
  run (stk, MNumber ns lex) rest = resume (JNumber (rev lex)) stk rest.
Proof.
  intros Hns Hrest. unfold resume. destruct rest as [|c rest].
  - cbn [run finish]. rewrite Hns.
    destruct stk as [|[| |] [|[| |] ?]]; reflexivity.
  - cbn [run step].
    assert (num_step ns c = None) as ->.
    { destruct Hrest as [->|[->| ->]]; by destruct ns. }
    rewrite Hns.
    destruct (complete (JNumber (rev lex)) stk) as [[stk' m]|] eqn:Hc; [|done].
    destruct stk as [|[| |] [|[| |] ?]]; simplify_eq/=; try done.
Qed.

Lemma run_digits stk (d : Decimal.uint) : ∀ lex rest,
  run (stk, MNumber NInt lex) (digits d ++ rest)
  = run (stk, MNumber NInt (rev (digits d) ++ lex)) rest.
Proof.
  induction d; intros lex rest; cbn [digits]; [done|..];
    cbn [app run step num_step isDigit N.leb N.compare Pos.compare
         Pos.compare_cont andb];
    rewrite IHd; cbn [rev]; by rewrite <-app_assoc.
Qed.

Lemma to_uint_normal (n : nat) :
  Nat.to_uint n = Decimal.D0 Decimal.Nil
  ∨ Nat.to_uint n ≠ Decimal.Nil ∧ ∀ d, Nat.to_uint n ≠ Decimal.D0 d.
Proof.
  pose proof (DecimalNat.Unsigned.to_of (Nat.to_uint n)) as H.
  rewrite DecimalNat.Unsigned.of_to in H. rewrite H.
  set (d0 := Nat.to_uint n). unfold Decimal.unorm.
  destruct (Decimal.nzhead d0) eqn:E; [by left|..]; right; split; try done.
  intros d' Hd. rewrite <-E in Hd. by apply DecimalFacts.nzhead_nonzero in Hd.
Qed.

Lemma run_decimal stk (n : nat) rest :
  delimited rest →
  run (stk, MValue) (decimal n ++ rest) = resume (JNumber (decimal n)) stk rest.
Proof.
  intros Hrest. unfold decimal.
  destruct (to_uint_normal n) as [->|[Hnil Hzero]].
  - cbn [digits app run step]. unfold step_value.
    cbn [isJsonSpace N.eqb Pos.eqb orb]. by rewrite run_number_end.
  - destruct (Nat.to_uint n) as [|d|d|d|d|d|d|d|d|d|d]; [done|by destruct (Hzero d)|..];
      cbn [digits app run step];
      unfold step_value; cbn [isJsonSpace N.eqb Pos.eqb orb isDigit N.leb N.compare
         Pos.compare Pos.compare_cont andb];
      rewrite run_digits, run_number_end by done;
      by rewrite rev_app_distr, rev_involutive.
Qed.



Lemma digits_head (d : Decimal.uint) :
  d ≠ Decimal.Nil → ∃ c tail, digits d = c :: tail ∧ isDigit c = true.
Proof. destruct d; [done|..]; intros _; by eexists _, _. Qed.

Lemma stringify_head (value : jsdata) :
  ∃ c tail, JSON_stringify value = c :: tail ∧ opens_value c.
Proof.
  unfold opens_value. destruct value as [s|n|elems|members]; cbn [JSON_stringify].
  - eexists _, _. split; [reflexivity|]. by left.
  - unfold decimal.
    destruct (digits_head (Nat.to_uint n)) as (c & tail & -> & Hc).
    { destruct (to_uint_normal n) as [->|[? _]]; done. }
    eexists _, _. split; [reflexivity|]. by do 3 right.
  - eexists _, _. split; [reflexivity|]. right. by left.
  - eexists _, _. split; [reflexivity|]. do 2 right. by left.
Qed.

Lemma step_ArrStart stk c :
  opens_value c → step (stk, MArrStart) c = step (stk, MValue) c.
Proof.
  intros [->|[->|[->|Hc]]]; try reflexivity.
  cbn [step]. unfold isDigit in Hc.
  apply andb_true_iff in Hc as [H1%N.leb_le H2%N.leb_le].
  unfold isJsonSpace.
  rewrite !(proj2 (N.eqb_neq c _)) by lia. reflexivity.
Qed.

Lemma run_ArrStart stk (value : jsdata) rest :
  run (stk, MArrStart) (JSON_stringify value ++ rest)
  = run (stk, MValue) (JSON_stringify value ++ rest).
Proof.
  destruct (stringify_head value) as (c & tail & -> & Hc).
  cbn [app run]. by rewrite step_ArrStart.
Qed.

Lemma join_cons (f : jsstring) (l : list jsstring) :
  join (u ",") (f :: l) = f ++ concat (map (λ s, 44 :: s) l).
Proof.
  revert f. induction l as [|y l IH]; intros x.
  - simpl. by rewrite app_nil_r.
  - change (join (u ",") (x :: y :: l)) with (x ++ 44 :: join (u ",") (y :: l)).
    rewrite IH. reflexivity.
Qed.


Lemma run_elements stk rest (l : list jsdata) :
  Forall reads_back l → ∀ es,
  run (FArr es :: stk, MAfter)
      (concat (map (λ s, 44 :: s) (map JSON_stringify l)) ++ 93 :: rest)
  = resume (JArray (rev es ++ map to_json l)) stk rest.
Proof.
  induction 1 as [|x l Hx _ IH]; intros es.
  - cbn [map concat app run step]. unfold step_after.
    cbn [isJsonSpace N.eqb Pos.eqb orb]. by rewrite app_nil_r.
  - cbn [map concat]. rewrite <-!app_assoc. cbn [app run step].
    unfold step_after at 1. cbn [isJsonSpace N.eqb Pos.eqb orb].
    rewrite Hx; cycle 1.
    { destruct l; cbn; auto. }
    unfold resume at 1. cbn [complete]. rewrite IH. cbn [rev map].
    by rewrite <-app_assoc.
Qed.


Lemma run_member stk ms (m : jsstring * jsdata) rest :
  reads_back m.2 → delimited rest →
  run (FObj ms :: stk, MString true []) (quoteBody m.1 ++ 34 :: 58 :: JSON_stringify m.2 ++ rest)
  = run (FObj ((m.1, to_json m.2) :: ms) :: stk, MAfter) rest.
Proof.
  intros Hm Hrest. rewrite run_key. cbn [run step N.eqb Pos.eqb isJsonSpace orb].
  by rewrite Hm.
Qed.

Lemma run_members stk rest (l : list (jsstring * jsdata)) :
  Forall (λ m, reads_back m.2) l → ∀ ms,
  run (FObj ms :: stk, MAfter)
      (concat (map (λ s, 44 :: s) (map member_text l)) ++ 125 :: rest)
  = resume (JObject (rev ms ++ map (λ m, (m.1, to_json m.2)) l)) stk rest.
Proof.
  induction 1 as [|x l Hx _ IH]; intros ms.
  - cbn [map concat app run step]. unfold step_after.
    cbn [isJsonSpace N.eqb Pos.eqb orb]. by rewrite app_nil_r.
  - cbn [map concat]. rewrite <-!app_assoc. cbn [app run step].
    unfold step_after at 1. cbn [isJsonSpace N.eqb Pos.eqb orb].
    unfold member_text at 1, QuoteJSONString. rewrite <-!app_assoc.
    cbn [app run step N.eqb Pos.eqb isJsonSpace orb].
    change (u ":" ++ ?x) with (58 :: x). rewrite <-?app_comm_cons.
    rewrite run_member; [|done|destruct l; cbn; auto].
    rewrite IH. cbn [rev map]. by rewrite <-app_assoc.
Qed.

Lemma stringify_reads_back (value : jsdata) : reads_back value.
Proof.
  induction value as [s|n|elems IH|members IH] using jsdata_induction;
    intros stk rest Hrest; cbn [JSON_stringify to_json].
  - unfold QuoteJSONString. rewrite <-!app_assoc.
    cbn [app run step]. unfold step_value. cbn [isJsonSpace N.eqb Pos.eqb orb].
    apply run_string.
  - by apply run_decimal.
  - rewrite <-!app_assoc.
    change (u "[" ++ ?x) with (91 :: x). change (u "]" ++ ?x) with (93 :: x).
    cbn [app run step]. unfold step_value at 1.
    cbn [isJsonSpace N.eqb Pos.eqb orb].
    destruct IH as [|x l Hx Hl].
    + reflexivity.
    + cbn [map]. rewrite join_cons, <-app_assoc, run_ArrStart.
      rewrite Hx by (destruct l; cbn; auto).
      unfold resume at 1. cbn [complete].
      by rewrite run_elements.
  - rewrite <-!app_assoc.
    change (u "{" ++ ?x) with (123 :: x). change (u "}" ++ ?x) with (125 :: x).
    cbn [app run step]. unfold step_value at 1.
    cbn [isJsonSpace N.eqb Pos.eqb orb].
    destruct IH as [|x l Hx Hl].
    + reflexivity.
    + cbn [map]. fold (member_text x).
      change (map (λ m, QuoteJSONString m.1 ++ u ":" ++ JSON_stringify m.2) l)
        with (map member_text l).
      rewrite join_cons, <-app_assoc.
      unfold member_text at 1, QuoteJSONString. rewrite <-!app_assoc.
      cbn [app run step N.eqb Pos.eqb isJsonSpace orb].
      change (u ":" ++ ?x) with (58 :: x). rewrite <-?app_comm_cons.
      rewrite run_member; [|done|destruct l; cbn; auto].
      by rewrite run_members.
Qed.

Lemma parse_stringify (value : jsdata) :
  parse (JSON_stringify value) = Some (to_json value).
Proof.
  unfold parse. rewrite <-(app_nil_r (JSON_stringify value)).
  by rewrite stringify_reads_back.
Qed.

End RoundTrip.

(** ** Lines of the body *)

Section Lines.

Lemma hexDigit_no_lf (d : N) : hexDigit d ≠ 10.
Proof. unfold hexDigit. destruct (d <? 10); lia. Qed.

Lemma unicodeEscape_no_lf (c : N) : 10 ∉ unicodeEscape c.
Proof.
  unfold unicodeEscape. rewrite !elem_of_cons, elem_of_nil.
  pose proof (hexDigit_no_lf (c / 4096)). pose proof (hexDigit_no_lf ((c / 256) mod 16)).
  pose proof (hexDigit_no_lf ((c / 16) mod 16)). pose proof (hexDigit_no_lf (c mod 16)).
  intros [?|[?|[?|[?|[?|[?|[]]]]]]]; done.
Qed.

Lemma quoteUnit_no_lf (c : N) : 10 ∉ quoteUnit c.
Proof.
  unfold quoteUnit.
  repeat match goal with
  | |- context [if ?x =? ?y then _ else _] =>
      let H := fresh in
      destruct (x =? y) eqn:H;
      [rewrite !elem_of_cons, elem_of_nil; intros [?|[?|[]]]; done|]
  end.
  destruct (c <? 32); [apply unicodeEscape_no_lf|].
  apply N.eqb_neq in H1. rewrite elem_of_cons, elem_of_nil. intros [?|[]]; done.
Qed.

Lemma quoteBody_no_lf (s : jsstring) : 10 ∉ quoteBody s.
Proof.
  induction s as [s IH] using (induction_ltof1 _ (@length N)).
  unfold ltof in IH. destruct s as [|c s']; cbn [quoteBody]; [apply not_elem_of_nil|].
  destruct (isLeadSurrogate c) eqn:Hlead.
  - apply andb_true_iff in Hlead as [Hc1%N.leb_le Hc2%N.leb_le].
    destruct s' as [|d s'']; [apply unicodeEscape_no_lf|].
    destruct (isTrailSurrogate d) eqn:Htrail.
    + apply andb_true_iff in Htrail as [Hd1%N.leb_le Hd2%N.leb_le].
      rewrite !elem_of_cons. intros [?|[?|?]]; [lia|lia|].
      by apply (IH s''); [simpl; lia|].
    + rewrite elem_of_app. intros [?|?]; [by apply (unicodeEscape_no_lf c)|].
      by apply (IH (d :: s'')); [simpl; lia|].
  - destruct (isTrailSurrogate c);
      rewrite elem_of_app; (intros [?|?]; [|by apply (IH s'); [simpl; lia|]]).
    + by apply (unicodeEscape_no_lf c).
    + by apply (quoteUnit_no_lf c).
Qed.

Lemma QuoteJSONString_no_lf (s : jsstring) : 10 ∉ QuoteJSONString s.
Proof.
  unfold QuoteJSONString. rewrite !elem_of_app, !elem_of_cons, !elem_of_nil.
  pose proof (quoteBody_no_lf s). intros [[?|[]]|[?|[?|[]]]]; done.
Qed.

Lemma digits_no_lf (d : Decimal.uint) : 10 ∉ digits d.
Proof.
  induction d; cbn [digits]; [apply not_elem_of_nil|..];
    rewrite elem_of_cons; by intros [?|?].
Qed.

Lemma join_no_lf (l : list jsstring) :
  Forall (λ s, 10 ∉ s) l → 10 ∉ join (u ",") l.
Proof.
  induction 1 as [|x l Hx Hl IH]; [apply not_elem_of_nil|].
  rewrite join_cons, elem_of_app. intros [?|Hin]; [done|].
  destruct l as [|y l]; [by apply elem_of_nil in Hin|].
  apply IH. rewrite join_cons. cbn [map concat] in Hin.
  rewrite <-app_comm_cons, elem_of_cons in Hin. by destruct Hin.
Qed.

Lemma stringify_no_lf (value : jsdata) : 10 ∉ JSON_stringify value.
Proof.
  induction value as [s|n|elems IH|members IH] using jsdata_induction;
    cbn [JSON_stringify].
  - apply QuoteJSONString_no_lf.
  - apply digits_no_lf.
  - rewrite !elem_of_app. intros [Hin|[Hin|Hin]].
    + apply list_elem_of_singleton in Hin. done.
    + revert Hin. apply join_no_lf. by apply Forall_fmap.
    + apply list_elem_of_singleton in Hin. done.
  - rewrite !elem_of_app. intros [Hin|[Hin|Hin]].
    + apply list_elem_of_singleton in Hin. done.
    + revert Hin. apply join_no_lf. apply Forall_fmap.
      eapply Forall_impl; [exact IH|]. intros [k v] Hv. unfold compose. cbn [fst snd] in *.
      rewrite !elem_of_app. pose proof (QuoteJSONString_no_lf k).
      intros [?|[Hc|?]]; [done| |done].
      apply list_elem_of_singleton in Hc. done.
    + apply list_elem_of_singleton in Hin. done.
Qed.

(** An object text stands between braces: trimming leaves it as it
    is. *)
Lemma trim_braces (s : jsstring) : trim (123 :: s ++ [125]) = 123 :: s ++ [125].
Proof.
  unfold trim. change (trimStart (123 :: s ++ [125])) with (123 :: s ++ [125]).
  rewrite trimEnd_cons by done. f_equal.
  unfold trimEnd. rewrite rev_app_distr. cbn [rev app].
  change (trimStart (125 :: rev s)) with (125 :: rev s).
  cbn [rev]. by rewrite rev_involutive.
Qed.

Lemma stringify_object (members : list (jsstring * jsdata)) :
  ∃ s, JSON_stringify (DObject members) = 123 :: s ++ [125].
Proof. cbn [JSON_stringify]. by eexists. Qed.

End Lines.

(** ** The reading loop *)

Section ReaderFacts.

Context {St V : Type}.
Variable handle : jsstring → St → St * option V.
Variable truthy : V → bool.

(** Scanning a text in two pieces. *)
Lemma scan_app (b1 b2 : jsstring) : ∀ st acc,
  scan handle st acc (b1 ++ b2)
  = match scan handle st acc b1 with
    | (st', kept, None) => scan handle st' (rev kept) b2
    | (st', kept, Some e) => (st', kept ++ b2, Some e)
    end.
Proof.
  induction b1 as [|c b1 IH]; intros st acc; cbn [app scan].
  - by rewrite rev_involutive.
  - destruct (c =? 10); [|apply IH].
    destruct (trim (rev acc)) as [|x line]; [apply IH|].
    destruct (handle (x :: line) st) as [st' [e|]]; [done|apply IH].
Qed.

Lemma not_in_rev (c : N) (s : jsstring) : c ∉ s → c ∉ rev s.
Proof. by rewrite !list_elem_of_In, <-in_rev. Qed.

(** What [processBuffer] leaves holds no line feed, unless it returned. *)
Lemma scan_kept (b : jsstring) : ∀ st acc st' kept,
  10 ∉ acc → scan handle st acc b = (st', kept, None) → 10 ∉ kept.
Proof.
  induction b as [|c b IH]; intros st acc st' kept Hacc; cbn [scan].
  - intros [= <- <-]. by apply not_in_rev.
  - destruct (c =? 10) eqn:Hc.
    + destruct (trim (rev acc)) as [|x line].
      * apply IH. by intros ?%elem_of_nil.
      * destruct (handle (x :: line) st) as [st1 [e|]]; [done|].
        apply IH. by intros ?%elem_of_nil.
    + apply IH. apply N.eqb_neq in Hc.
      intros [?|?]%elem_of_cons; [by subst|done].
Qed.

Lemma scan_no_newline (b : jsstring) : ∀ st acc,
  10 ∉ b → scan handle st acc b = (st, rev acc ++ b, None).
Proof.
  induction b as [|c b IH]; intros st acc Hb; cbn [scan].
  - by rewrite app_nil_r.
  - rewrite (proj2 (N.eqb_neq c 10)) by (intros ->; apply Hb; left).
    rewrite IH by (intros ?; apply Hb; by right).
    cbn [rev]. by rewrite <-app_assoc.
Qed.

(** One line of the text, with the line feed that ends it. *)
Lemma scan_line (line rest : jsstring) (st : St) :
  10 ∉ line →
  scan handle st [] (line ++ 10 :: rest)
  = match trim line with
    | [] => scan handle st [] rest
    | (_ :: _) as l =>
        match handle l st with
        | (st', Some e) => (st', rest, Some e)
        | (st', None) => scan handle st' [] rest
        end
    end.
Proof.
  intros Hline. rewrite scan_app, scan_no_newline by done.
  cbn [rev app scan N.eqb Pos.eqb]. by rewrite rev_involutive.
Qed.

(** Going on with the text left over is going on from where the scan
    stopped. *)
Lemma processBuffer_resume (kept value : jsstring) (st : St) :
  10 ∉ kept →
  processBuffer handle st (kept ++ value) = scan handle st (rev kept) value.
Proof.
  intros Hkept. unfold processBuffer. rewrite scan_app.
  by rewrite (scan_no_newline kept st []) by done.
Qed.

Lemma read_done_kept (kept : jsstring) (st : St) (e : option V) :
  10 ∉ kept → read_done handle st kept e = (st, kept, e).
Proof.
  intros Hkept. unfold read_done, processBuffer.
  by rewrite (scan_no_newline kept st []).
Qed.

Lemma read_loop_scan (chunks : list jsstring) (failure : option exn) :
  ∀ st kept st1 kept1 returned,
  10 ∉ kept →
  scan handle st (rev kept) (concat chunks) = (st1, kept1, returned) →
  (returned ≠ None → kept1 = []) →
  read_loop handle truthy chunks failure st kept
  = match returned, failure with
    | None, Some e => (Throw e, st1)
    | _, _ => (Normal (kept1, returned), st1)
    end.
Proof.
  induction chunks as [|value chunks IH];
    intros st kept st1 kept1 returned Hkept Hscan Hret.
  - cbn [concat scan] in Hscan. injection Hscan as <- <- <-.
    cbn [read_loop]. destruct failure as [e|]; [done|].
    rewrite rev_involutive. by rewrite read_done_kept.
  - cbn [concat] in Hscan. rewrite scan_app in Hscan.
    cbn [read_loop]. rewrite processBuffer_resume by done.
    destruct (scan handle st (rev kept) value) as [[st' kept'] [e|]] eqn:Hvalue.
    + injection Hscan as <- <- <-.
      destruct (kept' ++ concat chunks) eqn:Hnil; [|by specialize (Hret ltac:(done))].
      apply app_eq_nil in Hnil as [-> _].
      destruct (truthy e); [done|].
      by rewrite read_done_kept by apply not_elem_of_nil.
    + eapply IH; [|done..].
      eapply scan_kept; [|done]. by apply not_in_rev.
Qed.

End ReaderFacts.

(** X17. Reading the streamed body does not depend on how the body is
    cut into chunks: whatever the block that decodes a line does, the
    reading loop ends as one pass of [processBuffer] over the whole text
    does, provided that pass, if it returns early, returns at the last
    line feed.  A read that fails after the last chunk is thrown, unless
    the block had returned (and cancelled the reader) before. *)
Theorem reading_is_independent_of_chunking {St V : Type}
  (handle : jsstring → St → St * option V) (truthy : V → bool)
  (chunks : list jsstring) (failure : option exn)
  (st st1 : St) (kept1 : jsstring) (returned : option V) :
  processBuffer handle st (concat chunks) = (st1, kept1, returned) →
  (returned ≠ None → kept1 = []) →
  read_loop handle truthy chunks failure st []
  = match returned, failure with
    | None, Some e => (Throw e, st1)
    | _, _ => (Normal (kept1, returned), st1)
    end.
Proof. intros Hscan Hret. by apply read_loop_scan; [apply not_elem_of_nil|..]. Qed.

(** ** The frames the handler writes are plain *)

Section PlainFrames.

Variables (req : request) (env : environment).

Lemma keeps_bind {A B} (m : M A) (f : A → M B) :
  keeps_plain m → (∀ a, keeps_plain (f a)) → keeps_plain (m ≫= f).
Proof. intros Hm Hf. eapply triple_bind; [exact Hm|exact Hf]. Qed.

Lemma keeps_silent {A} (m : M A) : silent m → keeps_plain m.
Proof.
  intros Hm. apply triple_silent; [done|].
  unfold plain_frames. by intros w w' -> _.
Qed.

Lemma keeps_lift {A} (c : completion A) : keeps_plain (lift c).
Proof. intros w Hw. unfold lift. by destruct c. Qed.

Lemma keeps_writeLine (line : frame) :
  frame_plain line → keeps_plain (writeLine line).
Proof.
  intros Hline w Hw. unfold writeLine.
  destruct (responseEnded w || writableEnded (res w)); [done|].
  unfold plain_frames in *. simpl. apply Forall_app. split; [done|].
  by apply Forall_singleton.
Qed.

Lemma keeps_endResponse : keeps_plain endResponse.
Proof.
  intros w Hw. unfold endResponse.
  by destruct (negb (responseEnded w) && negb (writableEnded (res w))).
Qed.

Lemma keeps_sendError (message : jsstring) : keeps_plain (sendError message).
Proof.
  apply keeps_bind; [by apply keeps_writeLine|intros; apply keeps_endResponse].
Qed.

Lemma keeps_sendResult (payload : SessionSummaryResponse) :
  keeps_plain (sendResult payload).
Proof.
  apply keeps_bind; [by apply keeps_writeLine|intros; apply keeps_endResponse].
Qed.

Lemma keeps_try_catch {A} (body : M A) (h : exn → M A) :
  keeps_plain body → (∀ e, keeps_plain (h e)) → keeps_plain (try_catchM body h).
Proof. intros Hbody Hh. eapply triple_try_catch; [exact Hbody|exact Hh]. Qed.

Lemma keeps_try_finally {A} (body : M A) (cleanup : M unit) :
  keeps_plain body → keeps_plain cleanup →
  keeps_plain (try_finallyM body cleanup).
Proof.
  intros Hbody Hcleanup.
  eapply triple_try_finally; [exact Hbody|intros; exact Hcleanup..].
Qed.

Lemma keeps_report (e : exn) : keeps_plain (report e).
Proof.
  intros w Hw. unfold report.
  destruct (negb (responseEnded w) && negb (writableEnded (res w))); [|done].
  by apply keeps_sendError.
Qed.

Ltac solve_plain :=
  unfold frame_plain, plain_meta;
  repeat (apply Forall_cons; split;
          [split; intros Heq; vm_compute in Heq; discriminate|]);
  apply Forall_nil_2.

Lemma keeps_transcribe (audioFile : FormidableFile) (readablePath : jsstring) :
  keeps_plain (transcribe env audioFile readablePath).
Proof.
  unfold transcribe.
  apply keeps_bind; [apply keeps_silent, silent_stat|intros sz].
  destruct (sz =? 0); [apply keeps_lift|].
  apply keeps_bind; [apply keeps_writeLine; solve_plain|intros []].
  apply keeps_bind;
    [apply keeps_silent, silent_transcriptions_create|intros [text|]];
    [|apply keeps_lift].
  apply keeps_bind; [apply keeps_writeLine; solve_plain|intros []].
  apply keeps_silent, silent_ret.
Qed.

Lemma keeps_summarize (cleaned : list jsstring) (transcriptText : jsstring) :
  keeps_plain (summarize env cleaned transcriptText).
Proof.
  unfold summarize.
  apply keeps_bind; [apply keeps_writeLine; solve_plain|intros []].
  apply keeps_bind;
    [apply keeps_silent, silent_chat_completions_create|intros [[|c content]|]];
    try apply keeps_sendError.
  apply keeps_bind; [apply keeps_lift|intros parsed].
  apply keeps_bind; [apply keeps_writeLine; solve_plain|intros []].
  apply keeps_sendResult.
Qed.

Lemma keeps_process (fields : Fields) (files : Files) :
  keeps_plain (process env fields files).
Proof.
  unfold process.
  case_bool_decide; [apply keeps_sendError|].
  apply keeps_bind; [apply keeps_lift|intros cleaned].
  case_bool_decide; [apply keeps_sendError|].
  destruct (pick_audio files) as [audioFile|]; [|apply keeps_sendError].
  destruct (filepath audioFile) as [|c path]; [apply keeps_sendError|].
  apply keeps_bind; [apply keeps_writeLine; solve_plain|intros []].
  apply keeps_bind;
    [apply keeps_silent, silent_ensureExtensionOnPath|intros readablePath].
  apply keeps_bind.
  { apply keeps_try_finally; [apply keeps_transcribe|].
    apply keeps_silent, silent_cleanup. }
  intros [|c' text]; [apply keeps_sendError|apply keeps_summarize].
Qed.

Lemma keeps_pipeline : keeps_plain (try_catchM (pipeline req env) report).
Proof.
  apply keeps_try_catch; [|apply keeps_report]. unfold pipeline.
  apply keeps_bind; [apply keeps_writeLine; solve_plain|intros []].
  apply keeps_bind;
    [apply keeps_silent, silent_parseMultipart|intros [fields files]].
  apply keeps_process.
Qed.

Lemma handler_frames_plain (disk : gmap jsstring N) (w : world) :
  method req = u "POST" → ensureEnv env = Normal () →
  handler req env (initial_world disk) = (Normal (), w) →
  plain_frames w.
Proof.
  intros Hmethod Henv. rewrite handler_streams by done. intros Hrun.
  pose proof (keeps_pipeline (streaming_world disk)) as H.
  rewrite Hrun in H. apply H. apply Forall_nil_2.
Qed.

End PlainFrames.

(** ** The page reads what the route wrote *)

Section Events.

Variable nonzero : jsstring → bool.


Lemma lookup_member_app_ne (k k' : jsstring) (v : JValue) ms :
  k' ≠ k → lookup_member k (ms ++ [(k', v)]) = lookup_member k ms.
Proof.
  intros Hne. induction ms as [|[k1 v1] ms IH]; cbn [app lookup_member].
  - by rewrite decide_False.
  - by rewrite IH.
Qed.

Lemma lookup_member_set_prop (k k' : jsstring) (v : jsdata) ms :
  k' ≠ k →
  lookup_member k (json_members (set_prop k' v ms))
  = lookup_member k (json_members ms).
Proof.
  intros Hne. unfold set_prop. case_bool_decide as Hin.
  - clear Hin. unfold json_members.
    induction ms as [|[k1 v1] ms IH]; [done|].
    cbn [map fst snd].
    destruct (decide (k1 = k')) as [->|Hk1]; cbn [fst snd lookup_member];
      rewrite IH; [|done].
    by rewrite !decide_False.
  - unfold json_members. rewrite map_app. cbn [map fst snd].
    by apply lookup_member_app_ne.
Qed.

Lemma lookup_member_meta (k : jsstring) meta : ∀ ms,
  Forall (λ m : jsstring * meta_value, m.1 ≠ k) meta →
  lookup_member k
    (json_members (fold_left (λ o m, set_prop m.1 (meta_data m.2) o) meta ms))
  = lookup_member k (json_members ms).
Proof.
  induction meta as [|[k' v] meta IH]; intros ms Hmeta; [done|].
  apply Forall_cons in Hmeta as [Hk Hmeta]. cbn [fold_left fst snd] in *.
  rewrite IH by done. by apply lookup_member_set_prop.
Qed.

Lemma parse_data (value : jsdata) :
  JSON_parse (JSON_stringify value) = Normal (to_json value).
Proof. unfold JSON_parse. by rewrite parse_stringify. Qed.

Ltac eval_is_text :=
  repeat match goal with
  | |- context [is_text (Some (JString (u ?a))) ?b] =>
      let r := eval vm_compute in (is_text (Some (JString (u a))) b) in
      change (is_text (Some (JString (u a))) b) with r
  end.


Lemma handle_progress (message : jsstring) meta (st : reading) :
  plain_meta meta →
  handle_event nonzero (JSON_stringify (frame_data (Progress message meta))) st
  = (on_progress message st, None).
Proof.
  intros Hmeta. unfold handle_event. rewrite parse_data.
  cbn [frame_data to_json].
  change (map (λ m, (m.1, to_json m.2)) ?x) with (json_members x).
  set (ms := json_members _).
  assert (lookup_member (u "type") ms = Some (JString (u "progress"))) as Htype.
  { unfold ms. rewrite lookup_member_meta; [by vm_compute|].
    eapply Forall_impl; [exact Hmeta|]. by intros ? [? ?]. }
  assert (lookup_member (u "message") ms = Some (JString message)) as Hmessage.
  { unfold ms. rewrite lookup_member_meta.
    - cbn [json_members map fst snd to_json lookup_member].
      rewrite decide_True by done. done.
    - eapply Forall_impl; [exact Hmeta|]. by intros ? [? ?]. }
  cbn [mbind completion_bind get]. rewrite Htype, Hmessage. eval_is_text.
  cbn [andb truthy_val truthy]. unfold on_progress.
  by destruct (bool_decide (message ≠ [])).
Qed.

Lemma handle_result (payload : SessionSummaryResponse) (st : reading) :
  handle_event nonzero (JSON_stringify (frame_data (Result payload))) st
  = ({| ui := setStatusMessage null
               (setResult (Some (to_json (payload_data payload))) (ui st));
        streamResult := Some (to_json (payload_data payload)) |}, None).
Proof.
  unfold handle_event. rewrite parse_data.
  cbn [frame_data to_json map fst snd].
  set (p := to_json (payload_data payload)).
  cbn [mbind completion_bind get].
  assert (∀ v, lookup_member (u "type") [(u "type", v); (u "payload", p)] = Some v) as ->.
  { intros v. by vm_compute. }
  assert (∀ v, lookup_member (u "message") [(u "type", v); (u "payload", p)] = None) as ->.
  { intros v. by vm_compute. }
  assert (∀ v, lookup_member (u "payload") [(u "type", v); (u "payload", p)] = Some p) as ->.
  { intros v. by vm_compute. }
  eval_is_text. reflexivity.
Qed.

Lemma handle_error (message : jsstring) (st : reading) :
  handle_event nonzero (JSON_stringify (frame_data (ErrorFrame message))) st
  = ({| ui := setStatusMessage null
               (setError (Some (JString message)) (ui st));
        streamResult := streamResult st |}, Some (JString message)).
Proof.
  unfold handle_event. rewrite parse_data.
  cbn [frame_data to_json map fst snd].
  cbn [mbind completion_bind get].
  assert (∀ v w, lookup_member (u "type") [(u "type", v); (u "message", w)] = Some v) as ->.
  { intros v w. by vm_compute. }
  assert (∀ v w, lookup_member (u "message") [(u "type", v); (u "message", w)] = Some w) as ->.
  { intros v w. by vm_compute. }
  eval_is_text. reflexivity.
Qed.

End Events.

(** ** Bodies the route can send *)

Section ReadingFrames.

Variable nonzero : jsstring → bool.

Local Abbreviation handle := (handle_event nonzero).


Lemma scan_frame (f : frame) (rest : jsstring) (st : reading) :
  scan handle st [] ((JSON_stringify (frame_data f) ++ [10]) ++ rest)
  = match handle (JSON_stringify (frame_data f)) st with
    | (st', Some e) => (st', rest, Some e)
    | (st', None) => scan handle st' [] rest
    end.
Proof.
  rewrite <-app_assoc. cbn [app].
  rewrite scan_line by apply stringify_no_lf.
  assert (∃ s, JSON_stringify (frame_data f) = 123 :: s ++ [125]) as [s ->].
  { destruct f; apply stringify_object. }
  by rewrite trim_braces.
Qed.

Lemma scan_progress_frames (ps : list frame) (rest : jsstring) :
  all_progress ps → Forall frame_plain ps → ∀ st,
  ∃ st', scan handle st [] (frame_lines ps ++ rest) = scan handle st' [] rest ∧
         streamResult st' = streamResult st ∧
         isLoading (ui st') = isLoading (ui st) ∧
         result (ui st') = result (ui st) ∧
         error (ui st') = error (ui st).
Proof.
  unfold frame_lines.
  induction ps as [|f ps IH]; intros Hps Hplain st; [by exists st|].
  apply Forall_cons in Hps as [Hf Hps].
  apply Forall_cons in Hplain as [Hfp Hplain].
  cbn [map concat]. rewrite <-app_assoc, scan_frame.
  destruct f as [message meta| |]; try done.
  rewrite handle_progress by done.
  destruct (IH Hps Hplain (on_progress message st)) as (st' & -> & H1 & H2 & H3 & H4).
  exists st'. split; [done|]. rewrite H1, H2, H3, H4. unfold on_progress.
  by destruct (bool_decide (message ≠ [])).
Qed.

Lemma frame_lines_app (l1 l2 : list frame) :
  frame_lines (l1 ++ l2) = frame_lines l1 ++ frame_lines l2.
Proof. unfold frame_lines. by rewrite map_app, concat_app. Qed.


(** A body that ends with a result frame. *)
Lemma read_response_result (ps : list frame) (payload : SessionSummaryResponse)
    (body : stream) (pg : page) :
  all_progress ps → Forall frame_plain ps →
  failure body = None →
  concat (chunks body) = frame_lines (ps ++ [Result payload]) →
  read_response nonzero body pg
  = ({| isLoading := isLoading pg; statusMessage := null;
        result := Some (to_json (payload_data payload));
        error := error pg |}, None).
Proof.
  intros Hps Hplain Hfail Hbody. unfold read_response. rewrite Hfail.
  set (st0 := {| ui := pg; streamResult := null |}).
  destruct (scan_progress_frames ps (frame_lines [Result payload]) Hps Hplain st0)
    as (st' & Hscan & H1 & H2 & H3 & H4).
  rewrite <-frame_lines_app, <-Hbody in Hscan.
  unfold frame_lines at 1 in Hscan. cbn [map concat] in Hscan.
  rewrite scan_frame, handle_result in Hscan. cbn [scan rev] in Hscan.
  rewrite (read_loop_scan _ _ _ None _ [] _ _ _ (not_elem_of_nil _) Hscan) by done.
  unfold leftover_fallback. cbn [streamResult truthy_val truthy to_json payload_data].
  cbn [ui negb]. unfold setStatusMessage, setResult. cbn. by rewrite H2, H4.
Qed.

(** A body that ends with an error frame. *)
Lemma read_response_error (ps : list frame) (message : jsstring)
    (body : stream) (pg : page) :
  all_progress ps → Forall frame_plain ps →
  failure body = None →
  concat (chunks body) = frame_lines (ps ++ [ErrorFrame message]) →
  read_response nonzero body pg
  = ({| isLoading := isLoading pg; statusMessage := null;
        result := result pg;
        error := Some (JString message) |},
     if decide (message = []) then Some no_summary else None).
Proof.
  intros Hps Hplain Hfail Hbody. unfold read_response. rewrite Hfail.
  set (st0 := {| ui := pg; streamResult := null |}).
  destruct (scan_progress_frames ps (frame_lines [ErrorFrame message]) Hps Hplain st0)
    as (st' & Hscan & H1 & H2 & H3 & H4).
  rewrite <-frame_lines_app, <-Hbody in Hscan.
  unfold frame_lines at 1 in Hscan. cbn [map concat] in Hscan.
  rewrite scan_frame, handle_error in Hscan.
  rewrite (read_loop_scan _ _ _ None _ [] _ _ _ (not_elem_of_nil _) Hscan) by done.
  unfold leftover_fallback. cbn [streamResult]. rewrite H1.
  cbn [st0 streamResult null truthy_val truthy trim trimStart trimEnd rev length].
  rewrite bool_decide_eq_false_2 by (simpl; lia).
  cbn [ui]. unfold setStatusMessage, setError. cbn [isLoading result error statusMessage].
  rewrite H2, H3. cbn [negb].
  cbn [streamResult truthy_val truthy null negb st0 ui].
  destruct (decide (message = [])) as [->|Hm]; [done|].
  by rewrite bool_decide_eq_true_2.
Qed.

(** A body that is the [{ error }] object of [res.json]. *)
Lemma read_response_json (message : jsstring) (body : stream) (pg : page) :
  failure body = None →
  concat (chunks body) = JSON_stringify (DObject [(u "error", DString message)]) →
  read_response nonzero body pg
  = ({| isLoading := isLoading pg; statusMessage := null;
        result := result pg;
        error := Some (JString message) |},
     if decide (message = []) then Some no_summary else None).
Proof.
  intros Hfail Hbody. unfold read_response. rewrite Hfail.
  set (st0 := {| ui := pg; streamResult := null |}).
  set (text := JSON_stringify (DObject [(u "error", DString message)])) in *.
  assert (processBuffer handle st0 (concat (chunks body)) = (st0, text, None)) as Hscan.
  { rewrite Hbody. unfold processBuffer.
    by rewrite scan_no_newline by apply stringify_no_lf. }
  rewrite (read_loop_scan _ _ _ None _ [] _ _ _ (not_elem_of_nil _) Hscan) by done.
  unfold leftover_fallback.
  cbn [st0 streamResult null truthy_val truthy].
  destruct (stringify_object [(u "error", DString message)]) as [s Hs].
  fold text in Hs. rewrite Hs, trim_braces, <-Hs.
  rewrite bool_decide_eq_true_2 by (rewrite Hs; simpl; lia).
  unfold text. rewrite parse_data. cbn [to_json map fst snd].
  assert (∀ v, lookup_member (u "error") [(u "error", v)] = Some v) as ->.
  { intros v. by vm_compute. }
  cbn [ui streamResult truthy_val truthy].
  unfold setStatusMessage, setError. cbn [isLoading result error statusMessage negb].
  cbn [streamResult truthy_val truthy null negb st0 ui].
  destruct (decide (message = [])) as [->|Hm]; [done|].
  by rewrite bool_decide_eq_true_2.
Qed.

End ReadingFrames.

(** ** Submitting the form *)

Section Submit.

Variable nonzero : jsstring → bool.
Context {A : Type}.
Variable fetch : A → jsstring → completion stream.

(** [handleSubmit] once the form is accepted and [fetch] has resolved. *)
Lemma handleSubmit_fetched (file : A) (players : list jsstring) (body : stream)
    (pg : page) :
  cleanedPlayers players ≠ [] →
  fetch file (JSON_stringify (DArray (map DString (cleanedPlayers players))))
  = Normal body →
  handleSubmit nonzero fetch (Some file) players pg
  = let pg1 := {| isLoading := true; statusMessage := text "Uploading audio...";
                  result := null; error := null |} in
    let pg2 := (read_response nonzero body pg1).1 in
    setStatusMessage null
      (setIsLoading false
         match (read_response nonzero body pg1).2 with
         | Some (ErrorObj _ message) => setError (Some (JString message)) pg2
         | Some NonError => setError (text "Failed to process session.") pg2
         | None => pg2
         end).
Proof.
  intros Hroster Hfetch. unfold handleSubmit.
  rewrite bool_decide_eq_false_2 by (by destruct (cleanedPlayers players)).
  rewrite Hfetch. cbv zeta.
  change (setStatusMessage (text "Uploading audio...")
            (setResult null (setError null (setIsLoading true pg))))
    with {| isLoading := true; statusMessage := text "Uploading audio...";
            result := null; error := null |}.
  by destruct (read_response nonzero body _) as [pg2 thrown].
Qed.

End Submit.

(** X18. The page ends with what the route answered.  Whatever the
    request, and however the body of the reply is cut into chunks, an
    accepted form ends idle, without a status line, and shows: the
    summary of the result frame and no error; or the message of the
    error frame (the page's own "The server did not return a summary."
    when that message is empty) and no summary; or the [error] text of
    a reply sent with [res.json]. *)
Theorem page_shows_the_reply (nonzero : jsstring → bool)
    (req : request) (env : environment) (disk : gmap jsstring N) :
  ∃ w, handler req env (initial_world disk) = (Normal (), w) ∧
    ∀ (A : Type) (fetch : A → jsstring → completion stream) (file : A)
      (players : list jsstring) (body : list jsstring) (pg : page),
      cleanedPlayers players ≠ [] →
      fetch file (JSON_stringify (DArray (map DString (cleanedPlayers players))))
      = Normal {| chunks := body; failure := None |} →
      concat body = body_text (res w) →
      ∃ shown_result shown_error,
        handleSubmit nonzero fetch (Some file) players pg
        = {| isLoading := false; statusMessage := null;
             result := shown_result; error := shown_error |} ∧
        match jsonBody (res w), last (written (res w)) with
        | Some message, _ =>
            shown_result = null ∧ shown_error = Some (JString message)
        | None, Some (Result payload) =>
            shown_result = Some (to_json (payload_data payload)) ∧
            shown_error = null
        | None, Some (ErrorFrame message) =>
            shown_result = null ∧
            shown_error
            = Some (JString (if decide (message = [])
                             then u "The server did not return a summary."
                             else message))
        | None, _ => False
        end.
Proof.
  destruct (handler_outcome req env disk) as (w & Hrun & Hcases).
  exists w. split; [done|].
  intros A fetch file players body pg Hroster Hfetch Hbody.
  rewrite (handleSubmit_fetched nonzero fetch file players _ pg Hroster Hfetch).
  cbv zeta.
  destruct Hcases as [[_ Hres]|[(_ & _ & Hres)|(Hmethod & Henv & Hclosed)]].
  - rewrite Hres in *. cbn [jsonBody body_text] in *.
    rewrite (read_response_json nonzero (u "Method not allowed")) by done.
    by eexists _, _.
  - rewrite Hres in *. cbn [jsonBody body_text] in *.
    rewrite (read_response_json nonzero (u "OPENAI_KEY is not configured")) by done.
    by eexists _, _.
  - pose proof (handler_frames_plain req env disk w Hmethod Henv Hrun) as Hplain.
    destruct Hclosed as ((_ & _ & Hjson) & _ & _ & ps & t & Hps & Ht & Hw & _).
    unfold body_text in Hbody. unfold plain_frames in Hplain.
    rewrite Hjson in *. rewrite Hw in *.
    rewrite app_comm_cons in *. rewrite last_snoc.
    apply Forall_app in Hplain as [Hplain _].
    assert (all_progress (Progress (u "Parsing upload") [] :: ps)) as Hps'
      by (by apply Forall_cons).
    destruct t as [| payload | message]; [done|..].
    + rewrite (read_response_result nonzero _ payload) by done.
      by eexists _, _.
    + rewrite (read_response_error nonzero _ message) by done.
      destruct (decide (message = [])) as [->|Hm]; by eexists _, _.
Qed.

(** ** A reply that stops early *)

Section CutShort.

Variable nonzero : jsstring → bool.

(** A body of progress frames only. *)
Lemma read_response_progress (ps : list frame) (body : stream) (pg : page) :
  all_progress ps → Forall frame_plain ps →
  concat (chunks body) = frame_lines ps →
  ∃ pg2, read_response nonzero body pg
         = (pg2, Some match failure body with
                      | Some e => e
                      | None => no_summary
                      end) ∧
         result pg2 = result pg ∧ error pg2 = error pg.
Proof.
  intros Hps Hplain Hbody. unfold read_response.
  set (st0 := {| ui := pg; streamResult := null |}).
  destruct (scan_progress_frames nonzero ps [] Hps Hplain st0)
    as (st' & Hscan & H1 & H2 & H3 & H4).
  rewrite app_nil_r, <-Hbody in Hscan. cbn [scan rev] in Hscan.
  rewrite (read_loop_scan _ _ _ (failure body) _ [] _ _ _ (not_elem_of_nil _) Hscan)
    by done.
  destruct (failure body) as [e|]; [by exists (ui st')|].
  unfold leftover_fallback. rewrite H1.
  cbn [st0 streamResult null truthy_val truthy trim trimStart trimEnd rev length].
  rewrite bool_decide_eq_false_2 by (simpl; lia).
  cbn [truthy_val]. rewrite H1. cbn [st0 streamResult null truthy_val truthy negb].
  by exists (ui st').
Qed.

End CutShort.

(** ** The list of player fields *)

Section PlayerFields.

Lemma handlePlayerChange_insert (index : nat) (value : jsstring)
    (prev : list jsstring) :
  handlePlayerChange index value prev = <[index := value]> prev.
Proof.
  unfold handlePlayerChange. apply list_eq. intros i.
  rewrite list_lookup_imap.
  destruct (decide (i = index)) as [->|Hi].
  - destruct (prev !! index) as [p|] eqn:Hp; cbn.
    + symmetry. apply list_lookup_insert_eq. by eapply lookup_lt_Some.
    + symmetry. apply lookup_ge_None. rewrite length_insert.
      by apply lookup_ge_None.
  - rewrite list_lookup_insert_ne by done. by destruct (prev !! i).
Qed.

Lemma filter_from_delete (prev : list jsstring) : ∀ index start : nat,
  filter_from (λ _ idx, negb (bool_decide (idx = index))) start prev
  = if decide (index < start)%nat then prev else delete (index - start)%nat prev.
Proof.
  induction prev as [|p prev IH]; intros index start; [by case_decide|].
  cbn [filter_from]. rewrite IH.
  destruct (decide (start = index)) as [->|Hne].
  - rewrite bool_decide_eq_true_2 by done. cbn [negb].
    rewrite decide_True, decide_False by lia. by rewrite Nat.sub_diag.
  - rewrite bool_decide_eq_false_2 by done. cbn [negb].
    destruct (decide (index < start)%nat).
    + by rewrite decide_True by lia.
    + rewrite decide_False by lia.
      by replace (index - start)%nat with (S (index - S start)) by lia.
Qed.

Lemma cleanedPlayers_app (l1 l2 : list jsstring) :
  cleanedPlayers (l1 ++ l2) = cleanedPlayers l1 ++ cleanedPlayers l2.
Proof. unfold cleanedPlayers. by rewrite map_app, filter_app. Qed.

End PlayerFields.

(** X20. Editing the list of player fields: a change replaces the
    field at its index and nothing else, a removal takes out the field
    at its index and nothing else, and a field added and left empty
    changes nothing in the roster the form submits. *)
Theorem player_field_edits (index : nat) (value : jsstring)
    (prev : list jsstring) :
  handlePlayerChange index value prev = <[index := value]> prev ∧
  removePlayer index prev = delete index prev ∧
  cleanedPlayers (addPlayer prev) = cleanedPlayers prev.
Proof.
  split_and!.
  - apply handlePlayerChange_insert.
  - unfold removePlayer. rewrite filter_from_delete.
    rewrite decide_False by lia. by rewrite Nat.sub_0_r.
  - unfold addPlayer. rewrite cleanedPlayers_app.
    by rewrite app_nil_r.
Qed.

(** ** The roster from the form to the handler *)

Section RosterTransfer.

Lemma cleanedPlayers_fixed (players : list jsstring) :
  filter (λ player, (0 < length player)%nat) (map trim (cleanedPlayers players))
  = cleanedPlayers players.
Proof.
  unfold cleanedPlayers.
  induction players as [|p players IH]; [done|]. cbn [map].
  destruct (decide (trim p = [])) as [E|E].
  - by rewrite filter_cons_False by (by intros ?).
  - rewrite filter_cons_True by done. cbn [map]. rewrite trim_idemp.
    rewrite filter_cons_True by (destruct (trim p); [done|simpl; lia]).
    by rewrite IH.
Qed.

Lemma expand_players_field (names : list jsstring) :
  expand_entry (JSON_stringify (DArray (map DString names)))
  = map JString names.
Proof.
  unfold expand_entry. rewrite parse_data. cbn [to_json].
  by rewrite map_map.
Qed.

End RosterTransfer.

(** X15. What [JSON.parse] reads from the text [JSON.stringify] gives
    for a value built from strings, lengths, arrays and objects is that
    value: every string comes back code unit by code unit (quotes,
    backslashes, control characters and lone surrogates included), every
    array and object with its elements and members in order. *)
Theorem stringify_parse_round_trip (value : jsdata) :
  JSON_parse (JSON_stringify value) = Normal (to_json value).
Proof. apply parse_data. Qed.

(** X16. The roster the handler works with is the roster the form
    sent: the names the form keeps (trimmed, blanks dropped) come out of
    the handler's own parsing, trimming and filtering unchanged, whether
    the decoder hands the field over as an array of one string or as one
    string. *)
Theorem roster_arrives_as_sent (players : list jsstring) :
  let field := JSON_stringify (DArray (map DString (cleanedPlayers players))) in
  cleanPlayers (playerNames_of (Some (FieldArray [field])))
  = Normal (cleanedPlayers players)
  ∧ cleanPlayers (playerNames_of (Some (FieldString field)))
    = Normal (cleanedPlayers players).
Proof.
  intros field.
  assert (cleanPlayers (expand_entry field) = Normal (cleanedPlayers players)) as H.
  { unfold field. rewrite expand_players_field. unfold cleanPlayers.
    rewrite mapC_strings. simpl. by rewrite cleanedPlayers_fixed. }
  split; [|done]. simpl. by rewrite app_nil_r.
Qed.

Lemma reading_is_independent_of_chunking_witness :
  read_loop (handle_event (λ _, true)) (truthy (λ _, true))
    [uq "{'type':'er"; uq "ror','message':'x'}" ++ [10]] None
    {| ui := {| isLoading := true; statusMessage := null;
                result := null; error := null |};
       streamResult := null |} []
  = (Normal ([], Some (JString (u "x"))),
     {| ui := {| isLoading := true; statusMessage := null;
                 result := null; error := Some (JString (u "x")) |};
        streamResult := null |}).
Proof.
  apply (reading_is_independent_of_chunking
           (handle_event (λ _, true)) (truthy (λ _, true))
           [uq "{'type':'er"; uq "ror','message':'x'}" ++ [10]] None
           _ _ [] (Some (JString (u "x")))); [by vm_compute|done].
Defined.

(** X19. A reply cut short is reported: when the body holds progress
    frames only, the page shows no summary and, as its error, the
    message of the read that failed, or "The server did not return a
    summary." when the body just ended. *)
Theorem reply_cut_short (nonzero : jsstring → bool) {A : Type}
    (fetch : A → jsstring → completion stream) (file : A)
    (players : list jsstring) (body : stream) (ps : list frame) (pg : page) :
  cleanedPlayers players ≠ [] →
  fetch file (JSON_stringify (DArray (map DString (cleanedPlayers players))))
  = Normal body →
  all_progress ps → Forall frame_plain ps →
  concat (chunks body) = frame_lines ps →
  handleSubmit nonzero fetch (Some file) players pg
  = {| isLoading := false; statusMessage := null; result := null;
       error := Some (JString
                  match failure body with
                  | Some (ErrorObj _ message) => message
                  | Some NonError => u "Failed to process session."
                  | None => u "The server did not return a summary."
                  end) |}.
Proof.
  intros Hroster Hfetch Hps Hplain Hbody.
  rewrite (handleSubmit_fetched nonzero fetch file players body pg Hroster Hfetch).
  cbv zeta.
  destruct (read_response_progress nonzero ps body
              {| isLoading := true; statusMessage := text "Uploading audio...";
                 result := null; error := null |} Hps Hplain Hbody)
    as (pg2 & -> & Hresult & Herror).
  cbn [fst snd]. destruct pg2 as [l s r e]. cbn in Hresult, Herror. subst r e.
  by destruct (failure body) as [[]|].
Qed.

Lemma reply_cut_short_witness :
  let body := {| chunks := [uq "{'type':'progress',"; uq "'message':'Parsing upload'}" ++ [10]];
                 failure := None |} in
  handleSubmit (λ _, true) (λ _ _, Normal body) (Some ()) [u " Ann "; []]
    {| isLoading := false; statusMessage := null; result := null; error := null |}
  = {| isLoading := false; statusMessage := null; result := null;
       error := Some (JString (u "The server did not return a summary.")) |}.
Proof.
  intros body.
  apply (reply_cut_short (λ _, true) (λ _ _, Normal body) () [u " Ann "; []] body
           [Progress (u "Parsing upload") []]).
  - by vm_compute.
  - reflexivity.
  - by repeat constructor.
  - repeat constructor.
  - by vm_compute.
Defined.

(** * The two revisions of the route *)

Section Determined.

Lemma same_storage_refl (w : world) : same_storage w w.
Proof. done. Qed.

Lemma determined_ret {A} (a : A) : determined (mret a : M A).
Proof. by intros w w0 H. Qed.

Lemma determined_lift {A} (c : completion A) : determined (lift c).
Proof. by intros w w0 H. Qed.

Lemma determined_bind {A B} (m : M A) (f : A → M B) :
  determined m → (∀ a, determined (f a)) → determined (m ≫= f).
Proof.
  intros Hm Hf w w0 H. destruct (Hm w w0 H) as [Hr Hs].
  unfold mbind, M_bind. destruct (m w) as [[a|e] w'], (m w0) as [[a0|e0] w0'];
    simpl in *; simplify_eq; [by apply Hf|done].
Qed.

Lemma determined_try_catch {A} (body : M A) (h : exn → M A) :
  determined body → (∀ e, determined (h e)) → determined (try_catchM body h).
Proof.
  intros Hm Hh w w0 H. destruct (Hm w w0 H) as [Hr Hs].
  unfold try_catchM. destruct (body w) as [[a|e] w'], (body w0) as [[a0|e0] w0'];
    simpl in *; simplify_eq; [done|by apply Hh].
Qed.

Lemma determined_stat (p : jsstring) : determined (stat p).
Proof.
  intros w w0 (Hfs & Hlog & Hnet). unfold stat. rewrite Hfs.
  by destruct (fs w0 !! p).
Qed.

Lemma determined_rename (env : environment) (src dst : jsstring) :
  determined (rename env src dst).
Proof.
  intros w w0 (Hfs & Hlog & Hnet). unfold rename. rewrite Hfs.
  destruct (fs w0 !! src); [|done]. destruct (rename_ok env); [|done].
  unfold same_storage, with_fs. simpl. by rewrite ?Hfs, ?Hlog, ?Hnet.
Qed.

Lemma determined_copyFile (env : environment) (src dst : jsstring) :
  determined (copyFile env src dst).
Proof.
  intros w w0 (Hfs & Hlog & Hnet). unfold copyFile. rewrite Hfs.
  destruct (fs w0 !! src); [|done]. destruct (copy_ok env); [|done].
  unfold same_storage, with_fs. simpl. by rewrite ?Hfs, ?Hlog, ?Hnet.
Qed.

Lemma determined_unlink (p : jsstring) : determined (unlink p).
Proof.
  intros w w0 (Hfs & Hlog & Hnet). unfold unlink. rewrite Hfs.
  destruct (fs w0 !! p); [|done].
  unfold same_storage, with_fs. simpl. by rewrite ?Hfs, ?Hlog, ?Hnet.
Qed.

Lemma determined_cleanup (p : jsstring) :
  determined (try_catchM (unlink p) (λ _, mret ())).
Proof.
  apply determined_try_catch; [apply determined_unlink|].
  intros e. apply determined_ret.
Qed.

End Determined.

Section SideBySide.

Variables (req : request) (env : environment).

Lemma determined_ensureExtensionOnPath (file : FormidableFile) :
  determined (ensureExtensionOnPath env file).
Proof.
  unfold ensureExtensionOnPath.
  destruct (resolveExtension file) as [|c ext]; [apply determined_ret|].
  destruct (endsWith _ _); [apply determined_ret|].
  apply determined_try_catch.
  - apply determined_bind; [apply determined_rename|intros; apply determined_ret].
  - intros e. apply determined_bind; [apply determined_copyFile|intros []].
    apply determined_bind; [apply determined_cleanup|intros; apply determined_ret].
Qed.

Lemma determined_parseMultipart : determined (parseMultipart req).
Proof.
  intros w w0 (Hfs & Hlog & Hnet). unfold parseMultipart.
  destruct (multipart req) as [[fields files]|e]; [|done].
  unfold same_storage. simpl. by rewrite Hfs, Hlog, Hnet.
Qed.

Lemma determined_transcriptions_create (path fileName : jsstring) :
  determined (transcriptions_create env path fileName).
Proof.
  intros w w0 (Hfs & Hlog & Hnet). unfold transcriptions_create, same_storage.
  simpl. by rewrite Hfs, Hlog, Hnet.
Qed.

Lemma determined_chat_completions_create (roster : list jsstring)
    (transcriptText : jsstring) :
  determined (chat_completions_create env roster transcriptText).
Proof.
  intros w w0 (Hfs & Hlog & Hnet). unfold chat_completions_create, same_storage.
  simpl. by rewrite Hfs, Hlog, Hnet.
Qed.

(** *** Rules for two computations side by side *)

Lemma rel_bind {A A0 B B0} (P : world → world → Prop)
    (m : M A) (m0 : M A0) (f : A → M B) (f0 : A0 → M B0)
    (Q' : A → world → A0 → world → Prop)
    (Q : B → world → B0 → world → Prop) E :
  rel P m m0 Q' E →
  (∀ a a0, rel (λ w w0, Q' a w a0 w0) (f a) (f0 a0) Q E) →
  rel P (m ≫= f) (m0 ≫= f0) Q E.
Proof.
  intros Hm Hf w w0 Hw. specialize (Hm w w0 Hw). unfold mbind, M_bind.
  destruct (m w) as [[a|e] w'], (m0 w0) as [[a0|e0] w0']; try done.
  by apply Hf.
Qed.

(** A step the streaming revision takes alone. *)
Lemma rel_left {A0 B} (P P' : world → world → Prop)
    (m : M unit) (f : unit → M B) (m0 : M A0) Q E :
  (∀ w w0, P w w0 → ∃ w', m w = (Normal (), w') ∧ P' w' w0) →
  rel P' (f ()) m0 Q E →
  rel P (m ≫= f) m0 Q E.
Proof.
  intros Hm Hf w w0 Hw. destruct (Hm w w0 Hw) as (w' & Hrun & Hw').
  unfold mbind, M_bind. rewrite Hrun. by apply Hf.
Qed.

(** The same computation on both sides, when it is silent. *)
Lemma rel_same {A} (m : M A) :
  determined m → silent m →
  rel beside m m (λ a w a0 w0, a = a0 ∧ beside w w0)
                 (λ e w e0 w0, e = e0 ∧ beside w w0).
Proof.
  intros Hd Hs w w0 (Hsame & Hjson & Hguard).
  destruct (Hd w w0 Hsame) as [Hr Hsame']. destruct (Hs w) as [Hres Hended].
  unfold beside, guard_set in *.
  destruct (m w) as [[a|e] w'], (m w0) as [[a0|e0] w0']; simpl in *;
    simplify_eq; by rewrite Hres, Hended.
Qed.

Lemma rel_pure {A A0} (φ : Prop) (P : world → world → Prop)
    (m : M A) (m0 : M A0) Q E :
  (φ → rel P m m0 Q E) → rel (λ w w0, φ ∧ P w w0) m m0 Q E.
Proof. intros H w w0 [Hφ Hw]. by apply H. Qed.

Lemma rel_conseq {A A0} (P P' : world → world → Prop) (m : M A) (m0 : M A0)
    (Q Q' : A → world → A0 → world → Prop)
    (E E' : exn → world → exn → world → Prop) :
  rel P' m m0 Q' E' →
  (∀ w w0, P w w0 → P' w w0) →
  (∀ a w a0 w0, Q' a w a0 w0 → Q a w a0 w0) →
  (∀ e w e0 w0, E' e w e0 w0 → E e w e0 w0) →
  rel P m m0 Q E.
Proof.
  intros Hm HP HQ HE w w0 Hw. specialize (Hm w w0 (HP w w0 Hw)).
  destruct (m w) as [[a|e] w'], (m0 w0) as [[a0|e0] w0']; auto.
Qed.

Lemma rel_try_finally {A A0} (P : world → world → Prop)
    (body : M A) (body0 : M A0) (cleanup cleanup0 : M unit)
    (Q' : A → world → A0 → world → Prop) (E' : exn → world → exn → world → Prop)
    (Q : A → world → A0 → world → Prop) (E : exn → world → exn → world → Prop) :
  rel P body body0 Q' E' →
  (∀ a a0, rel (λ w w0, Q' a w a0 w0) cleanup cleanup0
               (λ _ w _ w0, Q a w a0 w0) E) →
  (∀ e e0, rel (λ w w0, E' e w e0 w0) cleanup cleanup0
               (λ _ w _ w0, E e w e0 w0) E) →
  rel P (try_finallyM body cleanup) (try_finallyM body0 cleanup0) Q E.
Proof.
  intros Hbody Hn He w w0 Hw. specialize (Hbody w w0 Hw). unfold try_finallyM.
  destruct (body w) as [[a|e] w'], (body0 w0) as [[a0|e0] w0']; try done.
  - specialize (Hn a a0 w' w0' Hbody).
    by destruct (cleanup w') as [[[]|?] ?], (cleanup0 w0') as [[[]|?] ?].
  - specialize (He e e0 w' w0' Hbody).
    by destruct (cleanup w') as [[[]|?] ?], (cleanup0 w0') as [[[]|?] ?].
Qed.


(** *** The emitter beside a reply *)

Lemma sendProgress_beside (message : jsstring) meta (w w0 : world) :
  beside w w0 →
  ∃ w', sendProgress message meta w = (Normal (), w') ∧ beside w' w0.
Proof.
  intros (Hsame & Hjson & Hguard). rewrite sendProgress_run by done.
  eexists. split; [done|]. unfold beside, guard_set in *. by simpl.
Qed.

Lemma sendError_answered (message : jsstring) (r : NonStreaming.reply)
    (w w0 : world) :
  beside w w0 → answers (ErrorFrame message) r →
  ∃ w', sendError message w = (Normal (), w') ∧ answered w' r w0.
Proof.
  intros (Hsame & Hjson & Hguard) Hr. rewrite sendError_run by done.
  eexists. split; [done|]. unfold answered. simpl. split_and!; [done..|].
  exists (ErrorFrame message). by rewrite last_snoc.
Qed.



Lemma rel_fail (code : N) (message : string) :
  code = 400 ∨ code = 500 →
  rel beside (sendError (u message)) (NonStreaming.fail code message)
      replied same_exn.
Proof.
  intros Hcode w w0 Hw.
  destruct (sendError_answered (u message)
              {| NonStreaming.statusCode := code; NonStreaming.headers := [];
                 NonStreaming.json := NonStreaming.ErrorBody (u message) |}
              w w0 Hw) as (w' & -> & Hw'); [done|].
  exact Hw'.
Qed.

Lemma rel_throw {A A0} (message : jsstring)
    (Q : A → world → A0 → world → Prop) :
  rel beside (throw message) (throw message) Q same_exn.
Proof. by intros w w0 Hw. Qed.

Lemma rel_transcribe (audioFile : FormidableFile) (readablePath : jsstring) :
  rel beside (transcribe env audioFile readablePath)
      (NonStreaming.transcribe env audioFile readablePath)
      (λ t w t0 w0, t = t0 ∧ beside w w0) same_exn.
Proof.
  unfold transcribe, NonStreaming.transcribe.
  eapply rel_bind; [apply rel_same; [apply determined_stat|apply silent_stat]|].
  intros sz sz0. apply rel_pure. intros <-.
  destruct (sz =? 0); [apply rel_throw|].
  eapply rel_left; [intros w w0; apply sendProgress_beside|].
  eapply rel_bind.
  { apply rel_same; [apply determined_transcriptions_create
                    |apply silent_transcriptions_create]. }
  intros reply reply0. apply rel_pure. intros <-.
  destruct reply as [text|]; [|apply rel_throw].
  eapply rel_left; [intros w w0; apply sendProgress_beside|].
  by intros w w0 Hw.
Qed.

(** The parser of the earlier revision gives the summaries the later one
    gives. *)
Lemma parseSummaries_summaries (raw : jsstring) (players : list jsstring) :
  ∃ parsed, parseSummaries raw players = Normal parsed ∧
            NonStreaming.parseSummaries raw players = Normal (summaries parsed).
Proof.
  unfold parseSummaries, NonStreaming.parseSummaries,
    parseSummaries_body, NonStreaming.parseSummaries_body.
  destruct (JSON_parse raw) as [parsed|e]; simpl; [|by eexists].
  destruct parsed as [| | | | |ms]; simpl; try by eexists.
  destruct (lookup_member (u "players") ms) as [[| | | |entries|]|];
    simpl; try by eexists.
  destruct (filterM entry_guard entries) as [kept|e]; simpl; by eexists.
Qed.

Lemma rel_process (fields : Fields) (files : Files) :
  rel beside (process env fields files) (NonStreaming.process env fields files)
      replied same_exn.
Proof.
  unfold process, NonStreaming.process.
  case_bool_decide; [apply rel_fail; by left|].
  eapply rel_bind;
    [apply rel_same; [apply determined_lift|by intros w]|].
  intros cleaned cleaned0. apply rel_pure. intros <-.
  case_bool_decide; [apply rel_fail; by left|].
  destruct (pick_audio files) as [audioFile|]; [|apply rel_fail; by left].
  destruct (filepath audioFile) as [|c path] eqn:Hpath; [apply rel_fail; by left|].
  eapply rel_left; [intros w w0; apply sendProgress_beside|].
  eapply rel_bind.
  { apply rel_same; [apply determined_ensureExtensionOnPath
                    |apply silent_ensureExtensionOnPath]. }
  intros readablePath readablePath0. apply rel_pure. intros <-.
  apply rel_bind with (Q' := λ t w t0 w0, t = t0 ∧ beside w w0).
  { eapply rel_try_finally; [apply rel_transcribe|..].
    - intros t t0. apply rel_pure. intros <-.
      eapply rel_conseq;
        [apply rel_same; [apply determined_cleanup|apply silent_cleanup]
        |done| |done].
      intros [] w [] w0 [_ Hw]. split; [reflexivity|exact Hw].
    - intros e e0. apply rel_pure. intros <-.
      eapply rel_conseq;
        [apply rel_same; [apply determined_cleanup|apply silent_cleanup]
        |done| |done].
      intros [] w [] w0 [_ Hw]. split; [reflexivity|exact Hw]. }
  intros transcriptText transcriptText0. apply rel_pure. intros <-.
  destruct transcriptText as [|c' text]; [apply rel_fail; by right|].
  unfold summarize.
  eapply rel_left; [intros w w0; apply sendProgress_beside|].
  eapply rel_bind.
  { apply rel_same; [apply determined_chat_completions_create
                    |apply silent_chat_completions_create]. }
  intros content content0. apply rel_pure. intros <-.
  destruct content as [[|c'' content]|]; try (apply rel_fail; by right).
  destruct (parseSummaries_summaries (c'' :: content) cleaned)
    as (parsed & Hnew & Hold).
  rewrite Hnew, Hold.
  intros w w0 Hw. unfold mbind, M_bind, lift.
  destruct (sendProgress_beside (u "Summaries ready")
              [(u "step", MetaStr (u "summaries"));
               (u "summaryCount", MetaNum (length (summaries parsed)))] w w0 Hw)
    as (w' & -> & (Hsame & Hjson & Hguard)).
  unfold sendResult, mbind, M_bind, writeLine, endResponse.
  unfold guard_set in Hguard. apply orb_false_iff in Hguard as [Hended Hwritable].
  repeat (rewrite ?Hended, ?Hwritable; simpl).
  unfold replied, answered. simpl. split_and!; [done..|].
  eexists. rewrite last_snoc. split; [done|]. by simpl.
Qed.

End SideBySide.

Section Revisions.

Variables (req : request) (env : environment).

Lemma rel_pipeline :
  rel beside (pipeline req env)
      ('(fields, files) ← parseMultipart req;
       NonStreaming.process env fields files)
      replied same_exn.
Proof.
  unfold pipeline.
  eapply rel_left; [intros w w0; apply sendProgress_beside|].
  eapply rel_bind.
  { apply rel_same; [apply determined_parseMultipart|apply silent_parseMultipart]. }
  intros [fields files] [fields0 files0]. apply rel_pure. intros [= <- <-].
  apply rel_process.
Qed.

Lemma handlers_side_by_side (disk : gmap jsstring N) :
  ∃ w r w0,
    handler req env (initial_world disk) = (Normal (), w) ∧
    NonStreaming.handler req env (initial_world disk) = (Normal r, w0) ∧
    same_storage w w0 ∧
    match jsonBody (res w), last (written (res w)) with
    | Some message, _ =>
        NonStreaming.json r = NonStreaming.ErrorBody message ∧
        NonStreaming.statusCode r = statusCode (res w) ∧
        NonStreaming.headers r = headers (res w)
    | None, Some t => answers t r
    | None, None => False
    end.
Proof.
  destruct (decide (method req = u "POST")) as [Hmethod|Hmethod]; cycle 1.
  { unfold handler, NonStreaming.handler.
    rewrite !bool_decide_eq_true_2 by done. by eexists _, _, _. }
  destruct (ensureEnv env) as [[]|e] eqn:Henv; cycle 1.
  { unfold handler, NonStreaming.handler.
    rewrite !bool_decide_eq_false_2 by (by intros ?). rewrite Henv.
    by eexists _, _, _. }
  rewrite handler_streams by done.
  unfold NonStreaming.handler.
  rewrite bool_decide_eq_false_2 by (by intros ?). rewrite Henv.
  unfold try_catchM.
  rewrite (bind_run (lift (Normal ())) _ (initial_world disk) _ ()) by done.
  assert (beside (streaming_world disk) (initial_world disk)) as Hstart by done.
  pose proof (rel_pipeline _ _ Hstart) as Hrun.
  destruct (pipeline req env (streaming_world disk)) as [[[]|e] w],
    (('(fields, files) ← parseMultipart req;
      NonStreaming.process env fields files) (initial_world disk))
    as [[r|e0] w0]; try done.
  - destruct Hrun as (Hsame & Hjson & t & Hlast & Ht).
    exists w, r, w0. rewrite Hjson, Hlast. by split_and!.
  - destruct Hrun as [<- Hw].
    destruct (sendError_answered (error_message e)
                {| NonStreaming.statusCode := 500; NonStreaming.headers := [];
                   NonStreaming.json := NonStreaming.ErrorBody (error_message e) |}
                w w0 Hw) as (w' & Hsend & Hsame & Hjson & t & Hlast & Ht);
      [by split_and!; [..|right]|].
    destruct Hw as (_ & _ & Hguard).
    unfold report. unfold guard_set in Hguard.
    apply orb_false_iff in Hguard as [-> ->]. simpl. rewrite Hsend.
    eexists _, _, _. split_and!; [done..|]. by rewrite Hjson, Hlast.
Qed.

End Revisions.

Section Prompts.

(** The prompts of the two revisions agree up to the opening brace of
    the shape they ask for and differ in the line after it. *)
Lemma prompts_differ (players : list jsstring) (transcript : jsstring) :
  buildPrompt players transcript ≠ NonStreaming.buildPrompt players transcript.
Proof.
  unfold buildPrompt, NonStreaming.buildPrompt. intros Heq.
  repeat apply app_inv_head in Heq.
  vm_compute in Heq. discriminate Heq.
Qed.

Lemma requests_correspond (calls : list net_call) :
  Forall2 corresponding (map (request_of buildPrompt) calls)
          (map (request_of NonStreaming.buildPrompt) calls).
Proof.
  induction calls as [|call calls IH]; [apply Forall2_nil_2|].
  cbn [map]. apply Forall2_cons. split; [|exact IH].
  destruct call as [path fileName|players transcript]; cbn; [done|].
  split; [apply prompts_differ|]. by eexists _, _.
Qed.

End Prompts.

(** X21. The streaming revision answers every request as the earlier
    revision does, when the provider gives both the same replies.  Run
    on the same request, with the same environment and disk, both leave
    the same files and the same storage operations, and they call the
    provider at the same points: with the same transcription request,
    and with completion requests for the same roster and transcript,
    whose prompts differ, each revision building its own.  A reply the
    later revision sends with [res.json] (405, 500) is the earlier reply
    with its status and headers; an error frame carries the error text
    of the earlier reply, which has status 400 or 500; a result frame
    carries the transcript and the summaries of the earlier reply, which
    has status 200. *)
Theorem revisions_agree (req : request) (env : environment)
    (disk : gmap jsstring N) :
  ∃ w r w0,
    handler req env (initial_world disk) = (Normal (), w) ∧
    NonStreaming.handler req env (initial_world disk) = (Normal r, w0) ∧
    fs w = fs w0 ∧ fs_log w = fs_log w0 ∧
    Forall2 corresponding (requests w) (NonStreaming.requests w0) ∧
    match jsonBody (res w), last (written (res w)) with
    | Some message, _ =>
        NonStreaming.json r = NonStreaming.ErrorBody message ∧
        NonStreaming.statusCode r = statusCode (res w) ∧
        NonStreaming.headers r = headers (res w)
    | None, Some (ErrorFrame message) =>
        NonStreaming.json r = NonStreaming.ErrorBody message ∧
        (NonStreaming.statusCode r = 400 ∨ NonStreaming.statusCode r = 500)
    | None, Some (Result payload) =>
        NonStreaming.statusCode r = 200 ∧
        NonStreaming.json r
        = NonStreaming.PayloadBody
            {| NonStreaming.transcript := Payload.transcript payload;
               NonStreaming.summaries := Payload.summaries payload |}
    | None, _ => False
    end.
Proof.
  destruct (handlers_side_by_side req env disk)
    as (w & r & w0 & Hnew & Hold & (Hfs & Hlog & Hnet) & Hreply).
  exists w, r, w0. split_and!; [done..| |].
  { unfold requests, NonStreaming.requests. rewrite <-Hnet.
    apply requests_correspond. }
  destruct (jsonBody (res w)); [done|].
  destruct (last (written (res w))) as [[| |]|]; try done.
  - by destruct Hreply as (? & ? & ?).
  - by destruct Hreply as (? & ? & ?).
Qed.

(** ** The replies of the earlier revision *)

Section EarlierReplies.

Variables (req : request) (env : environment).

Lemma triple_any {A} (P : world → Prop) (m : M A) :
  triple P m (λ _ _, True) (λ _ _, True).
Proof. intros w _. by destruct (m w) as [[a|e] w']. Qed.

Lemma earlier_transcribe (audioFile : FormidableFile) (readablePath : jsstring) :
  triple (λ _, True) (NonStreaming.transcribe env audioFile readablePath)
    (λ _ _, ∃ text, transcription_reply env = Normal (Some text))
    (λ _ _, True).
Proof.
  unfold NonStreaming.transcribe.
  eapply triple_bind; [apply triple_any|intros sz]. simpl.
  destruct (sz =? 0); [by intros w _|].
  apply triple_bind with
    (Q' := λ reply _, transcription_reply env = Normal reply).
  { intros w _. unfold transcriptions_create.
    by destruct (transcription_reply env). }
  intros [text|]; intros w Hreply; simpl; eauto.
Qed.

Lemma earlier_late (cleaned : list jsstring) (audioFile : FormidableFile) :
  triple (λ _, True)
    (readablePath ← ensureExtensionOnPath env audioFile;
     transcriptText ←
       try_finallyM
         (NonStreaming.transcribe env audioFile readablePath)
         (try_catchM (unlink readablePath) (λ _, mret ()));
     match transcriptText with
     | [] => NonStreaming.fail 500 "Transcription failed"
     | _ =>
         content ← chat_completions_create env cleaned transcriptText;
         match content with
         | None | Some [] => NonStreaming.fail 500 "No summary returned by model"
         | Some text =>
             summaries ← lift (NonStreaming.parseSummaries text cleaned);
             mret {| NonStreaming.statusCode := 200; NonStreaming.headers := [];
                     NonStreaming.json :=
                       NonStreaming.PayloadBody
                         {| NonStreaming.transcript := transcriptText;
                            NonStreaming.summaries := summaries |} |}
         end
     end)
    (λ r _, late_reply env r) (λ _ _, True).
Proof.
  eapply triple_bind; [apply triple_any|intros readablePath]. simpl.
  apply triple_bind with
    (Q' := λ _ _, ∃ text, transcription_reply env = Normal (Some text)).
  { eapply triple_try_finally; [apply earlier_transcribe|..].
    - intros t w Ht. by destruct (try_catchM _ _ w) as [[[]|?] ?].
    - intros e w _. by destruct (try_catchM _ _ w) as [[[]|?] ?]. }
  intros transcriptText w Htext.
  destruct transcriptText as [|c t].
  { simpl. split; [done|]. left. eauto. }
  unfold mbind at 1, M_bind at 1, chat_completions_create.
  destruct (chat_reply env) as [[[|c' content]|]|e] eqn:Hchat; simpl;
    try done; try (split; [done|]; left; eauto).
  unfold NonStreaming.parseSummaries, try_catch.
  destruct (NonStreaming.parseSummaries_body _ _); simpl;
    (split; [done|]; right; eauto 10).
Qed.

Lemma earlier_process (fields : Fields) (files : Files)
    (disk : gmap jsstring N) :
  triple (untouched files disk) (NonStreaming.process env fields files)
    (λ r w, (NonStreaming.statusCode r = 400 ∧ NonStreaming.headers r = [] ∧
             validation_error r ∧ untouched files disk w) ∨
            late_reply env r)
    (λ _ _, True).
Proof.
  unfold NonStreaming.process, validation_error.
  case_bool_decide; [intros w Hw; simpl; left; eauto 10|].
  apply triple_bind with (Q' := λ _, untouched files disk).
  { intros w Hw. unfold lift. by destruct (cleanPlayers _). }
  intros cleaned.
  case_bool_decide; [intros w Hw; simpl; left; eauto 10|].
  destruct (pick_audio files) as [audioFile|];
    [|intros w Hw; simpl; left; eauto 10].
  destruct (filepath audioFile) as [|c path] eqn:Hpath;
    [intros w Hw; simpl; left; eauto 10|].
  eapply triple_conseq; [apply (earlier_late cleaned audioFile)|done| |done].
  intros r w Hr. by right.
Qed.

End EarlierReplies.

(** X22. The earlier revision answers once, with a JSON body under a
    status that tells the stage: 405 with [Allow: POST] for another
    method, before anything else is done; 400 for a roster or an audio
    file that is rejected, with one of the three validation messages
    and nothing done to the uploaded files, which stay on disk; 500 with
    an [{ error }] body for every other failure; 200 with the payload,
    and then the body was decoded and both provider calls answered. *)
Theorem earlier_revision_replies (req : request) (env : environment)
    (disk : gmap jsstring N) :
  ∃ r w0,
    NonStreaming.handler req env (initial_world disk) = (Normal r, w0) ∧
    ((method req ≠ u "POST" ∧
      r = {| NonStreaming.statusCode := 405;
             NonStreaming.headers := [(u "Allow", u "POST")];
             NonStreaming.json := NonStreaming.ErrorBody (u "Method not allowed") |} ∧
      w0 = initial_world disk) ∨
     (method req = u "POST" ∧ NonStreaming.statusCode r = 400 ∧
      NonStreaming.headers r = [] ∧ validation_error r ∧
      ensureEnv env = Normal () ∧
      ∃ fields files, multipart req = Normal (fields, files) ∧
                      untouched files disk w0) ∨
     (method req = u "POST" ∧ NonStreaming.statusCode r = 500 ∧
      NonStreaming.headers r = [] ∧
      ∃ message, NonStreaming.json r = NonStreaming.ErrorBody message) ∨
     (method req = u "POST" ∧ NonStreaming.statusCode r = 200 ∧
      NonStreaming.headers r = [] ∧
      (∃ payload, NonStreaming.json r = NonStreaming.PayloadBody payload) ∧
      all_stages_passed req env)).
Proof.
  unfold NonStreaming.handler.
  destruct (decide (method req = u "POST")) as [Hmethod|Hmethod]; cycle 1.
  { rewrite bool_decide_eq_true_2 by done. eexists _, _. split; [done|].
    by left. }
  rewrite bool_decide_eq_false_2 by (by intros ?). unfold try_catchM.
  destruct (ensureEnv env) as [[]|e] eqn:Henv; cycle 1.
  { simpl. eexists _, _. split; [done|]. right. right. left. eauto 10. }
  rewrite (bind_run (lift (Normal ())) _ (initial_world disk) _ ()) by done.
  unfold mbind, M_bind, parseMultipart.
  destruct (multipart req) as [[fields files]|e] eqn:Hparts; cycle 1.
  { simpl. eexists _, _. split; [done|]. right. right. left. eauto 10. }
  set (w1 := {| res := _; responseEnded := _; fs := _; fs_log := _; net_log := _ |}).
  assert (untouched files disk w1) as Hw1 by done.
  pose proof (earlier_process env fields files disk w1 Hw1) as Hrun.
  destruct (NonStreaming.process env fields files w1) as [[r|e] w0].
  - eexists _, _. split; [done|].
    destruct Hrun as [(Hcode & Hheaders & Hv & Hw0)|(Hheaders & [[Hcode Hbody]|(Hcode & Hbody & Ht & Hc)])].
    + right. left. split_and!; try done. eauto.
    + right. right. left. by split_and!.
    + right. right. right. split_and!; try done. unfold all_stages_passed. eauto.
  - eexists _, _. split; [done|]. right. right. left. simpl. eauto 10.
Qed.

(** ** The page reads the replies of the earlier revision *)

Section SingleBody.

Variable nonzero : jsstring → bool.

(** A body that is one JSON object with a transcript and summaries. *)
Lemma read_response_payload (payload : NonStreaming.SessionSummaryResponse)
    (body : stream) (pg : page) :
  failure body = None →
  concat (chunks body)
  = JSON_stringify (reply_data (NonStreaming.PayloadBody payload)) →
  read_response nonzero body pg
  = ({| isLoading := isLoading pg; statusMessage := null;
        result := Some (to_json (reply_data (NonStreaming.PayloadBody payload)));
        error := error pg |}, None).
Proof.
  intros Hfail Hbody. unfold read_response. rewrite Hfail.
  set (st0 := {| ui := pg; streamResult := null |}).
  set (data := reply_data (NonStreaming.PayloadBody payload)) in *.
  set (text := JSON_stringify data) in *.
  assert (processBuffer (handle_event nonzero) st0 (concat (chunks body))
          = (st0, text, None)) as Hscan.
  { rewrite Hbody. unfold processBuffer.
    by rewrite scan_no_newline by apply stringify_no_lf. }
  rewrite (read_loop_scan _ _ _ None _ [] _ _ _ (not_elem_of_nil _) Hscan) by done.
  unfold leftover_fallback.
  cbn [st0 streamResult null truthy_val truthy].
  destruct (stringify_object
              [(u "transcript", DString (NonStreaming.transcript payload));
               (u "summaries",
                DArray (map summary_data (NonStreaming.summaries payload)))])
    as [s Hs].
  change (JSON_stringify (DObject _)) with text in Hs.
  rewrite Hs, trim_braces, <-Hs.
  rewrite bool_decide_eq_true_2 by (rewrite Hs; simpl; lia).
  unfold text. rewrite parse_data. unfold data. cbn [reply_data to_json map fst snd].
  assert (∀ v w, lookup_member (u "error") [(u "transcript", v); (u "summaries", w)]
                 = None) as ->.
  { intros v w. by vm_compute. }
  assert (∀ v w, lookup_member (u "transcript") [(u "transcript", v); (u "summaries", w)]
                 = Some v) as ->.
  { intros v w. by vm_compute. }
  assert (∀ v w, lookup_member (u "summaries") [(u "transcript", v); (u "summaries", w)]
                 = Some w) as ->.
  { intros v w. by vm_compute. }
  reflexivity.
Qed.

End SingleBody.

(** X23. The page reads the replies of the earlier revision too, through
    what is left in its buffer: the body, one JSON object without a line
    feed, in any chunking, ends as the summary shown (the object with
    its transcript and summaries) when it is a payload, and as the error
    shown when it is an [{ error }] object (the page's own "The server
    did not return a summary." when that text is empty). *)
Theorem page_reads_single_replies (nonzero : jsstring → bool) {A : Type}
    (fetch : A → jsstring → completion stream) (file : A)
    (players : list jsstring) (body : list jsstring) (pg : page)
    (r : NonStreaming.reply) :
  cleanedPlayers players ≠ [] →
  fetch file (JSON_stringify (DArray (map DString (cleanedPlayers players))))
  = Normal {| chunks := body; failure := None |} →
  concat body = reply_text r →
  handleSubmit nonzero fetch (Some file) players pg
  = {| isLoading := false; statusMessage := null;
       result := match NonStreaming.json r with
                 | NonStreaming.PayloadBody _ =>
                     Some (to_json (reply_data (NonStreaming.json r)))
                 | NonStreaming.ErrorBody _ => null
                 end;
       error := match NonStreaming.json r with
                | NonStreaming.PayloadBody _ => null
                | NonStreaming.ErrorBody message =>
                    Some (JString
                            (if decide (message = [])
                             then u "The server did not return a summary."
                             else message))
                end |}.
Proof.
  intros Hroster Hfetch Hbody.
  rewrite (handleSubmit_fetched nonzero fetch file players _ pg Hroster Hfetch).
  cbv zeta. unfold reply_text in Hbody.
  destruct (NonStreaming.json r) as [message|payload].
  - rewrite (read_response_json nonzero message) by done.
    by destruct (decide (message = [])).
  - by rewrite (read_response_payload nonzero payload) by done.
Qed.

Lemma page_reads_single_replies_witness :
  let r := {| NonStreaming.statusCode := 400; NonStreaming.headers := [];
              NonStreaming.json :=
                NonStreaming.ErrorBody (u "Audio file is required") |} in
  let body := [uq "{'error':'Audio "; uq "file is required'}"] in
  handleSubmit (λ _, true)
    (λ _ _, Normal {| chunks := body; failure := None |}) (Some ())
    [u "Ann"]
    {| isLoading := false; statusMessage := null; result := null; error := null |}
  = {| isLoading := false; statusMessage := null; result := null;
       error := Some (JString (u "Audio file is required")) |}.
Proof.
  intros r body.
  apply (page_reads_single_replies (λ _, true)
           (λ _ _, Normal {| chunks := body; failure := None |}) ()
           [u "Ann"] body _ r).
  - by vm_compute.
  - reflexivity.
  - by vm_compute.
Defined.

(** X24. The parser of the earlier revision, which returns the
    summaries alone, gives on every output and roster the summaries the
    later parser gives: what holds of these holds of those. *)
Theorem earlier_parser_gives_the_same_summaries (raw : jsstring)
    (players : list jsstring) :
  ∃ parsed, parseSummaries raw players = Normal parsed ∧
            NonStreaming.parseSummaries raw players
            = Normal (summaries parsed).
Proof. apply parseSummaries_summaries. Qed.
